(** * xstate ts-project: extraction, target resolution and patch synthesis

    A shallow embedding of [new-packages/ts-project/src] (index.ts, state.ts
    and the utility module) together with the properties its specification
    states about it.

    Conventions of the embedding:
    - JavaScript objects used as dictionaries are finite maps ([gmap]) of
      their own properties; the insertion-ordered [originalTargets] table is
      an association list. A table that the code indexes by text of the
      source file (state keys, declared ids, implementation names, JSON keys)
      is read and written with the members it inherits from
      [Object.prototype] taken into account; a table indexed by generated
      unique ids is read as its own properties.
    - Mutated, shared objects (tree nodes) live in a store indexed by their
      [uniqueId]; a reference to a tree node is its id.
    - [uniqueId()] draws from [Math.random]; the embedding draws from a
      counter carried by the extraction context.
    - Code that can throw returns an [Outcome]. *)

From stdpp Require Import gmap strings list fin_maps pretty.
From Stdlib Require Import Ascii.

Open Scope string_scope.
Open Scope list_scope.

(** ** Outcomes of code that may throw *)

(** [IllTyped]: the code goes on with a value that its declared types
    exclude (a tree node stored where a node id is declared); the data model
    follows the declared types and does not represent what comes after. *)
Inductive Outcome (A : Type) : Type :=
  | Ok (a : A)
  | Throw (message : string)
  | OutOfFuel
  | IllTyped.
Arguments Ok {A} a.
Arguments Throw {A} message.
Arguments OutOfFuel {A}.
Arguments IllTyped {A}.

#[global] Instance Outcome_ret : MRet Outcome := fun A a => Ok a.
#[global] Instance Outcome_bind : MBind Outcome := fun A B f m =>
  match m with
  | Ok a => f a
  | Throw msg => Throw msg
  | OutOfFuel => OutOfFuel
  | IllTyped => IllTyped
  end.

Definition isOk {A} (m : Outcome A) : bool :=
  match m with Ok _ => true | _ => false end.

Definition raises {A} (m : Outcome A) : Prop := ∃ msg, m = Throw msg.

(** Message of the [TypeError] raised when a property of [undefined] is read. *)
Definition TypeError : string := "TypeError".

(** ** Strings *)

(** JavaScript truthiness of a string: only the empty string is falsy. *)
Definition truthy (s : string) : bool :=
  match s with EmptyString => false | String _ _ => true end.

Definition truthyOpt (o : option string) : option string :=
  match o with
  | Some s => if truthy s then Some s else None
  | None => None
  end.

(** [s.split(sep)] for a one-character separator. *)
Fixpoint split (sep : ascii) (s : string) : list string :=
  match s with
  | EmptyString => [EmptyString]
  | String a rest =>
      if Ascii.eqb a sep then EmptyString :: split sep rest
      else match split sep rest with
           | [] => [String a EmptyString]
           | h :: t => String a h :: t
           end
  end.

(** [arr.join(sep)] is [String.concat sep arr]. *)
Definition join (sep : string) (l : list string) : string := String.concat sep l.

Fixpoint contains (c : ascii) (s : string) : bool :=
  match s with
  | EmptyString => false
  | String a rest => Ascii.eqb a c || contains c rest
  end.

Definition dot : ascii := "."%char.
Definition hash : ascii := "#"%char.

(** ** Plain objects *)

(** The members that every plain object ([{}]) inherits from
    [Object.prototype]. Reading one of these names on an object that has no
    own property of that name gives a function, and for [__proto__] the
    prototype of the object, which is [Object.prototype] itself unless an
    assignment to [__proto__] has replaced it. *)
Definition objectPrototypeNames : list string :=
  ["constructor"; "__defineGetter__"; "__defineSetter__"; "hasOwnProperty";
   "__lookupGetter__"; "__lookupSetter__"; "isPrototypeOf"; "propertyIsEnumerable";
   "toString"; "valueOf"; "__proto__"; "toLocaleString"].

Definition inheritedName (key : string) : bool :=
  bool_decide (key ∈ objectPrototypeNames).

(** The property key that an inherited member is converted to when it is
    used to index an object: the text of the function as the engine prints
    it, and ["[object Object]"] for [Object.prototype]. *)
Definition memberKey (name : string) : string :=
  if String.eqb name "__proto__" then "[object Object]"
  else "function " +:+ (if String.eqb name "constructor" then "Object" else name)
       +:+ "() { [native code] }".

(** ** The TypeScript syntax tree, as far as the extractor looks at it *)

Inductive Quote := SingleQuote | DoubleQuote.

#[global] Instance Quote_eq_dec : EqDecision Quote.
Proof. solve_decision. Defined.

(** [charCodes.singleQuote], [charCodes.doubleQuote], [charCodes.backtick]. *)
Definition singleQuote : nat := 39.
Definition doubleQuote : nat := 34.
Definition backtick : nat := 96.

Definition quoteCharCode (q : Quote) : nat :=
  match q with SingleQuote => singleQuote | DoubleQuote => doubleQuote end.

Inductive MemberName :=
  | MIdentifier (text : string)
  | MPrivateIdentifier (text : string).

(** [Expression], [ObjectLiteralElementLike] and [PropertyName]. A numeric
    literal carries both [getText()] (the source text) and [.text] (the
    normalised text). Nodes the extractor never inspects are [EOther] with
    their children. [ETypeNode] is a node of which [ts.isTypeNode] holds,
    with the expressions below it: besides the type annotations this is an
    [ExpressionWithTypeArguments], the node of a class's [extends] clause,
    whose child is the expression that is extended. *)
#[local] Set Warnings "-register-all".
Inductive Expr :=
  | EIdentifier (text : string)
  | EStringLiteral (quote : Quote) (text : string)
  | ENoSubstitutionTemplateLiteral (text : string)
  | ENumericLiteral (sourceText text : string)
  | ETrueKeyword
  | EFalseKeyword
  | ENullKeyword
  | EArrayLiteral (elements : list Expr)
  | EObjectLiteral (properties : list ObjProp)
  | EFunctionExpression (sourceText : string) (children : list Expr)
  | EArrowFunction (sourceText : string) (children : list Expr)
  | ECall (expression : Expr) (arguments : list Expr)
  | EPropertyAccess (expression : Expr) (name : MemberName)
  | ETypeNode (children : list Expr)
  | EOther (children : list Expr)
with ObjProp :=
  | PropertyAssignment (name : PropName) (initializer : Expr)
  | ShorthandPropertyAssignment (name : string)
  | SpreadAssignment (expression : Expr)
  | MethodDeclaration (name : PropName) (children : list Expr)
  | GetAccessorDeclaration (name : PropName) (children : list Expr)
  | SetAccessorDeclaration (name : PropName) (children : list Expr)
with PropName :=
  | NIdentifier (text : string)
  | NStringLiteral (quote : Quote) (text : string)
  | NNoSubstitutionTemplateLiteral (text : string)
  | NNumericLiteral (sourceText text : string)
  | NComputedPropertyName (expression : Expr)
  | NPrivateIdentifier (text : string)
  | NBigIntLiteral (text : string).

Inductive Statement :=
  | ImportDeclaration (moduleSpecifier : Expr)
  | ExportDeclaration (moduleSpecifier : option Expr)
  | OtherStatement (children : list Expr).

Record SourceFile := { statements : list Statement }.

(** A TypeScript [Program] maps file names to parsed source files
    ([program.getSourceFile(fileName)]). *)
Definition TsProgram := gmap string SourceFile.

Definition isStringLiteralLike (e : Expr) : option string :=
  match e with
  | EStringLiteral _ t => Some t
  | ENoSubstitutionTemplateLiteral t => Some t
  | _ => None
  end.

Definition isObjectLiteralExpression (e : Expr) : option (list ObjProp) :=
  match e with EObjectLiteral props => Some props | _ => None end.

Definition isArrayLiteralExpression (e : Expr) : option (list Expr) :=
  match e with EArrayLiteral elems => Some elems | _ => None end.

(** [isUndefined]: the identifier [undefined]. *)
Definition isUndefined (prop : Expr) : bool :=
  match prop with
  | EIdentifier t => bool_decide (t = "undefined")
  | _ => false
  end.

(** ** Data model (types.ts, as used by index.ts and state.ts) *)

Inductive JsonValue :=
  | JString (s : string)
  | JNumber (text : string)
  | JBool (b : bool)
  | JNull
  | JArray (items : list JsonValue)
  | JObject (entries : list (string * JsonValue)).

Definition JsonObject := list (string * JsonValue).

(** The own properties of an object in the order in which they were first
    assigned: [assocSet] creates an own property or overwrites it.
    (JavaScript enumerates integer-like keys first; nothing here depends on
    the order.) *)
Fixpoint assocSet {V} (k : string) (v : V) (l : list (string * V)) : list (string * V) :=
  match l with
  | [] => [(k, v)]
  | (k', v') :: rest =>
      if bool_decide (k' = k) then (k, v) :: rest else (k', v') :: assocSet k v rest
  end.

Fixpoint assocGet {V} (k : string) (l : list (string * V)) : option V :=
  match l with
  | [] => None
  | (k', v') :: rest => if bool_decide (k' = k) then Some v' else assocGet k rest
  end.

Inductive PropertyKind := computed | private.

#[global] Instance PropertyKind_eq_dec : EqDecision PropertyKind.
Proof. solve_decision. Defined.

Inductive ExtractionError :=
  | state_unhandled
  | state_property_unhandled
  | state_property_invalid
  | state_type_invalid
  | state_history_invalid
  | transition_property_unhandled
  | transition_target_unresolved
  | action_unhandled
  | property_key_unhandled (propertyKind : PropertyKind)
  | property_key_no_roundtrip
  | property_unhandled.

#[global] Instance ExtractionError_eq_dec : EqDecision ExtractionError.
Proof. solve_decision. Defined.

Inductive NodeType := normal | history | parallel | final.
Inductive HistoryKind := shallow | deep.

Module Node.
Record Data := {
  key : option string;
  initial : option string;
  type : NodeType;
  history : option HistoryKind;
  metaEntries : list (string * option JsonValue);
  entry : list string;
  exit : list string;
  invoke : list string;
  tags : list string;
  description : option string;
}.
Record t := {
  uniqueId : string;
  parentId : option string;
  data : Data;
}.
Definition withData (f : Data → Data) (n : t) : t :=
  {| uniqueId := uniqueId n; parentId := parentId n; data := f (data n) |}.
Definition setInitial (v : option string) (d : Data) : Data :=
  {| key := key d; initial := v; type := type d; history := history d;
     metaEntries := metaEntries d; entry := entry d; exit := exit d;
     invoke := invoke d; tags := tags d; description := description d |}.
Definition setType (v : NodeType) (d : Data) : Data :=
  {| key := key d; initial := initial d; type := v; history := history d;
     metaEntries := metaEntries d; entry := entry d; exit := exit d;
     invoke := invoke d; tags := tags d; description := description d |}.
Definition setHistory (v : option HistoryKind) (d : Data) : Data :=
  {| key := key d; initial := initial d; type := type d; history := v;
     metaEntries := metaEntries d; entry := entry d; exit := exit d;
     invoke := invoke d; tags := tags d; description := description d |}.
Definition setDescription (v : option string) (d : Data) : Data :=
  {| key := key d; initial := initial d; type := type d; history := history d;
     metaEntries := metaEntries d; entry := entry d; exit := exit d;
     invoke := invoke d; tags := tags d; description := v |}.
Definition setMetaEntries (v : list (string * option JsonValue)) (d : Data) : Data :=
  {| key := key d; initial := initial d; type := type d; history := history d;
     metaEntries := v; entry := entry d; exit := exit d;
     invoke := invoke d; tags := tags d; description := description d |}.
Definition setEntry (v : list string) (d : Data) : Data :=
  {| key := key d; initial := initial d; type := type d; history := history d;
     metaEntries := metaEntries d; entry := v; exit := exit d;
     invoke := invoke d; tags := tags d; description := description d |}.
Definition setExit (v : list string) (d : Data) : Data :=
  {| key := key d; initial := initial d; type := type d; history := history d;
     metaEntries := metaEntries d; entry := entry d; exit := v;
     invoke := invoke d; tags := tags d; description := description d |}.
Definition setInvoke (v : list string) (d : Data) : Data :=
  {| key := key d; initial := initial d; type := type d; history := history d;
     metaEntries := metaEntries d; entry := entry d; exit := exit d;
     invoke := v; tags := tags d; description := description d |}.
End Node.

(** [children] is the plain object [treeNode.children[childKey] =
    childTreeNode] fills: it maps the key of a child state to (the id of) the
    child's tree node. An assignment to the key [__proto__] creates no own
    property but makes the child's tree node the prototype of the table; the
    entry under ["__proto__"] stands for this prototype. *)
Module TreeNode.
Record t := {
  uniqueId : string;
  parentId : option string;
  children : gmap string string;
}.
Definition setChild (k : string) (child : string) (n : t) : t :=
  {| uniqueId := uniqueId n; parentId := parentId n;
     children := <[k := child]> (children n) |}.
End TreeNode.

Inductive EventTypeData :=
  | after
  | named (eventType : string)
  | wildcard
  | always
  | state_done
  | invocation_done (invocationId : string)
  | invocation_error (invocationId : string)
  | init.

Module Edge.
Record Data := {
  eventTypeData : EventTypeData;
  actions : list string;
  guard : option string;
  description : option string;
  internal : bool;
}.
Record t := {
  uniqueId : string;
  source : string;
  targets : list string;
  data : Data;
}.
Definition withData (f : Data → Data) (e : t) : t :=
  {| uniqueId := uniqueId e; source := source e; targets := targets e; data := f (data e) |}.
Definition setActions (v : list string) (d : Data) : Data :=
  {| eventTypeData := eventTypeData d; actions := v; guard := guard d;
     description := description d; internal := internal d |}.
Definition setDescription (v : option string) (d : Data) : Data :=
  {| eventTypeData := eventTypeData d; actions := actions d; guard := guard d;
     description := v; internal := internal d |}.
Definition pushTarget (target : string) (e : t) : t :=
  {| uniqueId := uniqueId e; source := source e; targets := targets e ++ [target];
     data := data e |}.
End Edge.

Inductive BlockType := action | actor.

Inductive BlockProperties :=
  | ActionProperties (type : string)
  | ActorProperties (src id : string).

Module Block.
Record t := {
  blockType : BlockType;
  uniqueId : string;
  parentId : string;
  sourceId : string;
  properties : BlockProperties;
}.
End Block.

Record Implementation := {
  impl_type : BlockType;
  impl_id : string;
  impl_name : string;
}.

Record Implementations := {
  actions : gmap string Implementation;
  actors : gmap string Implementation;
  guards : gmap string Implementation;
}.

(** [digraph.data.context]: a JSON object, or the captured text of a function
    wrapped in double braces. *)
Inductive ContextValue :=
  | ContextObject (obj : JsonObject)
  | ContextExpression (text : string).

(** The digraph under construction ([ctx.digraph]); [ExtractorDigraphDef]
    adds the root id. *)
Record Digraph := {
  nodes : gmap string Node.t;
  edges : gmap string Edge.t;
  edgeRefs : list string;
  blocks : gmap string Block.t;
  implementations : Implementations;
  context : ContextValue;
}.

Record ExtractorDigraphDef := {
  root : string;
  digraph : Digraph;
}.

Definition AstPath := list nat.

Record AstPaths := {
  astNodes : gmap string AstPath;
  astEdges : gmap string AstPath;
}.

Record ProjectMachineState := {
  pms_digraph : option ExtractorDigraphDef;
  pms_errors : list ExtractionError;
  pms_astPaths : AstPaths;
  idMap : gmap string string;
}.

(** [ExtractionContext]. [idSupply] is the source of [uniqueId()];
    [idToNodeIdMap] is the field state.ts writes as [ctx.idMap]. *)
Record ExtractionContext := {
  errors : list ExtractionError;
  ctx_digraph : Digraph;
  treeNodes : gmap string TreeNode.t;
  idToNodeIdMap : gmap string string;
  originalTargets : list (string * list string);
  currentAstPath : AstPath;
  astPaths : AstPaths;
  idSupply : nat;
}.

(** ** The extraction context as threaded state *)

Definition Extract (A : Type) : Type := ExtractionContext → A * ExtractionContext.

#[global] Instance Extract_ret : MRet Extract := fun A a ctx => (a, ctx).
#[global] Instance Extract_bind : MBind Extract := fun A B f m ctx =>
  match m ctx with (a, ctx') => f a ctx' end.

Definition setErrors (v : list ExtractionError) (ctx : ExtractionContext) :=
  {| errors := v; ctx_digraph := ctx_digraph ctx; treeNodes := treeNodes ctx;
     idToNodeIdMap := idToNodeIdMap ctx; originalTargets := originalTargets ctx;
     currentAstPath := currentAstPath ctx; astPaths := astPaths ctx;
     idSupply := idSupply ctx |}.
Definition setDigraph (v : Digraph) (ctx : ExtractionContext) :=
  {| errors := errors ctx; ctx_digraph := v; treeNodes := treeNodes ctx;
     idToNodeIdMap := idToNodeIdMap ctx; originalTargets := originalTargets ctx;
     currentAstPath := currentAstPath ctx; astPaths := astPaths ctx;
     idSupply := idSupply ctx |}.
Definition setTreeNodes (v : gmap string TreeNode.t) (ctx : ExtractionContext) :=
  {| errors := errors ctx; ctx_digraph := ctx_digraph ctx; treeNodes := v;
     idToNodeIdMap := idToNodeIdMap ctx; originalTargets := originalTargets ctx;
     currentAstPath := currentAstPath ctx; astPaths := astPaths ctx;
     idSupply := idSupply ctx |}.
Definition setIdToNodeIdMap (v : gmap string string) (ctx : ExtractionContext) :=
  {| errors := errors ctx; ctx_digraph := ctx_digraph ctx; treeNodes := treeNodes ctx;
     idToNodeIdMap := v; originalTargets := originalTargets ctx;
     currentAstPath := currentAstPath ctx; astPaths := astPaths ctx;
     idSupply := idSupply ctx |}.
Definition setOriginalTargets (v : list (string * list string)) (ctx : ExtractionContext) :=
  {| errors := errors ctx; ctx_digraph := ctx_digraph ctx; treeNodes := treeNodes ctx;
     idToNodeIdMap := idToNodeIdMap ctx; originalTargets := v;
     currentAstPath := currentAstPath ctx; astPaths := astPaths ctx;
     idSupply := idSupply ctx |}.
Definition setCurrentAstPath (v : AstPath) (ctx : ExtractionContext) :=
  {| errors := errors ctx; ctx_digraph := ctx_digraph ctx; treeNodes := treeNodes ctx;
     idToNodeIdMap := idToNodeIdMap ctx; originalTargets := originalTargets ctx;
     currentAstPath := v; astPaths := astPaths ctx;
     idSupply := idSupply ctx |}.
Definition setIdSupply (v : nat) (ctx : ExtractionContext) :=
  {| errors := errors ctx; ctx_digraph := ctx_digraph ctx; treeNodes := treeNodes ctx;
     idToNodeIdMap := idToNodeIdMap ctx; originalTargets := originalTargets ctx;
     currentAstPath := currentAstPath ctx; astPaths := astPaths ctx;
     idSupply := v |}.

Definition setNodes (v : gmap string Node.t) (d : Digraph) :=
  {| nodes := v; edges := edges d; edgeRefs := edgeRefs d; blocks := blocks d;
     implementations := implementations d; context := context d |}.
Definition setEdges (v : gmap string Edge.t) (d : Digraph) :=
  {| nodes := nodes d; edges := v; edgeRefs := edgeRefs d; blocks := blocks d;
     implementations := implementations d; context := context d |}.
Definition setBlocks (v : gmap string Block.t) (d : Digraph) :=
  {| nodes := nodes d; edges := edges d; edgeRefs := edgeRefs d; blocks := v;
     implementations := implementations d; context := context d |}.
Definition setImplementations (v : Implementations) (d : Digraph) :=
  {| nodes := nodes d; edges := edges d; edgeRefs := edgeRefs d; blocks := blocks d;
     implementations := v; context := context d |}.
Definition setContext (v : ContextValue) (d : Digraph) :=
  {| nodes := nodes d; edges := edges d; edgeRefs := edgeRefs d; blocks := blocks d;
     implementations := implementations d; context := v |}.

(** [ctx.errors.push(e)] *)
Definition pushError (e : ExtractionError) : Extract unit :=
  fun ctx => (tt, setErrors (errors ctx ++ [e]) ctx).

Definition pushErrors (es : list ExtractionError) : Extract unit :=
  fun ctx => (tt, setErrors (errors ctx ++ es) ctx).

Definition modifyDigraph (f : Digraph → Digraph) : Extract unit :=
  fun ctx => (tt, setDigraph (f (ctx_digraph ctx)) ctx).

(** A mutation of the node object registered under [id]. *)
Definition modifyNodeData (id : string) (f : Node.Data → Node.Data) : Extract unit :=
  modifyDigraph (fun d => setNodes (alter (Node.withData f) id (nodes d)) d).

Definition getNodeData (id : string) : Extract (option Node.Data) :=
  fun ctx => (Node.data <$> nodes (ctx_digraph ctx) !! id, ctx).

(** ** utils *)

(** [uniqueId()]: [Math.random().toString(36).substring(2)], drawn here from
    the context's supply. *)
Definition uniqueId : Extract string :=
  fun ctx => (pretty (idSupply ctx), setIdSupply (S (idSupply ctx)) ctx).

Definition enterAstPathSegment (segment : nat) : Extract unit :=
  fun ctx => (tt, setCurrentAstPath (currentAstPath ctx ++ [segment]) ctx).

Definition exitAstPathSegment : Extract unit :=
  fun ctx => (tt, setCurrentAstPath (removelast (currentAstPath ctx)) ctx).

Definition withAstPathSegment {T} (segment : nat) (cb : Extract T) : Extract T :=
  _ ← enterAstPathSegment segment;
  r ← cb;
  _ ← exitAstPathSegment;
  mret r.

(** [getLiteralText] only uses the context to push errors; it is written as
    the errors to push together with the result, so that callers that pass
    no context ([findProperty(undefined, ...)]) can be modelled too. *)
Definition getLiteralText (node : Expr) : list ExtractionError * option string :=
  match node with
  | EStringLiteral _ text => ([], Some text)
  | ENoSubstitutionTemplateLiteral text => ([], Some text)
  | ENumericLiteral sourceText text =>
      (if bool_decide (sourceText ≠ text) then [property_key_no_roundtrip] else [],
       Some sourceText)
  | _ => ([], None)
  end.

(** [getPropertyKey]. The test [ts.isExpression(prop.name)] comes before the
    tests for computed and private names, and it holds of every name but a
    computed one: a private identifier and a BigInt literal are expression
    nodes, so they reach [getLiteralText], which returns [undefined] for them
    without recording an error. The branch for private identifiers is never
    taken. *)
Definition getPropertyKey (name : PropName) : list ExtractionError * option string :=
  match name with
  | NIdentifier text => ([], Some text)
  | NStringLiteral q text => getLiteralText (EStringLiteral q text)
  | NNoSubstitutionTemplateLiteral text => getLiteralText (ENoSubstitutionTemplateLiteral text)
  | NNumericLiteral sourceText text => getLiteralText (ENumericLiteral sourceText text)
  | NComputedPropertyName expression =>
      match getLiteralText expression with
      | (errs, Some text) => (errs, Some text)
      | (errs, None) => (errs ++ [property_key_unhandled computed], None)
      end
  | NPrivateIdentifier _ => ([], None)
  | NBigIntLiteral _ => ([], None)
  end.

(** [getPropertyKey(ctx, ts, prop)] with a context. *)
Definition getPropertyKeyCtx (name : PropName) : Extract (option string) :=
  _ ← pushErrors (getPropertyKey name).1;
  mret (getPropertyKey name).2.

(** [getPropertyKey(undefined, ts, prop)]: pushing an error dereferences
    [undefined]. *)
Definition getPropertyKeyNoCtx (name : PropName) : Outcome (option string) :=
  match getPropertyKey name with
  | ([], key) => Ok key
  | (_ :: _, _) => Throw TypeError
  end.

(** [obj[key] = value] on the plain object that [getJsonObject] fills.
    An assignment to [__proto__] creates no own property as long as it
    reaches the accessor that [Object.prototype] has under that name: the
    accessor replaces the prototype of the object when the value is an
    object, an array or [null], and ignores every other value. The accessor
    is reached when the object has no own property of that name and
    [accessor] holds, which says that the prototype chain of the object
    leads to [Object.prototype] past no own [__proto__] property; [inherits]
    says the same of the chain that starts at the value. Every other
    assignment creates or overwrites an own property. *)
Definition assignProperty (k : string) (v : JsonValue) (inherits : bool)
    (obj : JsonObject) (accessor : bool) : JsonObject * bool :=
  if bool_decide (k = "__proto__") && accessor && negb (bool_decide (k ∈ obj.*1)) then
    match v with
    | JNull => (obj, false)
    | JArray _ | JObject _ => (obj, inherits)
    | _ => (obj, accessor)
    end
  else (assocSet k v obj, accessor).

(** [getJsonValue], returning with the value whether an object that
    inherits from it still reaches the [__proto__] accessor (see
    [assignProperty]). *)
Fixpoint getJsonValue_chain (prop : Expr) : Extract (option (JsonValue * bool)) :=
  match prop with
  | EStringLiteral _ text => mret (Some (JString text, true))
  | ENoSubstitutionTemplateLiteral text => mret (Some (JString text, true))
  | ENumericLiteral _ text => mret (Some (JNumber text, true))
  | ETrueKeyword => mret (Some (JBool true, true))
  | EFalseKeyword => mret (Some (JBool false, true))
  | ENullKeyword => mret (Some (JNull, true))
  | EArrayLiteral elements =>
      (fix loop (elems : list Expr) (arr : list JsonValue)
         : Extract (option (JsonValue * bool)) :=
         match elems with
         | [] => mret (Some (JArray arr, true))
         | elem :: rest =>
             value ← getJsonValue_chain elem;
             match value with
             | None => mret None
             | Some (v, _) => loop rest (arr ++ [v])
             end
         end) elements []
  | EObjectLiteral properties =>
      (fix loop (props : list ObjProp) (obj : JsonObject) (accessor : bool)
         : Extract (option (JsonValue * bool)) :=
         match props with
         | [] =>
             mret (Some (JObject obj,
                         accessor && negb (bool_decide ("__proto__" ∈ obj.*1))))
         | PropertyAssignment name initializer :: rest =>
             key ← getPropertyKeyCtx name;
             match truthyOpt key with
             | Some k =>
                 value ← getJsonValue_chain initializer;
                 match value with
                 | None => mret None
                 | Some (v, inherits) =>
                     let '(obj', accessor') := assignProperty k v inherits obj accessor in
                     loop rest obj' accessor'
                 end
             | None => loop rest obj accessor
             end
         | _ :: rest => loop rest obj accessor
         end) properties [] true
  | _ => mret None
  end.

Definition getJsonValue (prop : Expr) : Extract (option JsonValue) :=
  value ← getJsonValue_chain prop;
  mret (fst <$> value).

Definition getJsonObject (properties : list ObjProp) : Extract (option JsonObject) :=
  value ← getJsonValue (EObjectLiteral properties);
  mret (match value with Some (JObject obj) => Some obj | _ => None end).

Fixpoint mapElements {T} (cb : Expr → nat → Extract T) (elements : list Expr)
    (index : nat) : Extract (list T) :=
  match elements with
  | [] => mret []
  | element :: rest =>
      r ← withAstPathSegment index (cb element index);
      rs ← mapElements cb rest (S index);
      mret (r :: rs)
  end.

Definition mapMaybeArrayElements {T} (expression : Expr)
    (cb : Expr → nat → Extract T) : Extract (list T) :=
  match expression with
  | EArrayLiteral elements => mapElements cb elements 0
  | _ => r ← cb expression 0; mret [r]
  end.

(** [everyDefined(arr)], returning the narrowed array when it holds. *)
Fixpoint everyDefined {T} (arr : list (option T)) : option (list T) :=
  match arr with
  | [] => Some []
  | None :: _ => None
  | Some x :: rest =>
      match everyDefined rest with
      | Some xs => Some (x :: xs)
      | None => None
      end
  end.

(** A property assignment of an object literal together with its index. *)
Record PropertyRef := {
  prop_index : nat;
  prop_name : PropName;
  prop_initializer : Expr;
}.

(** [findProperty]: the scan runs from the last property to the first. *)
Fixpoint findProperty_scan (rprops : list (nat * ObjProp)) (key : string)
    : list ExtractionError * option PropertyRef :=
  match rprops with
  | [] => ([], None)
  | (i, PropertyAssignment name initializer) :: rest =>
      let '(errs, k) := getPropertyKey name in
      if bool_decide (k = Some key) then
        (errs, Some {| prop_index := i; prop_name := name; prop_initializer := initializer |})
      else
        let '(errs', r) := findProperty_scan rest key in (errs ++ errs', r)
  | _ :: rest => findProperty_scan rest key
  end.

Definition indexed {A} (l : list A) : list (nat * A) := imap pair l.

Definition findProperty (obj : list ObjProp) (key : string)
    : list ExtractionError * option PropertyRef :=
  findProperty_scan (reverse (indexed obj)) key.

Definition findPropertyCtx (obj : list ObjProp) (key : string) : Extract (option PropertyRef) :=
  _ ← pushErrors (findProperty obj key).1;
  mret (findProperty obj key).2.

(** [findProperty(undefined, ts, obj, key)] *)
Definition findPropertyNoCtx (obj : list ObjProp) (key : string) : Outcome (option PropertyRef) :=
  match findProperty obj key with
  | ([], r) => Ok r
  | (_ :: _, _) => Throw TypeError
  end.

Fixpoint forEachStaticProperty_scan (rprops : list (nat * ObjProp))
    (cb : PropertyRef → string → Extract unit) (seen : gset string) : Extract unit :=
  match rprops with
  | [] => mret tt
  | (i, PropertyAssignment name initializer) :: rest =>
      key ← getPropertyKeyCtx name;
      match truthyOpt key with
      | None => forEachStaticProperty_scan rest cb seen
      | Some k =>
          if bool_decide (k ∈ seen) then forEachStaticProperty_scan rest cb seen
          else
            _ ← withAstPathSegment i
                  (cb {| prop_index := i; prop_name := name; prop_initializer := initializer |} k);
            forEachStaticProperty_scan rest cb ({[k]} ∪ seen)
      end
  | _ :: rest =>
      _ ← pushError property_unhandled;
      forEachStaticProperty_scan rest cb seen
  end.

Definition forEachStaticProperty (obj : list ObjProp)
    (cb : PropertyRef → string → Extract unit) : Extract unit :=
  forEachStaticProperty_scan (reverse (indexed obj)) cb ∅.

Record CallExpression := {
  call_expression : Expr;
  call_arguments : list Expr;
}.

Definition InvalidNode : string := "Invalid node".

Fixpoint findNodeByAstPath_walk (current : option Expr) (path : AstPath)
    : Outcome (option Expr) :=
  match path with
  | [] => Ok current
  | segment :: rest =>
      match current with
      | Some (EObjectLiteral properties) =>
          match properties !! segment with
          | Some (PropertyAssignment _ initializer) =>
              findNodeByAstPath_walk (Some initializer) rest
          | _ => Throw InvalidNode
          end
      | _ => Throw InvalidNode
      end
  end.

Definition findNodeByAstPath (call : CallExpression) (path : AstPath) : Outcome (option Expr) :=
  findNodeByAstPath_walk (head (call_arguments call)) path.

Fixpoint getPreferredQuoteCharCode_scan (stmts : list Statement) : nat :=
  match stmts with
  | [] => doubleQuote
  | ImportDeclaration (EStringLiteral q _) :: _ => quoteCharCode q
  | ExportDeclaration (Some (EStringLiteral q _)) :: _ => quoteCharCode q
  | _ :: rest => getPreferredQuoteCharCode_scan rest
  end.

Definition getPreferredQuoteCharCode (sourceFile : SourceFile) : nat :=
  getPreferredQuoteCharCode_scan (statements sourceFile).

(** ** state.ts *)

Definition createActionBlock (sourceId parentId : string) : Extract Block.t :=
  blockId ← uniqueId;
  mret {| Block.blockType := action; Block.uniqueId := blockId;
          Block.parentId := parentId; Block.sourceId := sourceId;
          Block.properties := ActionProperties sourceId |}.

Definition createActorBlock (sourceId parentId actorId : string) : Extract Block.t :=
  blockId ← uniqueId;
  mret {| Block.blockType := actor; Block.uniqueId := blockId;
          Block.parentId := parentId; Block.sourceId := sourceId;
          Block.properties := ActorProperties sourceId actorId |}.

Definition createEdge (sourceId : string) (eventTypeData : EventTypeData) : Extract Edge.t :=
  edgeId ← uniqueId;
  mret {| Edge.uniqueId := edgeId; Edge.source := sourceId; Edge.targets := [];
          Edge.data := {| Edge.eventTypeData := eventTypeData; Edge.actions := [];
                          Edge.guard := None; Edge.description := None;
                          Edge.internal := true |} |}.

Definition isForbiddenTarget (element : Expr) : bool :=
  isUndefined element || match element with ENullKeyword => true | _ => false end.

Definition getObjectTransitionTargets (transition : list ObjProp)
    : Extract (option (list (option string))) :=
  targetProperty ← findPropertyCtx transition "target";
  match targetProperty with
  | None => mret None
  | Some p =>
      if isForbiddenTarget (prop_initializer p) then mret None
      else
        targets ← mapMaybeArrayElements (prop_initializer p)
                    (fun expression _ => mret (isStringLiteralLike expression));
        mret (Some targets)
  end.

Definition inlineSourceId : Extract string :=
  token ← uniqueId; mret ("inline:" +:+ token).

Definition extractActionBlocks (expression : Expr) (parentId : string)
    : Extract (list (option Block.t)) :=
  mapMaybeArrayElements expression (fun element _ =>
    if isUndefined element then mret None
    else match element with
    | EStringLiteral _ text | ENoSubstitutionTemplateLiteral text =>
        block ← createActionBlock text parentId; mret (Some block)
    | EObjectLiteral properties =>
        typeProperty ← findPropertyCtx properties "type";
        match typeProperty with
        | None => mret None
        | Some p =>
            match isStringLiteralLike (prop_initializer p) with
            | Some text => block ← createActionBlock text parentId; mret (Some block)
            | None =>
                _ ← pushError action_unhandled;
                sourceId ← inlineSourceId;
                block ← createActionBlock sourceId parentId;
                mret (Some block)
            end
        end
    | _ =>
        sourceId ← inlineSourceId;
        block ← createActionBlock sourceId parentId;
        mret (Some block)
    end).

(** [impls[sourceId] ??= {...}]: nothing is assigned when the table has the
    source id, nor when the source id is the name of an inherited member,
    which is read as a function (or as [Object.prototype]) and is not
    nullish. *)
Definition registerImplementation (kind : BlockType) (sourceId : string)
    (impls : gmap string Implementation) : gmap string Implementation :=
  match impls !! sourceId with
  | Some _ => impls
  | None =>
      if inheritedName sourceId then impls
      else <[sourceId := {| impl_type := kind; impl_id := sourceId; impl_name := sourceId |}]>
             impls
  end.

Definition registerActionImplementation (sourceId : string) (d : Digraph) : Digraph :=
  setImplementations
    {| actions := registerImplementation action sourceId (actions (implementations d));
       actors := actors (implementations d);
       guards := guards (implementations d) |} d.

Definition registerActorImplementation (sourceId : string) (d : Digraph) : Digraph :=
  setImplementations
    {| actions := actions (implementations d);
       actors := registerImplementation actor sourceId (actors (implementations d));
       guards := guards (implementations d) |} d.

(** [registerActionBlocks(ctx, blocks, parentContainer)]; the container the
    block ids are pushed to is returned extended. *)
Fixpoint registerActionBlocks (blockList : list Block.t) (parentContainer : list string)
    : Extract (list string) :=
  match blockList with
  | [] => mret parentContainer
  | block :: rest =>
      _ ← modifyDigraph (fun d =>
            registerActionImplementation (Block.sourceId block)
              (setBlocks (<[Block.uniqueId block := block]> (blocks d)) d));
      registerActionBlocks rest (parentContainer ++ [Block.uniqueId block])
  end.

(** The reverse scan over the properties of an object transition. *)
Fixpoint extractEdgeProperties (rprops : list ObjProp) (seen : gset string)
    (edge : Edge.t) : Extract Edge.t :=
  match rprops with
  | [] => mret edge
  | PropertyAssignment name initializer :: rest =>
      key ← getPropertyKeyCtx name;
      match truthyOpt key with
      | None =>
          _ ← pushError transition_property_unhandled;
          extractEdgeProperties rest seen edge
      | Some k =>
          if bool_decide (k ∈ seen) then extractEdgeProperties rest seen edge
          else if String.eqb k "actions" then
            actionBlocks ← extractActionBlocks initializer (Edge.uniqueId edge);
            match everyDefined actionBlocks with
            | None =>
                _ ← pushError transition_property_unhandled;
                extractEdgeProperties rest ({[k]} ∪ seen) edge
            | Some bs =>
                container ← registerActionBlocks bs (Edge.actions (Edge.data edge));
                extractEdgeProperties rest ({[k]} ∪ seen)
                  (Edge.withData (Edge.setActions container) edge)
            end
          else if String.eqb k "description" then
            extractEdgeProperties rest ({[k]} ∪ seen)
              (Edge.withData (Edge.setDescription (isStringLiteralLike initializer)) edge)
          else extractEdgeProperties rest ({[k]} ∪ seen) edge
      end
  | _ :: rest =>
      _ ← pushError transition_property_unhandled;
      extractEdgeProperties rest seen edge
  end.

(** The callback [extractEdgeGroup] maps over the elements of a transition. *)
Definition extractEdgeElement (sourceId : string) (eventTypeData : EventTypeData)
    (element : Expr) : Extract (option (Edge.t * option (list string))) :=
  if isForbiddenTarget element then
    edge ← createEdge sourceId eventTypeData; mret (Some (edge, None))
  else match element with
  | EStringLiteral _ text | ENoSubstitutionTemplateLiteral text =>
      edge ← createEdge sourceId eventTypeData; mret (Some (edge, Some [text]))
  | EObjectLiteral properties =>
      targets ← getObjectTransitionTargets properties;
      match targets with
      | Some ts =>
          match everyDefined ts with
          | None => _ ← pushError transition_property_unhandled; mret None
          | Some defined =>
              edge ← createEdge sourceId eventTypeData;
              edge' ← extractEdgeProperties (reverse properties) ∅ edge;
              mret (Some (edge', Some defined))
          end
      | None =>
          edge ← createEdge sourceId eventTypeData;
          edge' ← extractEdgeProperties (reverse properties) ∅ edge;
          mret (Some (edge', None))
      end
  | _ => mret None
  end.

Fixpoint registerEdges (mapped : list (Edge.t * option (list string))) : Extract unit :=
  match mapped with
  | [] => mret tt
  | (edge, targets) :: rest =>
      _ ← modifyDigraph (fun d => setEdges (<[Edge.uniqueId edge := edge]> (edges d)) d);
      _ ← match targets with
          | Some ts => fun ctx =>
              (tt, setOriginalTargets (assocSet (Edge.uniqueId edge) ts (originalTargets ctx)) ctx)
          | None => mret tt
          end;
      registerEdges rest
  end.

Definition extractEdgeGroup (transition : Expr) (sourceId : string)
    (eventTypeData : EventTypeData) : Extract unit :=
  mapped ← mapMaybeArrayElements transition
              (fun element _ => extractEdgeElement sourceId eventTypeData element);
  match everyDefined mapped with
  | None => pushError transition_property_unhandled
  | Some defined => registerEdges defined
  end.

(** How the body of a loop in [extractState] ends: it goes on with the next
    property, or [extractState] returns [undefined] ([Return]); [Exhausted]
    is the embedding's fuel running out in a recursive call. *)
Inductive Flow := Next | Return | Exhausted.

(** [ctx.idMap[text] = node.uniqueId]. An assignment of a string to
    [__proto__] is ignored by the accessor of [Object.prototype] and creates
    no own property. *)
Definition declareId (text nodeId : string) (m : gmap string string) : gmap string string :=
  if bool_decide (text = "__proto__") && bool_decide (m !! text = None) then m
  else <[text := nodeId]> m.

Definition modifyTreeNode (id : string) (f : TreeNode.t → TreeNode.t) : Extract unit :=
  fun ctx => (tt, setTreeNodes (alter f id (treeNodes ctx)) ctx).

Section extractState.

(** The recursive call [extractState(ctx, ts, state.initializer, node.uniqueId)]. *)
Variable rec : option Expr → option string → Extract (Outcome (option string)).

(** [case 'on'], the loop over the transitions of the object literal. *)
Fixpoint extractOn (nodeId : string) (transitions : list ObjProp) : Extract Flow :=
  match transitions with
  | [] => mret Next
  | PropertyAssignment name initializer :: rest =>
      event ← getPropertyKeyCtx name;
      match truthyOpt event with
      | None => _ ← pushError transition_property_unhandled; mret Return
      | Some ev =>
          _ ← extractEdgeGroup initializer nodeId
                (if String.eqb ev "*" then wildcard else named ev);
          extractOn nodeId rest
      end
  | _ :: _ => _ ← pushError transition_property_unhandled; mret Return
  end.

(** [case 'states'], the loop over the child states. *)
Fixpoint extractStates (nodeId : string) (states : list ObjProp) : Extract Flow :=
  match states with
  | [] => mret Next
  | PropertyAssignment name initializer :: rest =>
      childKey ← getPropertyKeyCtx name;
      match truthyOpt childKey with
      | None => extractStates nodeId rest
      | Some k =>
          childTreeNode ← rec (Some initializer) (Some nodeId);
          match childTreeNode with
          | OutOfFuel => mret Exhausted
          | Ok (Some child) =>
              _ ← modifyTreeNode nodeId (TreeNode.setChild k child);
              extractStates nodeId rest
          | _ => extractStates nodeId rest
          end
      end
  | _ :: rest =>
      _ ← pushError state_property_unhandled;
      extractStates nodeId rest
  end.

(** [case 'meta'] *)
Fixpoint extractMeta (nodeId : string) (metas : list ObjProp) : Extract unit :=
  match metas with
  | [] => mret tt
  | PropertyAssignment name initializer :: rest =>
      metaKey ← getPropertyKeyCtx name;
      match truthyOpt metaKey with
      | None => extractMeta nodeId rest
      | Some k =>
          value ← getJsonValue initializer;
          _ ← modifyNodeData nodeId (fun d =>
                Node.setMetaEntries (Node.metaEntries d ++ [(k, value)]) d);
          extractMeta nodeId rest
      end
  | _ :: rest => extractMeta nodeId rest
  end.

(** The callback of [case 'invoke']. *)
Definition extractActorBlock (nodeId : string) (element : Expr) : Extract (option Block.t) :=
  if isUndefined element then mret None
  else match element with
  | EObjectLiteral properties =>
      srcProperty ← findPropertyCtx properties "src";
      match srcProperty with
      | None => mret None
      | Some src =>
          idProperty ← findPropertyCtx properties "id";
          sourceId ← match isStringLiteralLike (prop_initializer src) with
                     | Some text => mret text
                     | None => inlineSourceId
                     end;
          actorId ← match idProperty ≫= (fun p => isStringLiteralLike (prop_initializer p)) with
                    | Some text => mret text
                    | None => inlineSourceId
                    end;
          block ← createActorBlock sourceId nodeId actorId;
          mret (Some block)
      end
  | _ =>
      sourceId ← inlineSourceId;
      token ← uniqueId;
      block ← createActorBlock sourceId nodeId ("inline:" +:+ token +:+ "}");
      mret (Some block)
  end.

Fixpoint registerActorBlocks (nodeId : string) (blockList : list Block.t) : Extract unit :=
  match blockList with
  | [] => mret tt
  | block :: rest =>
      _ ← modifyNodeData nodeId (fun d =>
            Node.setInvoke (Node.invoke d ++ [Block.uniqueId block]) d);
      _ ← modifyDigraph (fun d =>
            registerActorImplementation (Block.sourceId block)
              (setBlocks (<[Block.uniqueId block := block]> (blocks d)) d));
      registerActorBlocks nodeId rest
  end.

(** [case 'entry': case 'exit':] with [node.data[key]] read and written
    through [get] and [set]. *)
Definition extractEntryExit (nodeId : string) (initializer : Expr)
    (get : Node.Data → list string) (set : list string → Node.Data → Node.Data)
    : Extract unit :=
  actionBlocks ← extractActionBlocks initializer nodeId;
  match everyDefined actionBlocks with
  | None => pushError state_property_unhandled
  | Some bs =>
      data ← getNodeData nodeId;
      container ← registerActionBlocks bs (from_option get [] data);
      modifyNodeData nodeId (set container)
  end.

(** The [switch (key)] of [extractState] for one property assignment. *)
Definition extractStateProperty (nodeId : string) (parentId : option string)
    (key : string) (initializer : Expr) : Extract Flow :=
  if String.eqb key "id" then
    match isStringLiteralLike initializer with
    | Some text =>
        fun ctx => (Next, setIdToNodeIdMap (declareId text nodeId (idToNodeIdMap ctx)) ctx)
    | None => mret Next
    end
  else if String.eqb key "context" then
    match parentId with
    | Some _ => _ ← pushError state_property_invalid; mret Next
    | None =>
        match initializer with
        | EObjectLiteral properties =>
            obj ← getJsonObject properties;
            match obj with
            | Some o => _ ← modifyDigraph (setContext (ContextObject o)); mret Next
            | None => mret Next
            end
        | EFunctionExpression text _ | EArrowFunction text _ =>
            _ ← modifyDigraph (setContext (ContextExpression ("{{" +:+ text +:+ "}}")));
            mret Next
        | _ => _ ← pushError state_property_unhandled; mret Next
        end
    end
  else if String.eqb key "always" then
    _ ← extractEdgeGroup initializer nodeId always; mret Next
  else if String.eqb key "on" then
    match initializer with
    | EObjectLiteral transitions => extractOn nodeId transitions
    | _ => _ ← pushError state_property_unhandled; mret Next
    end
  else if String.eqb key "states" then
    match initializer with
    | EObjectLiteral states => extractStates nodeId states
    | _ => _ ← pushError state_unhandled; mret Next
    end
  else if String.eqb key "initial" then
    match isStringLiteralLike initializer with
    | Some text => _ ← modifyNodeData nodeId (Node.setInitial (Some text)); mret Next
    | None =>
        if isUndefined initializer then mret Next
        else _ ← pushError state_property_unhandled; mret Next
    end
  else if String.eqb key "type" then
    match isStringLiteralLike initializer with
    | Some text =>
        if String.eqb text "history" then
          _ ← modifyNodeData nodeId (Node.setType history); mret Next
        else if String.eqb text "parallel" then
          _ ← modifyNodeData nodeId (Node.setType parallel); mret Next
        else if String.eqb text "final" then
          _ ← modifyNodeData nodeId (Node.setType final); mret Next
        else if String.eqb text "atomic" || String.eqb text "compound" then mret Next
        else _ ← pushError state_type_invalid; mret Next
    | None =>
        if isUndefined initializer then mret Next
        else _ ← pushError state_property_unhandled; mret Next
    end
  else if String.eqb key "history" then
    match isStringLiteralLike initializer with
    | Some text =>
        if String.eqb text "shallow" then
          _ ← modifyNodeData nodeId (Node.setHistory (Some shallow)); mret Next
        else if String.eqb text "deep" then
          _ ← modifyNodeData nodeId (Node.setHistory (Some deep)); mret Next
        else
          _ ← pushError state_history_invalid;
          _ ← pushError state_property_unhandled;
          mret Next
    | None =>
        match initializer with
        | ETrueKeyword => _ ← modifyNodeData nodeId (Node.setHistory (Some deep)); mret Next
        | EFalseKeyword => _ ← modifyNodeData nodeId (Node.setHistory (Some shallow)); mret Next
        | _ =>
            if isUndefined initializer then mret Next
            else _ ← pushError state_property_unhandled; mret Next
        end
    end
  else if String.eqb key "description" then
    match isStringLiteralLike initializer with
    | Some text => _ ← modifyNodeData nodeId (Node.setDescription (Some text)); mret Next
    | None =>
        if isUndefined initializer then mret Next
        else _ ← pushError state_property_unhandled; mret Next
    end
  else if String.eqb key "meta" then
    match initializer with
    | EObjectLiteral metas => _ ← extractMeta nodeId metas; mret Next
    | _ =>
        if isUndefined initializer then mret Next
        else _ ← pushError state_property_unhandled; mret Next
    end
  else if String.eqb key "entry" then
    _ ← extractEntryExit nodeId initializer Node.entry Node.setEntry; mret Next
  else if String.eqb key "exit" then
    _ ← extractEntryExit nodeId initializer Node.exit Node.setExit; mret Next
  else if String.eqb key "invoke" then
    actorBlocks ← mapMaybeArrayElements initializer
                    (fun element _ => extractActorBlock nodeId element);
    match everyDefined actorBlocks with
    | None => _ ← pushError state_property_unhandled; mret Next
    | Some bs => _ ← registerActorBlocks nodeId bs; mret Next
    end
  else mret Next.

(** The loop of [extractState] over [state.properties], last to first. *)
Fixpoint extractStateProperties (nodeId : string) (parentId : option string)
    (rprops : list ObjProp) (seen : gset string) : Extract Flow :=
  match rprops with
  | [] => mret Next
  | PropertyAssignment name initializer :: rest =>
      key ← getPropertyKeyCtx name;
      match truthyOpt key with
      | None =>
          _ ← pushError state_property_unhandled;
          extractStateProperties nodeId parentId rest seen
      | Some k =>
          if bool_decide (k ∈ seen) then extractStateProperties nodeId parentId rest seen
          else
            flow ← extractStateProperty nodeId parentId k initializer;
            match flow with
            | Next => extractStateProperties nodeId parentId rest ({[k]} ∪ seen)
            | _ => mret flow
            end
      end
  | _ :: rest =>
      _ ← pushError state_property_unhandled;
      extractStateProperties nodeId parentId rest seen
  end.

Definition defaultNodeData : Node.Data :=
  {| Node.key := None; Node.initial := None; Node.type := normal;
     Node.history := None; Node.metaEntries := []; Node.entry := [];
     Node.exit := []; Node.invoke := []; Node.tags := [];
     Node.description := None |}.

Definition extractState_body (state : option Expr) (parentId : option string)
    : Extract (Outcome (option string)) :=
  nodeId ← uniqueId;
  _ ← modifyDigraph (fun d =>
        setNodes (<[nodeId := {| Node.uniqueId := nodeId; Node.parentId := parentId;
                                 Node.data := defaultNodeData |}]> (nodes d)) d);
  _ ← (fun ctx =>
        (tt, setTreeNodes (<[nodeId := {| TreeNode.uniqueId := nodeId;
                                          TreeNode.parentId := parentId;
                                          TreeNode.children := ∅ |}]> (treeNodes ctx)) ctx));
  match state with
  | None => mret (Ok (Some nodeId))
  | Some (EObjectLiteral properties) =>
      flow ← extractStateProperties nodeId parentId (reverse properties) ∅;
      mret (match flow with
            | Next => Ok (Some nodeId)
            | Return => Ok None
            | Exhausted => OutOfFuel
            end)
  | Some _ =>
      _ ← pushError state_unhandled;
      mret (Ok (Some nodeId))
  end.

End extractState.

(** [extractState(ctx, ts, state, parentId)]: the tree node's id, or
    [undefined]. The fuel bounds the nesting depth of [states]. *)
Fixpoint extractState (fuel : nat) (state : option Expr) (parentId : option string)
    : Extract (Outcome (option string)) :=
  match fuel with
  | 0 => mret OutOfFuel
  | S fuel' => extractState_body (extractState fuel') state parentId
  end.

(** The nesting depth of object literals along property initializers; it
    bounds the recursion of [extractState]. *)
Fixpoint exprDepth (e : Expr) : nat :=
  match e with
  | EObjectLiteral properties =>
      S ((fix go (ps : list ObjProp) : nat :=
            match ps with
            | [] => 0
            | PropertyAssignment _ initializer :: rest =>
                Nat.max (exprDepth initializer) (go rest)
            | _ :: rest => go rest
            end) properties)
  | _ => 0
  end.

(** ** index.ts: locating the calls *)

Definition isCreateMachineCallee (expression : Expr) : bool :=
  match expression with
  | EIdentifier text => String.eqb text "createMachine"
  | EPropertyAccess _ (MIdentifier text) => String.eqb text "createMachine"
  | _ => false
  end.

(** The [visitor] of [findCreateMachineCalls]: a type node is skipped with
    everything below it, a matching call is pushed, and the children are
    visited in order. *)
Fixpoint visitor (node : Expr) : list CallExpression :=
  match node with
  | ETypeNode _ => []
  | ECall expression arguments =>
      (if isCreateMachineCallee expression
       then [{| call_expression := expression; call_arguments := arguments |}]
       else [])
      ++ visitor expression ++ flat_map visitor arguments
  | EArrayLiteral elements => flat_map visitor elements
  | EObjectLiteral properties => flat_map visitorProperty properties
  | EFunctionExpression _ children => flat_map visitor children
  | EArrowFunction _ children => flat_map visitor children
  | EOther children => flat_map visitor children
  | EPropertyAccess expression _ => visitor expression
  | _ => []
  end
with visitorProperty (prop : ObjProp) : list CallExpression :=
  match prop with
  | PropertyAssignment name initializer => visitorName name ++ visitor initializer
  | ShorthandPropertyAssignment _ => []
  | SpreadAssignment expression => visitor expression
  | MethodDeclaration name children => visitorName name ++ flat_map visitor children
  | GetAccessorDeclaration name children => visitorName name ++ flat_map visitor children
  | SetAccessorDeclaration name children => visitorName name ++ flat_map visitor children
  end
with visitorName (name : PropName) : list CallExpression :=
  match name with
  | NComputedPropertyName expression => visitor expression
  | _ => []
  end.

Definition visitorStatement (statement : Statement) : list CallExpression :=
  match statement with
  | ImportDeclaration moduleSpecifier => visitor moduleSpecifier
  | ExportDeclaration (Some moduleSpecifier) => visitor moduleSpecifier
  | ExportDeclaration None => []
  | OtherStatement children => flat_map visitor children
  end.

Definition findCreateMachineCalls (sourceFile : SourceFile) : list CallExpression :=
  flat_map visitorStatement (statements sourceFile).

(** ** index.ts: the reference resolver *)

Definition DEFAULT_ROOT_ID : string := "(machine)".

(** The values that the resolver may hold in [resolvedOrigin], [marker] and
    [resolvedTargetId]: besides tree nodes and strings, what a read of a
    plain object gives under a name that the object does not have itself. *)
Inductive Value :=
  | VUndefined
  | VString (s : string)
  | VTreeNode (node : TreeNode.t)
  | VChildren (node : TreeNode.t)  (* the [children] table of the tree node *)
  | VInherited (name : string).    (* the member [name] of [Object.prototype] *)

(** [!value] is false. *)
Definition truthyValue (v : Value) : bool :=
  match v with
  | VUndefined => false
  | VString s => truthy s
  | _ => true
  end.

Definition inheritedMember (key : string) : Value :=
  if inheritedName key then VInherited key else VUndefined.

(** [ctx.treeNodes[id]], and the tree node behind a reference. *)
Definition treeNodeRef (ctx : ExtractionContext) (id : string) : Value :=
  match treeNodes ctx !! id with
  | Some node => VTreeNode node
  | None => VUndefined
  end.

(** [node[key]] for a tree node, which is a plain object with the own
    properties [uniqueId], [parentId] and [children]. *)
Definition treeNodeField (node : TreeNode.t) (key : string) : Value :=
  if String.eqb key "uniqueId" then VString (TreeNode.uniqueId node)
  else if String.eqb key "parentId" then
    match TreeNode.parentId node with
    | Some parentId => VString parentId
    | None => VUndefined
    end
  else if String.eqb key "children" then VChildren node
  else inheritedMember key.

(** [node.children[segment]]: an own property of the table is a child's tree
    node, and so is what the table gives for [__proto__] once a child keyed
    [__proto__] has become its prototype; any other name is looked up along
    the prototype chain, which is that tree node followed by
    [Object.prototype], or [Object.prototype] alone. *)
Definition childNode (ctx : ExtractionContext) (node : TreeNode.t) (segment : string)
    : Value :=
  match TreeNode.children node !! segment with
  | Some id => treeNodeRef ctx id
  | None =>
      match TreeNode.children node !! "__proto__" ≫= (fun id => treeNodes ctx !! id) with
      | Some prototype => treeNodeField prototype segment
      | None => inheritedMember segment
      end
  end.

(** The key under which [ctx.treeNodes[originId]] is read, for
    [originId = ctx.idToNodeIdMap[declared]]: a declared id gives the node id
    registered for it, the name of an inherited member gives that member,
    and any other name gives [undefined]. *)
Definition originKey (ctx : ExtractionContext) (declared : string) : string :=
  match idToNodeIdMap ctx !! declared with
  | Some originId => originId
  | None => if inheritedName declared then memberKey declared else "undefined"
  end.

Definition resolvePathOrigin (ctx : ExtractionContext) (sourceId : string)
    (origin : option string) : Outcome Value :=
  match origin with
  | None => Ok VUndefined
  | Some EmptyString => Ok (treeNodeRef ctx sourceId)
  | Some (String c rest as o) =>
      if Ascii.eqb c hash then Ok (treeNodeRef ctx (originKey ctx rest))
      else
        match treeNodes ctx !! sourceId with
        | None => Throw TypeError
        | Some source =>
            match truthyOpt (TreeNode.parentId source) with
            | None => Ok VUndefined
            | Some parentId =>
                match treeNodes ctx !! parentId with
                | None => Throw TypeError
                | Some parent => Ok (childNode ctx parent o)
                end
            end
        end
  end.

(** [marker.children[segment]]. Only a tree node and, through a prototype, a
    [children] table have a [children] property to index; on any other
    marker [marker.children] is [undefined] and indexing it throws. The
    [children] property of a table is a child keyed [children] (a tree node,
    which is then the object that is indexed) or the table of the prototype. *)
Definition nextMarker (ctx : ExtractionContext) (marker : Value) (segment : string)
    : Outcome Value :=
  match marker with
  | VTreeNode node => Ok (childNode ctx node segment)
  | VChildren node =>
      match childNode ctx node "children" with
      | VTreeNode child => Ok (treeNodeField child segment)
      | VChildren prototype => Ok (childNode ctx prototype segment)
      | _ => Throw TypeError
      end
  | _ => Throw TypeError
  end.

(** The [while ((segment = path.shift()))] loop: it ends at the end of the
    path or at an empty segment, and leaves with [None] when the marker
    becomes falsy. *)
Fixpoint walkPath (ctx : ExtractionContext) (marker : Value) (path : list string)
    : Outcome (option Value) :=
  match path with
  | [] => Ok (Some marker)
  | segment :: rest =>
      if truthy segment then
        next ← nextMarker ctx marker segment;
        if truthyValue next then walkPath ctx next rest else Ok None
      else Ok (Some marker)
  end.

(** [marker.uniqueId] *)
Definition markerId (ctx : ExtractionContext) (marker : Value) : Value :=
  match marker with
  | VTreeNode node => VString (TreeNode.uniqueId node)
  | VChildren node => childNode ctx node "uniqueId"
  | _ => VUndefined
  end.

(** The result of [resolveTargetId] without its error reporting: [None]
    where it records [transition_target_unresolved], and otherwise the value
    of [marker.uniqueId]. *)
Definition resolveTarget (ctx : ExtractionContext) (sourceId target : string)
    : Outcome (option Value) :=
  let parts := split dot target in
  resolvedOrigin ← resolvePathOrigin ctx sourceId (head parts);
  if truthyValue resolvedOrigin then
    marker ← walkPath ctx resolvedOrigin (tail parts);
    Ok (match marker with
        | Some m => Some (markerId ctx m)
        | None => None
        end)
  else Ok None.

Definition resolveTargetId (sourceId target : string) (ctx : ExtractionContext)
    : Outcome (Value * ExtractionContext) :=
  resolved ← resolveTarget ctx sourceId target;
  match resolved with
  | None => Ok (VUndefined, setErrors (errors ctx ++ [transition_target_unresolved]) ctx)
  | Some id => Ok (id, ctx)
  end.

(** The inner loop of [resolveTargets] over the raw targets of one edge. A
    falsy [resolvedTargetId] is reported; a string is pushed to the targets
    of the edge; a tree node, which [marker.uniqueId] gives when the marker
    is a [children] table with a child keyed [uniqueId], is pushed as well,
    where the edge is declared to hold node ids. *)
Fixpoint resolveEdgeTargets (edgeId : string) (edgeTargets : list string)
    (ctx : ExtractionContext) : Outcome ExtractionContext :=
  match edgeTargets with
  | [] => Ok ctx
  | edgeTarget :: rest =>
      match edges (ctx_digraph ctx) !! edgeId with
      | None => Throw TypeError
      | Some edge =>
          '(resolvedTargetId, ctx1) ← resolveTargetId (Edge.source edge) edgeTarget ctx;
          if truthyValue resolvedTargetId then
            match resolvedTargetId with
            | VString id =>
                resolveEdgeTargets edgeId rest
                  (setDigraph (setEdges (alter (Edge.pushTarget id) edgeId
                                           (edges (ctx_digraph ctx1))) (ctx_digraph ctx1)) ctx1)
            | _ => IllTyped
            end
          else
            resolveEdgeTargets edgeId rest
              (setErrors (errors ctx1 ++ [transition_property_unhandled]) ctx1)
      end
  end.

Fixpoint resolveTargets_entries (entries : list (string * list string))
    (ctx : ExtractionContext) : Outcome ExtractionContext :=
  match entries with
  | [] => Ok ctx
  | (edgeId, edgeTargets) :: rest =>
      ctx1 ← resolveEdgeTargets edgeId edgeTargets ctx;
      resolveTargets_entries rest ctx1
  end.

Definition resolveTargets (ctx : ExtractionContext) : Outcome ExtractionContext :=
  resolveTargets_entries (originalTargets ctx) ctx.

(** ** index.ts: extraction of one machine *)

Definition stateDepth (state : option Expr) : nat :=
  match state with Some e => exprDepth e | None => 0 end.

Definition extractMachineConfig (createMachineCall : CallExpression)
    (ctx : ExtractionContext)
    : Outcome (option ExtractorDigraphDef * list ExtractionError * ExtractionContext) :=
  let rootState := head (call_arguments createMachineCall) in
  match extractState (S (stateDepth rootState)) rootState None ctx with
  | (OutOfFuel, _) => OutOfFuel
  | (IllTyped, _) => IllTyped
  | (Throw msg, _) => Throw msg
  | (Ok None, ctx1) => Ok (None, errors ctx1, ctx1)
  | (Ok (Some rootNode), ctx1) =>
      ctx2 ← resolveTargets ctx1;
      Ok (Some {| root := rootNode; digraph := ctx_digraph ctx2 |}, errors ctx2, ctx2)
  end.

(** Modelled from the spec: [invert] of the utility module is not part of the
    sources; the machine state keeps "the inverse id-map (node id → declared
    id string)". *)
Definition invert (m : gmap string string) : gmap string string :=
  list_to_map (prod_swap <$> map_to_list m).

Definition emptyDigraph : Digraph :=
  {| nodes := ∅; edges := ∅; edgeRefs := []; blocks := ∅;
     implementations := {| actions := ∅; actors := ∅; guards := ∅ |};
     context := ContextObject [] |}.

Definition freshContext (supply : nat) : ExtractionContext :=
  {| errors := []; ctx_digraph := emptyDigraph; treeNodes := ∅;
     idToNodeIdMap := ∅; originalTargets := []; currentAstPath := [];
     astPaths := {| astNodes := ∅; astEdges := ∅ |}; idSupply := supply |}.

(** [extractProjectMachine]; the supply of unique ids goes in and comes out. *)
Definition extractProjectMachine (call : CallExpression) (supply : nat)
    : Outcome (ProjectMachineState * nat) :=
  '(def, errs, ctx) ← extractMachineConfig call (freshContext supply);
  Ok ({| pms_digraph := def; pms_errors := errs; pms_astPaths := astPaths ctx;
         idMap := invert (idToNodeIdMap ctx) |}, idSupply ctx).

(** ** index.ts: the target-descriptor synthesizer *)

Definition AssertionFailed : string := "Assertion failed".
Definition Unreachable : string := "Unreachable".
Definition NotImplemented : string := "Not implemented".
Definition FileNotFound : string := "File not found".
Definition MachineNotFound : string := "Machine not found".

Fixpoint getPathNodes_climb (fuel : nat) (nodeMap : gmap string Node.t) (current : Node.t)
    : Outcome (list Node.t) :=
  match fuel with
  | 0 => OutOfFuel
  | S fuel' =>
      match truthyOpt (Node.parentId current) with
      | None => Ok [current]
      | Some parentId =>
          match nodeMap !! parentId with
          | None => Throw TypeError
          | Some parent =>
              rest ← getPathNodes_climb fuel' nodeMap parent;
              Ok (current :: rest)
          end
      end
  end.

(** [getPathNodes]: the node, its parent, ..., the root. A chain without a
    repetition has at most [size nodeMap + 1] nodes (its first node need not
    be in the map); a longer climb is a cycle, on which the loop does not end. *)
Definition getPathNodes (nodeMap : gmap string Node.t) (node : Node.t)
    : Outcome (list Node.t) :=
  getPathNodes_climb (S (size nodeMap)) nodeMap node.

(** [n.data.key] read as a string; a node without key prints as the empty
    string, as [join] prints [undefined]. *)
Definition keyText (n : Node.t) : string := default "" (Node.key (Node.data n)).

(** Object identity of nodes of one digraph, decided on their unique ids. *)
Definition sameNode (a b : Node.t) : bool :=
  bool_decide (Node.uniqueId a = Node.uniqueId b).

Definition sameNodeOpt (a b : option Node.t) : bool :=
  match a, b with
  | Some x, Some y => sameNode x y
  | None, None => true
  | _, _ => false
  end.

(** [arr.slice(0, -n)]; [slice(0, -0)] is empty. *)
Definition sliceBeforeLast {A} (n : nat) (arr : list A) : list A :=
  match n with
  | 0 => []
  | S _ => take (length arr - n) arr
  end.

Definition declaredId (pms : ProjectMachineState) (nodeId : string) : option string :=
  truthyOpt (idMap pms !! nodeId).

Definition keysDownwards (pathNodes : list Node.t) : list string :=
  reverse (keyText <$> pathNodes).

(** The final loop of [getBestTargetDescriptor], climbing from the target to
    the first node with a declared id, or to the root. *)
Fixpoint climbToDeclaredId (pms : ProjectMachineState) (nodeMap : gmap string Node.t)
    (targetPathNodes remaining : list Node.t) (i : nat) (current : option Node.t)
    : Outcome string :=
  match remaining with
  | [] => Throw Unreachable
  | _ :: rest =>
      match current with
      | None => Throw TypeError
      | Some cur =>
          let id := declaredId pms (Node.uniqueId cur) in
          match id, truthyOpt (Node.parentId cur) with
          | None, Some parentId =>
              climbToDeclaredId pms nodeMap targetPathNodes rest (S i) (nodeMap !! parentId)
          | _, _ =>
              Ok (join "." (("#" +:+ default DEFAULT_ROOT_ID id)
                            :: keysDownwards (take i targetPathNodes)))
          end
      end
  end.

Definition getBestTargetDescriptor (sourceId targetId : string)
    (pms : ProjectMachineState) : Outcome string :=
  match pms_digraph pms with
  | None => Throw AssertionFailed
  | Some def =>
      let nodeMap := nodes (digraph def) in
      match nodeMap !! targetId with
      | None => Throw TypeError
      | Some target =>
          match truthyOpt (Node.parentId target) with
          | None => Ok ("#" +:+ default DEFAULT_ROOT_ID (declaredId pms targetId))
          | Some _ =>
              if bool_decide (sourceId = targetId) then Ok (keyText target)
              else
                targetPathNodes ← getPathNodes nodeMap target;
                match nodeMap !! sourceId with
                | None => Throw TypeError
                | Some source =>
                    sourcePathNodes ← getPathNodes nodeMap source;
                    let commonNode :=
                      List.find (fun ancestor => existsb (sameNode ancestor) sourcePathNodes)
                        targetPathNodes in
                    if sameNodeOpt commonNode (Some source) then
                      Ok ("." +:+ join "." (keysDownwards
                            (sliceBeforeLast (length sourcePathNodes) targetPathNodes)))
                    else if match truthyOpt (Node.parentId source) with
                            | Some parentId => sameNodeOpt commonNode (nodeMap !! parentId)
                            | None => false
                            end then
                      Ok (join "." (keysDownwards
                            (sliceBeforeLast (length sourcePathNodes - 1) targetPathNodes)))
                    else
                      match declaredId pms targetId with
                      | Some id => Ok ("#" +:+ id)
                      | None =>
                          climbToDeclaredId pms nodeMap targetPathNodes targetPathNodes 0
                            (Some target)
                      end
                end
          end
      end
  end.

(** ** index.ts: synthesis of a transition *)

(** The elements built by [c] of the code-change module, one constructor per
    builder that index.ts calls. *)
Inductive InsertionElement :=
  | c_undefined
  | c_string (text : string) (allowMultiline : bool)
  | c_boolean (value : bool)
  | c_array (elements : list InsertionElement)
  | c_object (properties : list InsertionElement)
  | c_property (name : string) (value : InsertionElement).

Fixpoint mapOutcome {A B} (f : A → Outcome B) (l : list A) : Outcome (list B) :=
  match l with
  | [] => Ok []
  | x :: rest =>
      y ← f x;
      ys ← mapOutcome f rest;
      Ok (y :: ys)
  end.

Definition transitionTarget (edge : Edge.t) (pms : ProjectMachineState)
    : Outcome InsertionElement :=
  match Edge.targets edge with
  | [] => Ok c_undefined
  | [target] =>
      descriptor ← getBestTargetDescriptor (Edge.source edge) target pms;
      Ok (c_string descriptor false)
  | targets =>
      descriptors ← mapOutcome
        (fun t => d ← getBestTargetDescriptor (Edge.source edge) t pms;
                  Ok (c_string d false)) targets;
      Ok (c_array descriptors)
  end.

Definition transitionGuard (edge : Edge.t) (pms : ProjectMachineState)
    : Outcome (list (string * InsertionElement)) :=
  match truthyOpt (Edge.guard (Edge.data edge)) with
  | None => Ok []
  | Some guardId =>
      match pms_digraph pms ≫= (fun def => blocks (digraph def) !! guardId) with
      | None => Throw TypeError
      | Some block => Ok [("guard", c_string (Block.sourceId block) false)]
      end
  end.

Definition transitionReenter (edge : Edge.t) : list (string * InsertionElement) :=
  if Edge.internal (Edge.data edge) then [] else [("reenter", c_boolean true)].

Definition transitionDescription (edge : Edge.t) : list (string * InsertionElement) :=
  match truthyOpt (Edge.description (Edge.data edge)) with
  | None => []
  | Some text => [("description", c_string text true)]
  end.

Definition toTransitionElement (edge : Edge.t) (pms : ProjectMachineState)
    : Outcome InsertionElement :=
  target ← transitionTarget edge pms;
  guard ← transitionGuard edge pms;
  let transition :=
    [("target", target)] ++ guard ++ transitionReenter edge ++ transitionDescription edge in
  if bool_decide (length transition = 1) then Ok target
  else Ok (c_object ((fun kv => c_property kv.1 kv.2) <$> transition)).

Inductive PathSegment :=
  | SegmentName (name : string)
  | SegmentIndex (index : Z).

(** [arr.indexOf(x)] *)
Fixpoint indexOf (x : string) (arr : list string) : Z :=
  match arr with
  | [] => (-1)%Z
  | y :: rest =>
      if bool_decide (y = x) then 0%Z
      else let i := indexOf x rest in if (i <? 0)%Z then (-1)%Z else (i + 1)%Z
  end.

Definition getTransitionInsertionPath (edge : Edge.t) (pms : ProjectMachineState)
    : Outcome (list PathSegment) :=
  match pms_digraph pms with
  | None => Throw TypeError
  | Some def =>
      let source := nodes (digraph def) !! Edge.source edge in
      let invokeIndex (invocationId : string) (last : string) :=
        match source with
        | None => Throw TypeError
        | Some s =>
            Ok [SegmentName "invoke";
                SegmentIndex (indexOf invocationId (Node.invoke (Node.data s)));
                SegmentName last]
        end in
      match Edge.eventTypeData (Edge.data edge) with
      | after => Throw NotImplemented
      | named eventType => Ok [SegmentName "on"; SegmentName eventType]
      | invocation_done invocationId => invokeIndex invocationId "onDone"
      | invocation_error invocationId => invokeIndex invocationId "onError"
      | state_done => Ok [SegmentName "onDone"]
      | always => Ok [SegmentName "always"]
      | wildcard => Throw NotImplemented
      | init => Throw NotImplemented
      end
  end.

(** ** index.ts: patches and the code changes they record *)

Inductive PatchOp := add | remove | replace.

(** The [value] of a patch, as far as [applyPatches] inspects it. *)
Inductive PatchValue :=
  | ValueUndefined
  | ValueNull
  | ValueBoolean (b : bool)
  | ValueString (s : string)
  | ValueNode (n : Node.t)
  | ValueEdge (e : Edge.t).

Record Patch := {
  op : PatchOp;
  path : list string;
  value : PatchValue;
}.

Inductive InsertionPriority := States | Initial | StateType | History.

(** The calls recorded on the [codeChanges] object, one constructor per
    method that index.ts calls. A syntax node is referred to by the path of
    its object literal from the configuration root, and a property by that
    path and the property found in the literal. [codeChanges.getTextEdits()]
    derives the text edits from this list. *)
Inductive CodeChange :=
  | insertAtOptionalObjectPath (obj : AstPath) (objectPath : list PathSegment)
      (element : InsertionElement) (priority : option InsertionPriority)
  | replacePropertyName (obj : AstPath) (prop : PropertyRef) (name : PatchValue)
  | removeProperty (obj : AstPath) (prop : PropertyRef)
  | replaceRange (obj : AstPath) (initializerOf : PropertyRef) (element : InsertionElement)
  | insertPropertyBeforeProperty (obj : AstPath) (prop : PropertyRef) (name : string)
      (element : InsertionElement)
  | insertPropertyIntoObject (obj : AstPath) (name : string) (element : InsertionElement)
      (priority : option InsertionPriority).

(** [c.string(patch.value)]: the builder is typed for strings; another value
    is modelled as a [TypeError]. *)
Definition stringElement (v : PatchValue) (allowMultiline : bool) : Outcome InsertionElement :=
  match v with
  | ValueString s => Ok (c_string s allowMultiline)
  | _ => Throw TypeError
  end.

(** [!patch.value] *)
Definition falsy (v : PatchValue) : bool :=
  match v with
  | ValueUndefined | ValueNull => true
  | ValueBoolean b => negb b
  | ValueString s => negb (truthy s)
  | ValueNode _ | ValueEdge _ => false
  end.

(** [findNodeByAstPath] on a recorded locator followed by
    [assert(ts.isObjectLiteralExpression(node))]. *)
Definition findObjectLiteral (call : CallExpression) (astPath : option AstPath)
    : Outcome (AstPath * list ObjProp) :=
  match astPath with
  | None => Throw TypeError
  | Some p =>
      node ← findNodeByAstPath call p;
      match node with
      | Some (EObjectLiteral properties) => Ok (p, properties)
      | Some _ => Throw AssertionFailed
      | None => Throw TypeError
      end
  end.

(** The shared shape of the [type], [history] and [description] branches once
    the value is known not to be the default: replace the initializer of an
    existing property, or insert the property. *)
Definition replaceOrInsert (obj : AstPath) (existing : option PropertyRef)
    (name : string) (element : InsertionElement) (priority : option InsertionPriority)
    : list CodeChange :=
  match existing with
  | Some prop => [replaceRange obj prop element]
  | None => [insertPropertyIntoObject obj name element priority]
  end.

Definition removeIfPresent (obj : AstPath) (existing : option PropertyRef) : list CodeChange :=
  match existing with
  | Some prop => [removeProperty obj prop]
  | None => []
  end.

Definition applyReplaceNode (call : CallExpression) (currentState : ProjectMachineState)
    (nodeId : string) (patch : Patch) : Outcome (list CodeChange) :=
  let astPath := astNodes (pms_astPaths currentState) !! nodeId in
  match path patch !! 2, path patch !! 3 with
  | Some "data", Some "key" =>
      match astPath with
      | None => Throw TypeError
      | Some p =>
          _ ← findNodeByAstPath call p;
          parentNode ← findObjectLiteral call (Some (removelast p));
          match last p with
          | None => Throw TypeError
          | Some index =>
              match parentNode.2 !! index with
              | Some (PropertyAssignment name initializer) =>
                  Ok [replacePropertyName parentNode.1
                        {| prop_index := index; prop_name := name;
                           prop_initializer := initializer |} (value patch)]
              | _ => Throw TypeError
              end
          end
      end
  | Some "data", Some "initial" =>
      '(obj, node) ← findObjectLiteral call astPath;
      initialProp ← findPropertyNoCtx node "initial";
      match value patch with
      | ValueUndefined => Ok (removeIfPresent obj initialProp)
      | v =>
          match initialProp with
          | Some prop => element ← stringElement v false; Ok [replaceRange obj prop element]
          | None =>
              statesProp ← findPropertyNoCtx node "states";
              element ← stringElement v false;
              match statesProp with
              | Some prop => Ok [insertPropertyBeforeProperty obj prop "initial" element]
              | None => Ok [insertPropertyIntoObject obj "initial" element (Some Initial)]
              end
          end
      end
  | Some "data", Some "type" =>
      '(obj, node) ← findObjectLiteral call astPath;
      typeProp ← findPropertyNoCtx node "type";
      match value patch with
      | ValueString "normal" => Ok (removeIfPresent obj typeProp)
      | v =>
          element ← stringElement v false;
          Ok (replaceOrInsert obj typeProp "type" element (Some StateType))
      end
  | Some "data", Some "history" =>
      '(obj, node) ← findObjectLiteral call astPath;
      historyProp ← findPropertyNoCtx node "history";
      match value patch with
      | ValueUndefined | ValueString "shallow" => Ok (removeIfPresent obj historyProp)
      | v =>
          element ← stringElement v false;
          Ok (replaceOrInsert obj historyProp "history" element (Some History))
      end
  | Some "data", Some "description" =>
      '(obj, node) ← findObjectLiteral call astPath;
      descriptionProp ← findPropertyNoCtx node "description";
      if falsy (value patch) then Ok (removeIfPresent obj descriptionProp)
      else
        element ← stringElement (value patch) true;
        Ok (replaceOrInsert obj descriptionProp "description" element None)
  | _, _ => Ok []
  end.

(** The body of the loop of [applyPatches] for one patch. *)
Definition applyPatch (call : CallExpression) (currentState : ProjectMachineState)
    (patch : Patch) : Outcome (list CodeChange) :=
  match op patch with
  | add =>
      match path patch !! 0 with
      | Some "nodes" =>
          match value patch with
          | ValueNode newNode =>
              '(obj, _) ← findObjectLiteral call
                 (Node.parentId newNode ≫= (fun parentId =>
                    astNodes (pms_astPaths currentState) !! parentId));
              Ok [insertAtOptionalObjectPath obj
                    [SegmentName "states"; SegmentName (keyText newNode)]
                    (c_object []) (Some States)]
          | _ => Throw TypeError
          end
      | Some "edges" =>
          match value patch with
          | ValueEdge newEdge =>
              '(obj, _) ← findObjectLiteral call
                 (astNodes (pms_astPaths currentState) !! Edge.source newEdge);
              insertionPath ← getTransitionInsertionPath newEdge currentState;
              element ← toTransitionElement newEdge currentState;
              Ok [insertAtOptionalObjectPath obj insertionPath element None]
          | _ => Throw TypeError
          end
      | _ => Ok []
      end
  | remove => Ok []
  | replace =>
      match path patch !! 0 with
      | Some "nodes" =>
          match path patch !! 1 with
          | Some nodeId => applyReplaceNode call currentState nodeId patch
          | None =>
              match path patch !! 2, path patch !! 3 with
              | Some "data", Some ("key" | "initial" | "type" | "history" | "description") =>
                  Throw TypeError
              | _, _ => Ok []
              end
          end
      | _ => Ok []
      end
  end.

Fixpoint applyPatchList (call : CallExpression) (currentState : ProjectMachineState)
    (patches : list Patch) : Outcome (list CodeChange) :=
  match patches with
  | [] => Ok []
  | patch :: rest =>
      changes ← applyPatch call currentState patch;
      more ← applyPatchList call currentState rest;
      Ok (changes ++ more)
  end.

(** ** index.ts: machines and the project *)

(** The object returned by [createProjectMachine], with the [state] variable
    of its closure. *)
Record ProjectMachine := {
  fileName : string;
  machineIndex : nat;
  state : option ProjectMachineState;
}.

Definition findOwnCreateMachineCall (program : TsProgram) (machine : ProjectMachine)
    : Outcome (SourceFile * CallExpression) :=
  match program !! fileName machine with
  | None => Throw FileNotFound
  | Some sourceFile =>
      match findCreateMachineCalls sourceFile !! machineIndex machine with
      | None => Throw MachineNotFound
      | Some createMachineCall => Ok (sourceFile, createMachineCall)
      end
  end.

Definition getDigraph (program : TsProgram) (supply : nat) (machine : ProjectMachine)
    : Outcome (ProjectMachine * nat * (option ExtractorDigraphDef * list ExtractionError)) :=
  '(_, createMachineCall) ← findOwnCreateMachineCall program machine;
  '(newState, supply') ← extractProjectMachine createMachineCall supply;
  Ok ({| fileName := fileName machine; machineIndex := machineIndex machine;
         state := Some newState |},
      supply', (pms_digraph newState, pms_errors newState)).

Definition withDigraph (d : option ExtractorDigraphDef) (s : ProjectMachineState) :=
  {| pms_digraph := d; pms_errors := pms_errors s; pms_astPaths := pms_astPaths s;
     idMap := idMap s |}.

Section Project.

(** [applyPatches] of the immer library, applied to the digraph of the
    machine state; it may throw. *)
Variable immerApplyPatches :
  option ExtractorDigraphDef → list Patch → Outcome (option ExtractorDigraphDef).

(** [applyPatches(patches)] of a machine: the machine with its patched
    digraph and the recorded code changes. *)
Definition machineApplyPatches (program : TsProgram) (machine : ProjectMachine)
    (patches : list Patch) : Outcome (ProjectMachine * list CodeChange) :=
  '(_, createMachineCall) ← findOwnCreateMachineCall program machine;
  match state machine with
  | None => Throw TypeError
  | Some oldState =>
      patched ← immerApplyPatches (pms_digraph oldState) patches;
      let currentState := withDigraph patched oldState in
      changes ← applyPatchList createMachineCall currentState patches;
      Ok ({| fileName := fileName machine; machineIndex := machineIndex machine;
             state := Some currentState |}, changes)
  end.

(** The closure state of [createProject]. *)
Record Project := {
  currentProgram : TsProgram;
  projectMachines : gmap string (list ProjectMachine);
  randomSupply : nat;
}.

Definition createProject (tsProgram : TsProgram) : Project :=
  {| currentProgram := tsProgram; projectMachines := ∅; randomSupply := 0 |}.

(** [machines.map((machine) => machine.getDigraph())] *)
Fixpoint getDigraphs (program : TsProgram) (supply : nat) (machines : list ProjectMachine)
    : Outcome (list ProjectMachine * nat
               * list (option ExtractorDigraphDef * list ExtractionError)) :=
  match machines with
  | [] => Ok ([], supply, [])
  | machine :: rest =>
      '(machine', supply1, result) ← getDigraph program supply machine;
      '(rest', supply2, results) ← getDigraphs program supply1 rest;
      Ok (machine' :: rest', supply2, result :: results)
  end.

Definition getMachinesInFile (project : Project) (file : string)
    : Outcome (Project * list (option ExtractorDigraphDef * list ExtractionError)) :=
  let run (machines : list ProjectMachine) :=
    '(machines', supply', results) ←
      getDigraphs (currentProgram project) (randomSupply project) machines;
    Ok ({| currentProgram := currentProgram project;
           projectMachines := <[file := machines']> (projectMachines project);
           randomSupply := supply' |}, results) in
  match projectMachines project !! file with
  | Some existing => run existing
  | None =>
      match currentProgram project !! file with
      | None => Ok (project, [])
      | Some sourceFile =>
          run (imap (fun index _ =>
                 {| fileName := file; machineIndex := index; state := None |})
                 (findCreateMachineCalls sourceFile))
      end
  end.

Definition applyPatches (project : Project) (file : string) (index : nat)
    (patches : list Patch) : Outcome (Project * list CodeChange) :=
  match projectMachines project !! file ≫= (fun machines => machines !! index) with
  | None => Throw MachineNotFound
  | Some machine =>
      '(machine', changes) ← machineApplyPatches (currentProgram project) machine patches;
      Ok ({| currentProgram := currentProgram project;
             projectMachines :=
               alter (fun machines => <[index := machine']> machines) file
                 (projectMachines project);
             randomSupply := randomSupply project |}, changes)
  end.

Definition updateTsProgram (project : Project) (tsProgram : TsProgram) : Project :=
  {| currentProgram := tsProgram; projectMachines := projectMachines project;
     randomSupply := randomSupply project |}.

End Project.

(** ** Notions used to state the properties *)

(** The quote of the module specifier of an import or export declaration,
    when the specifier is a string literal. *)
Definition moduleSpecifierQuote (statement : Statement) : option Quote :=
  match statement with
  | ImportDeclaration (EStringLiteral q _) => Some q
  | ExportDeclaration (Some (EStringLiteral q _)) => Some q
  | _ => None
  end.

(** Follows the spec's words ("the file's dominant quote character, scanned
    from its import/export module specifiers, defaulting to double-quote"):
    the quote used by most module specifiers of the file. *)
Definition dominantQuoteCharCode (sourceFile : SourceFile) : nat :=
  let quotes := omap moduleSpecifierQuote (statements sourceFile) in
  let singles := length (filter (fun q => q = SingleQuote) quotes) in
  let doubles := length (filter (fun q => q = DoubleQuote) quotes) in
  if decide (doubles < singles) then singleQuote else doubleQuote.


(** Induction over the values [getJsonValue] descends into: the elements of
    an array literal and the initializers of an object literal. *)
Section JsonInduction.
Variable P : Expr → Prop.

Definition onInitializer (prop : ObjProp) : Prop :=
  match prop with
  | PropertyAssignment _ initializer => P initializer
  | _ => True
  end.

Hypothesis Harray : ∀ elements, Forall P elements → P (EArrayLiteral elements).
Hypothesis Hobject : ∀ properties,
  Forall onInitializer properties → P (EObjectLiteral properties).
Hypothesis Hleaf : ∀ e,
  isArrayLiteralExpression e = None → isObjectLiteralExpression e = None → P e.

Fixpoint json_ind (e : Expr) : P e :=
  match e with
  | EArrayLiteral elements =>
      Harray elements
        ((fix go (l : list Expr) : Forall P l :=
            match l with
            | [] => List.Forall_nil P
            | x :: rest => @List.Forall_cons _ P x rest (json_ind x) (go rest)
            end) elements)
  | EObjectLiteral properties =>
      Hobject properties
        ((fix go (l : list ObjProp) : Forall onInitializer l :=
            match l with
            | [] => List.Forall_nil onInitializer
            | prop :: rest =>
                @List.Forall_cons _ onInitializer prop rest
                  (match prop return onInitializer prop with
                   | PropertyAssignment _ initializer => json_ind initializer
                   | _ => I
                   end) (go rest)
            end) properties)
  | e' => Hleaf e' eq_refl eq_refl
  end.

End JsonInduction.

(** ** Example inputs *)

Definition mixedQuotesFile : SourceFile :=
  {| statements :=
       [ImportDeclaration (EStringLiteral SingleQuote "a");
        ImportDeclaration (EStringLiteral DoubleQuote "b");
        ExportDeclaration (Some (EStringLiteral DoubleQuote "c"))] |}.

(** The kinds of event for which [getTransitionInsertionPath] has no
    insertion path. *)
Definition unsupportedForInsertion (eventTypeData : EventTypeData) : bool :=
  match eventTypeData with
  | after | wildcard | init => true
  | _ => false
  end.

(** A patch that adds the edge [edge]. *)
Definition addEdgePatch (edgeId : string) (edge : Edge.t) : Patch :=
  {| op := add; path := ["edges"; edgeId]; value := ValueEdge edge |}.

(** [blocks[edge.data.guard].sourceId] for an edge with a guard. *)
Definition guardSourceId (edge : Edge.t) (pms : ProjectMachineState) : option string :=
  guardId ← truthyOpt (Edge.guard (Edge.data edge));
  def ← pms_digraph pms;
  Block.sourceId <$> blocks (digraph def) !! guardId.

(** The machine [{ id: 'm', states: { a: { states: { a1: {} } }, b: {} } }]
    as context and machine state: nodes [n0] (the root), [n1] (a), [n2] (b)
    and [n3] (a1). *)
Definition exampleNode (id : string) (parent : option string) (k : string) : Node.t :=
  {| Node.uniqueId := id; Node.parentId := parent;
     Node.data := {| Node.key := Some k; Node.initial := None; Node.type := normal;
                     Node.history := None; Node.metaEntries := []; Node.entry := [];
                     Node.exit := []; Node.invoke := []; Node.tags := [];
                     Node.description := None |} |}.

Definition exampleDigraph : Digraph :=
  {| nodes := <["n0" := exampleNode "n0" None "(machine)"]>
              (<["n1" := exampleNode "n1" (Some "n0") "a"]>
              (<["n2" := exampleNode "n2" (Some "n0") "b"]>
              (<["n3" := exampleNode "n3" (Some "n1") "a1"]> ∅)));
     edges := ∅; edgeRefs := []; blocks := ∅;
     implementations := {| actions := ∅; actors := ∅; guards := ∅ |};
     context := ContextObject [] |}.

Definition exampleTreeNode (id : string) (parent : option string)
    (kids : list (string * string)) : TreeNode.t :=
  {| TreeNode.uniqueId := id; TreeNode.parentId := parent;
     TreeNode.children := list_to_map kids |}.

Definition exampleContext : ExtractionContext :=
  {| errors := []; ctx_digraph := exampleDigraph;
     treeNodes := <["n0" := exampleTreeNode "n0" None [("a", "n1"); ("b", "n2")]]>
                  (<["n1" := exampleTreeNode "n1" (Some "n0") [("a1", "n3")]]>
                  (<["n2" := exampleTreeNode "n2" (Some "n0") []]>
                  (<["n3" := exampleTreeNode "n3" (Some "n1") []]> ∅)));
     idToNodeIdMap := {["m" := "n0"]};
     originalTargets := []; currentAstPath := [];
     astPaths := {| astNodes := ∅; astEdges := ∅ |}; idSupply := 0 |}.

Definition exampleState : ProjectMachineState :=
  {| pms_digraph := Some {| root := "n0"; digraph := exampleDigraph |};
     pms_errors := [];
     pms_astPaths := {| astNodes := {["n0" := []]}; astEdges := ∅ |};
     idMap := invert (idToNodeIdMap exampleContext) |}.

Definition exampleEdge (source : string) (targets : list string)
    (eventTypeData : EventTypeData) : Edge.t :=
  {| Edge.uniqueId := "e0"; Edge.source := source; Edge.targets := targets;
     Edge.data := {| Edge.eventTypeData := eventTypeData; Edge.actions := [];
                     Edge.guard := None; Edge.description := None;
                     Edge.internal := true |} |}.

(** An immer that returns the digraph unchanged. *)
Definition keepDigraph (d : option ExtractorDigraphDef) (_ : list Patch)
    : Outcome (option ExtractorDigraphDef) := Ok d.

Definition exampleCall : CallExpression :=
  {| call_expression := EIdentifier "createMachine"; call_arguments := [] |}.

(** The [target] entry of a transition written for the given descriptors. *)
Definition targetElement (descriptors : list string) : InsertionElement :=
  match descriptors with
  | [] => c_undefined
  | [d] => c_string d false
  | ds => c_array ((fun d => c_string d false) <$> ds)
  end.

(** The entries a transition object has besides [target]. *)
Definition otherTransitionProperties (edge : Edge.t) (pms : ProjectMachineState)
    : list InsertionElement :=
  match guardSourceId edge pms with
  | Some sourceId => [c_property "guard" (c_string sourceId false)]
  | None => []
  end
  ++ (if Edge.internal (Edge.data edge) then [] else [c_property "reenter" (c_boolean true)])
  ++ match truthyOpt (Edge.description (Edge.data edge)) with
     | Some text => [c_property "description" (c_string text true)]
     | None => []
     end.

(** The patch [replace nodes.<nodeId>.data.<field>] with the given value. *)
Definition replaceDataPatch (nodeId field : string) (v : PatchValue) : Patch :=
  {| op := replace; path := ["nodes"; nodeId; "data"; field]; value := v |}.

(** A code change that only removes a property. *)
Definition isRemoval (change : CodeChange) : Prop :=
  match change with
  | removeProperty _ _ => True
  | _ => False
  end.

(** The values at which a data field takes its default: [type: "normal"],
    [history: "shallow"] and an absent [history]. *)
Definition defaultFieldValues : list (string * PatchValue) :=
  [("type", ValueString "normal"); ("history", ValueString "shallow");
   ("history", ValueUndefined)].

Definition typedState : Expr :=
  EObjectLiteral [PropertyAssignment (NIdentifier "type") (EStringLiteral DoubleQuote "final")].

(** [createMachine(state)] *)
Definition stateCall (state : Expr) : CallExpression :=
  {| call_expression := EIdentifier "createMachine"; call_arguments := [state] |}.

(** [{ type: "final", [k]: 1 }]: a computed key declared after [type]. *)
Definition computedKeyState : Expr :=
  EObjectLiteral
    [PropertyAssignment (NIdentifier "type") (EStringLiteral DoubleQuote "final");
     PropertyAssignment (NComputedPropertyName (EIdentifier "k")) (ENumericLiteral "1" "1")].

(** [{ type: "final", type: "parallel" }] *)
Definition twiceTypedState : Expr :=
  EObjectLiteral
    [PropertyAssignment (NIdentifier "type") (EStringLiteral DoubleQuote "final");
     PropertyAssignment (NIdentifier "type") (EStringLiteral DoubleQuote "parallel")].

(** [createMachine({ states: { a: { on: { NEXT: transition },
    states: { a1: {} } }, b: {} } })] *)
Definition transitionCall (transition : Expr) : CallExpression :=
  stateCall
    (EObjectLiteral
       [PropertyAssignment (NIdentifier "states")
          (EObjectLiteral
             [PropertyAssignment (NIdentifier "a")
                (EObjectLiteral
                   [PropertyAssignment (NIdentifier "on")
                      (EObjectLiteral [PropertyAssignment (NIdentifier "NEXT") transition]);
                    PropertyAssignment (NIdentifier "states")
                      (EObjectLiteral
                         [PropertyAssignment (NIdentifier "a1") (EObjectLiteral [])])]);
              PropertyAssignment (NIdentifier "b") (EObjectLiteral [])])]).

(** [["b", ".a1"]]: the source text of an array of the descriptors of [b] and
    of [a1] as seen from [a]. *)
Definition bareTargets : Expr :=
  EArrayLiteral [EStringLiteral DoubleQuote "b"; EStringLiteral DoubleQuote ".a1"].

(** The targets of the edges of an extracted machine, by edge id. *)
Definition edgeTargets (pms : ProjectMachineState) : list (list string) :=
  match pms_digraph pms with
  | Some def => (Edge.targets ∘ snd) <$> map_to_list (edges (digraph def))
  | None => []
  end.

(** A file with one [createMachine({})] call, and the same file after the
    call has been deleted. *)
Definition programWithMachine : TsProgram :=
  {["machine.ts" :=
      {| statements := [OtherStatement [ECall (EIdentifier "createMachine")
                                          [EObjectLiteral []]]] |}]}.

Definition programWithoutMachine : TsProgram :=
  {["machine.ts" := {| statements := [] |}]}.

(** The project after [getMachinesInFile("machine.ts")] on the first program. *)
Definition extractedProject : Project :=
  match getMachinesInFile (createProject programWithMachine) "machine.ts" with
  | Ok (project, _) => project
  | _ => createProject programWithMachine
  end.

(** The node ids that the raw targets of an edge resolve to, in order; a
    target that does not resolve contributes nothing. *)
Definition resolvedTargets (ctx : ExtractionContext) (sourceId : string)
    (targets : list string) : list string :=
  omap (fun target =>
          match resolveTarget ctx sourceId target with
          | Ok (Some (VString id)) => truthyOpt (Some id)
          | _ => None
          end) targets.

(** The errors recorded for one raw target: none when it resolves; for one
    that [resolveTargetId] gives up [transition_target_unresolved] (from
    [resolveTargetId]) followed by [transition_property_unhandled] (from
    [resolveTargets]); and the latter alone for one whose marker has no
    [uniqueId]. *)
Definition targetErrors (ctx : ExtractionContext) (sourceId target : string)
    : list ExtractionError :=
  match resolveTarget ctx sourceId target with
  | Ok None => [transition_target_unresolved; transition_property_unhandled]
  | Ok (Some id) => if truthyValue id then [] else [transition_property_unhandled]
  | _ => []
  end.

(** The resolution of the raw target ends with a node id or with nothing: it
    neither throws nor ends with a tree node in the place of an id. *)
Definition resolvesPlainly (ctx : ExtractionContext) (sourceId target : string) : Prop :=
  match resolveTarget ctx sourceId target with
  | Ok None | Ok (Some VUndefined) | Ok (Some (VString _)) => True
  | _ => False
  end.

Definition setTargets (targets : list string) (edge : Edge.t) : Edge.t :=
  {| Edge.uniqueId := Edge.uniqueId edge; Edge.source := Edge.source edge;
     Edge.targets := targets; Edge.data := Edge.data edge |}.

Definition startsWithHash (s : string) : bool :=
  match s with
  | String c _ => Ascii.eqb c hash
  | EmptyString => false
  end.

(** [createMachine({ states: { a: { on: { GO: target } } } })] *)
Definition targetCall (target : string) : CallExpression :=
  {| call_expression := EIdentifier "createMachine";
     call_arguments :=
       [EObjectLiteral
          [PropertyAssignment (NIdentifier "states")
             (EObjectLiteral
                [PropertyAssignment (NIdentifier "a")
                   (EObjectLiteral
                      [PropertyAssignment (NIdentifier "on")
                         (EObjectLiteral
                            [PropertyAssignment (NIdentifier "GO")
                               (EStringLiteral SingleQuote target)])])])]] |}.

(** [createMachine({ entry: action })] *)
Definition entryCall (action : string) : CallExpression :=
  {| call_expression := EIdentifier "createMachine";
     call_arguments :=
       [EObjectLiteral
          [PropertyAssignment (NIdentifier "entry") (EStringLiteral SingleQuote action)]] |}.

Definition inheritedTargetCall : CallExpression := targetCall "toString".
Definition inheritedPathCall : CallExpression := targetCall ".toString.x".

(** The example context with an edge from [a] whose raw targets are pending. *)
Definition exampleContextWithEdge : ExtractionContext :=
  setOriginalTargets [("e0", ["b"; "missing"])]
    (setDigraph (setEdges {["e0" := exampleEdge "n1" [] (named "NEXT")]} exampleDigraph)
       exampleContext).

(** The elements [mapMaybeArrayElements] maps over. *)
Definition elementsOf (expression : Expr) : list Expr :=
  match expression with
  | EArrayLiteral elements => elements
  | e => [e]
  end.

(** Follows the claim's words: an element of a transitions value fails to
    produce an edge when it is neither [undefined]/[null], a string literal,
    nor an object literal, or when it is an object literal whose [target]
    property contains an element that is not a string literal. *)
Definition failsToProduceEdge (element : Expr) : bool :=
  if isForbiddenTarget element then false
  else match element with
  | EStringLiteral _ _ | ENoSubstitutionTemplateLiteral _ => false
  | EObjectLiteral properties =>
      match (findProperty properties "target").2 with
      | Some p =>
          negb (isForbiddenTarget (prop_initializer p))
          && existsb (fun e => negb (bool_decide (is_Some (isStringLiteralLike e))))
               (elementsOf (prop_initializer p))
      | None => false
      end
  | _ => true
  end.

(** Two contexts with the same tree nodes, edges and pending targets, the
    second with at least the nodes of the first. *)
Definition sameGraph (ctx ctx' : ExtractionContext) : Prop :=
  treeNodes ctx' = treeNodes ctx
  ∧ edges (ctx_digraph ctx') = edges (ctx_digraph ctx)
  ∧ originalTargets ctx' = originalTargets ctx
  ∧ dom (nodes (ctx_digraph ctx)) ⊆ dom (nodes (ctx_digraph ctx')).

(** What the reads of [resolveTargets] by generated ids rely on: the source
    of every edge is a tree node, the parent of every tree node is a tree
    node, and every edge with pending targets is registered. *)
Definition resolvable (ctx : ExtractionContext) : Prop :=
  (∀ edgeId edge, edges (ctx_digraph ctx) !! edgeId = Some edge →
                  Edge.source edge ∈ dom (treeNodes ctx))
  ∧ (∀ id node parentId, treeNodes ctx !! id = Some node →
                         truthyOpt (TreeNode.parentId node) = Some parentId →
                         parentId ∈ dom (treeNodes ctx))
  ∧ (∀ edgeId targets, (edgeId, targets) ∈ originalTargets ctx →
                       edgeId ∈ dom (edges (ctx_digraph ctx))).

(** A step of the extraction of the state [nodeId] (or of the root, below no
    node): no tree node and no node is lost, and the tables stay fit for the
    reads of [resolveTargets]. *)
Definition grows (nodeId : option string) (ctx ctx' : ExtractionContext) : Prop :=
  (∀ n, nodeId = Some n → n ∈ dom (treeNodes ctx)) →
  dom (treeNodes ctx) ⊆ dom (treeNodes ctx')
  ∧ dom (nodes (ctx_digraph ctx)) ⊆ dom (nodes (ctx_digraph ctx'))
  ∧ (resolvable ctx → resolvable ctx').

(** [keeps R m]: running [m] relates the context before to the one after. *)
Definition keeps (R : relation ExtractionContext) {A} (m : Extract A) : Prop :=
  ∀ ctx, R ctx (m ctx).2.

(** [yields P m]: the result of [m] satisfies [P] from every context. *)
Definition yields {A} (P : A → Prop) (m : Extract A) : Prop :=
  ∀ ctx, P (m ctx).1.

(** [on: [x, "b"]], whose first element is a number. *)
Definition brokenGroup : Expr :=
  EArrayLiteral [ENumericLiteral "1" "1"; EStringLiteral DoubleQuote "b"].

(** The keys the reverse scan of [extractState] has seen after it has gone
    through [rprops]. *)
Fixpoint seenAfter (rprops : list ObjProp) (seen : gset string) : gset string :=
  match rprops with
  | [] => seen
  | PropertyAssignment name _ :: rest =>
      match truthyOpt (getPropertyKey name).2 with
      | Some k => seenAfter rest ({[k]} ∪ seen)
      | None => seenAfter rest seen
      end
  | _ :: rest => seenAfter rest seen
  end.

(** [{ initial: "a", initial: "b" }] *)
Definition initialA : ObjProp :=
  PropertyAssignment (NIdentifier "initial") (EStringLiteral DoubleQuote "a").
Definition initialB : ObjProp :=
  PropertyAssignment (NIdentifier "initial") (EStringLiteral DoubleQuote "b").
Definition duplicateInitial : Expr := EObjectLiteral [initialA; initialB].

(** The [initial] of the node that [extractState] creates for a state. *)
Definition extractedInitial (state : Expr) : option (option string) :=
  match extractState (S (exprDepth state)) (Some state) None (freshContext 0) with
  | (Ok (Some nodeId), ctx) => Node.initial ∘ Node.data <$> nodes (ctx_digraph ctx) !! nodeId
  | _ => None
  end.






(** A state key that a descriptor can carry: not empty, without ['.'] and
    not beginning with [#]. *)
Definition plainKey (k : string) : bool :=
  truthy k && negb (contains dot k) && negb (startsWithHash k).

Definition nodeIds (chain : list Node.t) : list string := Node.uniqueId <$> chain.

(** The parent of a node of the digraph, when it has one. *)
Definition parentOf (nodeMap : gmap string Node.t) (id : string) : option string :=
  nodeMap !! id ≫= fun node => truthyOpt (Node.parentId node).

(** The node [node] of the digraph and the tree node [tnode] of the context
    are the two records of the state [id]. *)
Record linked (ctx : ExtractionContext) (nodeMap : gmap string Node.t)
    (id : string) (node : Node.t) (tnode : TreeNode.t) : Prop := {
  linked_node : nodeMap !! id = Some node;
  linked_id : Node.uniqueId node = id;
  linked_tree : treeNodes ctx !! id = Some tnode;
  linked_tree_id : TreeNode.uniqueId tnode = id;
  linked_parent : TreeNode.parentId tnode = Node.parentId node;
}.

(** [pathTo ctx nodeMap id chain]: the state [id] is reachable in the tree,
    and [chain] lists its node, its parent's node, ..., the root's node; every
    node but the root is the child of its parent under its own key. *)
Inductive pathTo (ctx : ExtractionContext) (nodeMap : gmap string Node.t)
    : string → list Node.t → Prop :=
  | pathTo_root id node tnode :
      linked ctx nodeMap id node tnode →
      truthyOpt (Node.parentId node) = None →
      pathTo ctx nodeMap id [node]
  | pathTo_child id node tnode parentId parentTree k rest :
      linked ctx nodeMap id node tnode →
      truthyOpt (Node.parentId node) = Some parentId →
      Node.key (Node.data node) = Some k →
      treeNodes ctx !! parentId = Some parentTree →
      TreeNode.children parentTree !! k = Some id →
      pathTo ctx nodeMap parentId rest →
      pathTo ctx nodeMap id (node :: rest).

(** The example machine, whose state [a] has the declared-free child [a1]. *)
Definition exampleChainA : list Node.t :=
  [exampleNode "n1" (Some "n0") "a"; exampleNode "n0" None "(machine)"].
Definition exampleChainA1 : list Node.t :=
  exampleNode "n3" (Some "n1") "a1" :: exampleChainA.
Definition exampleChainB : list Node.t :=
  [exampleNode "n2" (Some "n0") "b"; exampleNode "n0" None "(machine)"].

(** ** Further example inputs *)

(** [createMachine({ id: "m", states: { a: {}, b: { type: "final" } } })] *)
Definition nestedCall : CallExpression :=
  {| call_expression := EIdentifier "createMachine";
     call_arguments :=
       [EObjectLiteral
          [PropertyAssignment (NIdentifier "id") (EStringLiteral DoubleQuote "m");
           PropertyAssignment (NIdentifier "states")
             (EObjectLiteral
                [PropertyAssignment (NIdentifier "a") (EObjectLiteral []);
                 PropertyAssignment (NIdentifier "b") typedState])] ] |}.


(** [m] does nothing to the context but report errors, and neither its result
    nor the errors it reports depend on the context it runs in. *)
Definition reportsOnly {A} (m : Extract A) : Prop :=
  ∃ result reported, ∀ ctx, m ctx = (result, setErrors (errors ctx ++ reported) ctx).

(** A callback for [forEachStaticProperty] that looks at the value of the
    property: it reports a value that is not a string literal. *)
Definition reportNonString (p : PropertyRef) (_ : string) : Extract unit :=
  match isStringLiteralLike (prop_initializer p) with
  | Some _ => mret tt
  | None => pushError property_unhandled
  end.

(** [chain] climbs the digraph: each of its nodes but the last names the next
    one as its parent. *)
Fixpoint climbs (nodeMap : gmap string Node.t) (chain : list Node.t) : Prop :=
  match chain with
  | node :: (parent :: _) as rest =>
      (∃ parentId, truthyOpt (Node.parentId node) = Some parentId
                   ∧ nodeMap !! parentId = Some parent)
      ∧ climbs nodeMap rest
  | _ => True
  end.

(** A patch that removes something, or that replaces something of an edge. *)
Definition removesOrEditsEdge (patch : Patch) : Prop :=
  op patch = remove ∨ (op patch = replace ∧ path patch !! 0 = Some "edges").

(** A step of the extraction only adds to the context: the errors recorded
    before are still there, in order, before the new ones; the AST path is
    where it was and the recorded AST paths are untouched; no node, edge,
    block, tree node or declared id is gone; the implementations registered
    before are there unchanged. *)
Record accumulates (ctx ctx' : ExtractionContext) : Prop := {
  acc_errors : errors ctx `prefix_of` errors ctx';
  acc_currentAstPath : currentAstPath ctx' = currentAstPath ctx;
  acc_astPaths : astPaths ctx' = astPaths ctx;
  acc_nodes : dom (nodes (ctx_digraph ctx)) ⊆ dom (nodes (ctx_digraph ctx'));
  acc_edges : dom (edges (ctx_digraph ctx)) ⊆ dom (edges (ctx_digraph ctx'));
  acc_blocks : dom (blocks (ctx_digraph ctx)) ⊆ dom (blocks (ctx_digraph ctx'));
  acc_actions : actions (implementations (ctx_digraph ctx))
                ⊆ actions (implementations (ctx_digraph ctx'));
  acc_actors : actors (implementations (ctx_digraph ctx))
               ⊆ actors (implementations (ctx_digraph ctx'));
  acc_guards : guards (implementations (ctx_digraph ctx'))
               = guards (implementations (ctx_digraph ctx));
  acc_treeNodes : dom (treeNodes ctx) ⊆ dom (treeNodes ctx');
  acc_idToNodeIdMap : dom (idToNodeIdMap ctx) ⊆ dom (idToNodeIdMap ctx');
}.

(** The edge [edge'] is the edge [edge] with targets added after its own. *)
Definition targetsAdded (edge edge' : Edge.t) : Prop :=
  Edge.uniqueId edge' = Edge.uniqueId edge
  ∧ Edge.source edge' = Edge.source edge
  ∧ Edge.data edge' = Edge.data edge
  ∧ Edge.targets edge `prefix_of` Edge.targets edge'.

(** What [resolveTargets] may change: it adds targets to registered edges and
    reports errors. *)
Record onlyResolves (ctx ctx' : ExtractionContext) : Prop := {
  resolves_errors : errors ctx `prefix_of` errors ctx';
  resolves_edges : ∀ edgeId,
    option_Forall2 targetsAdded (edges (ctx_digraph ctx) !! edgeId)
                   (edges (ctx_digraph ctx') !! edgeId);
  resolves_nodes : nodes (ctx_digraph ctx') = nodes (ctx_digraph ctx);
  resolves_blocks : blocks (ctx_digraph ctx') = blocks (ctx_digraph ctx);
  resolves_implementations :
    implementations (ctx_digraph ctx') = implementations (ctx_digraph ctx);
  resolves_context : context (ctx_digraph ctx') = context (ctx_digraph ctx);
  resolves_edgeRefs : edgeRefs (ctx_digraph ctx') = edgeRefs (ctx_digraph ctx);
  resolves_treeNodes : treeNodes ctx' = treeNodes ctx;
  resolves_idToNodeIdMap : idToNodeIdMap ctx' = idToNodeIdMap ctx;
  resolves_originalTargets : originalTargets ctx' = originalTargets ctx;
  resolves_currentAstPath : currentAstPath ctx' = currentAstPath ctx;
  resolves_astPaths : astPaths ctx' = astPaths ctx;
}.

(** The example context with the pending targets of its edge resolved. *)
Definition resolvedExampleContext : ExtractionContext :=
  match resolveTargets exampleContextWithEdge with
  | Ok ctx' => ctx'
  | _ => exampleContextWithEdge
  end.

(** ** Well-formed extraction contexts *)

(** The implementations table a block of the given type is registered in. *)
Definition implementationsOf (kind : BlockType) (impls : Implementations)
    : gmap string Implementation :=
  match kind with
  | action => actions impls
  | actor => actors impls
  end.

(** The block ids a node refers to. *)
Definition nodeBlocks (node : Node.t) : list string :=
  Node.entry (Node.data node) ++ Node.exit (Node.data node) ++ Node.invoke (Node.data node).

(** The references of the context are closed: nodes and tree nodes are
    registered under their own ids, for the same states, and name registered
    parents; edges are registered under their own ids and lead from and to
    registered nodes; the blocks that nodes and edges refer to are
    registered, under their own ids, and their sources are implemented,
    unless the source is the name of an inherited member, for which
    [registerImplementation] assigns nothing; pending targets belong to
    registered edges. *)
Record wellFormed (ctx : ExtractionContext) : Prop := {
  wf_trees : dom (treeNodes ctx) = dom (nodes (ctx_digraph ctx));
  wf_tree : ∀ id tnode, treeNodes ctx !! id = Some tnode →
    TreeNode.uniqueId tnode = id
    ∧ ∀ parentId, TreeNode.parentId tnode = Some parentId →
                  parentId ∈ dom (treeNodes ctx);
  wf_node : ∀ id node, nodes (ctx_digraph ctx) !! id = Some node →
    Node.uniqueId node = id
    ∧ (∀ parentId, Node.parentId node = Some parentId →
                   parentId ∈ dom (nodes (ctx_digraph ctx)))
    ∧ (∀ blockId, blockId ∈ nodeBlocks node → blockId ∈ dom (blocks (ctx_digraph ctx)));
  wf_edge : ∀ id edge, edges (ctx_digraph ctx) !! id = Some edge →
    Edge.uniqueId edge = id
    ∧ Edge.source edge ∈ dom (nodes (ctx_digraph ctx))
    ∧ (∀ target, target ∈ Edge.targets edge → target ∈ dom (nodes (ctx_digraph ctx)))
    ∧ (∀ blockId, blockId ∈ Edge.actions (Edge.data edge) →
                  blockId ∈ dom (blocks (ctx_digraph ctx)));
  wf_block : ∀ id block, blocks (ctx_digraph ctx) !! id = Some block →
    Block.uniqueId block = id
    ∧ (Block.sourceId block
       ∈ dom (implementationsOf (Block.blockType block)
                (implementations (ctx_digraph ctx)))
       ∨ inheritedName (Block.sourceId block) = true);
  wf_pending : ∀ edgeId targets, (edgeId, targets) ∈ originalTargets ctx →
    edgeId ∈ dom (edges (ctx_digraph ctx));
}.

(** A step that leaves the digraph, the tree nodes and the pending targets
    alone. *)
Definition sameStore (ctx ctx' : ExtractionContext) : Prop :=
  ctx_digraph ctx' = ctx_digraph ctx
  ∧ treeNodes ctx' = treeNodes ctx
  ∧ originalTargets ctx' = originalTargets ctx.

(** A step that loses no node and no block. *)
Definition widens (ctx ctx' : ExtractionContext) : Prop :=
  dom (nodes (ctx_digraph ctx)) ⊆ dom (nodes (ctx_digraph ctx'))
  ∧ dom (blocks (ctx_digraph ctx)) ⊆ dom (blocks (ctx_digraph ctx')).

(** A property of contexts that no later step of the extraction undoes. *)
Definition stable (P : ExtractionContext → Prop) : Prop :=
  ∀ ctx ctx', widens ctx ctx' → P ctx → P ctx'.

(** [establishes P m Q]: from a well-formed context in which [P] holds, [m]
    reaches a well-formed context, losing no node and no block, in which its
    result satisfies [Q]. *)
Definition establishes (P : ExtractionContext → Prop) {A} (m : Extract A)
    (Q : A → ExtractionContext → Prop) : Prop :=
  ∀ ctx, wellFormed ctx → P ctx →
    wellFormed (m ctx).2 ∧ widens ctx (m ctx).2 ∧ Q (m ctx).1 (m ctx).2.

(** The node [nodeId] is registered. *)
Definition registered (nodeId : string) (ctx : ExtractionContext) : Prop :=
  nodeId ∈ dom (nodes (ctx_digraph ctx)).

(** The blocks [blockIds] are registered. *)
Definition blocksRegistered (blockIds : list string) (ctx : ExtractionContext) : Prop :=
  ∀ blockId, blockId ∈ blockIds → blockId ∈ dom (blocks (ctx_digraph ctx)).

(** The edge [edge'] is the edge [edge] with its data worked on, and the
    action blocks it refers to are registered. *)
Definition edgeExtracted (edge edge' : Edge.t) (ctx : ExtractionContext) : Prop :=
  Edge.uniqueId edge' = Edge.uniqueId edge
  ∧ Edge.source edge' = Edge.source edge
  ∧ Edge.targets edge' = Edge.targets edge
  ∧ blocksRegistered (Edge.actions (Edge.data edge')) ctx.

(** An edge as [extractEdgeGroup] registers it: it leaves [sourceId], has no
    target yet, and its action blocks are registered. *)
Definition edgeReady (sourceId : string) (edge : Edge.t) (ctx : ExtractionContext) : Prop :=
  Edge.source edge = sourceId
  ∧ Edge.targets edge = []
  ∧ blocksRegistered (Edge.actions (Edge.data edge)) ctx.

(** The result of the callback of [extractEdgeGroup], when it is an edge, is
    ready to be registered. *)
Definition edgeResultReady (sourceId : string)
    (result : option (Edge.t * option (list string))) (ctx : ExtractionContext) : Prop :=
  ∀ et, result = Some et → edgeReady sourceId et.1 ctx.

(** Every block of the list that is there has the given type. *)
Definition blocksOfType (kind : BlockType) (blockList : list (option Block.t)) : Prop :=
  Forall (fun r => ∀ block, r = Some block → Block.blockType block = kind) blockList.

(** The parent that a state is extracted under, when it has one, is
    registered. *)
Definition parentRegistered (parentId : option string) (ctx : ExtractionContext) : Prop :=
  ∀ p, parentId = Some p → registered p ctx.

(** The tree node that [extractState] returns, when it returns one, is the
    tree node of a registered node. *)
Definition resultRegistered (result : Outcome (option string)) (ctx : ExtractionContext)
    : Prop :=
  ∀ id, result = Ok (Some id) → registered id ctx.

(** The tree node is one of the store of the context. *)
Definition stored (ctx : ExtractionContext) (tnode : TreeNode.t) : Prop :=
  ∃ id, treeNodes ctx !! id = Some tnode.

(** The tree node that a value is, or whose [children] table it is, is one of
    the store. *)
Definition storedValue (ctx : ExtractionContext) (v : Value) : Prop :=
  match v with
  | VTreeNode node | VChildren node => stored ctx node
  | _ => True
  end.

(** ** language-server: the request for one machine *)

(** The handler of the [getMachineAtIndex] request, for the project that
    [getXStateProject] returns: [const [digraph] =
    xstateProject.getMachinesInFile(fileName)[machineIndex]]. Destructuring
    the entry of an index that is not there is a [TypeError]. *)
Definition getMachineAtIndex (project : Project) (file : string) (index : nat)
    : Outcome (Project * option ExtractorDigraphDef) :=
  '(project', results) ← getMachinesInFile project file;
  match results !! index with
  | Some (digraph, _) => Ok (project', digraph)
  | None => Throw TypeError
  end.

(** The machines [getMachinesInFile] creates for the calls of a file. *)
Definition machinesFor (file : string) (calls : list CallExpression) : list ProjectMachine :=
  imap (fun index _ => {| fileName := file; machineIndex := index; state := None |}) calls.

(** The machine [machine'] is the machine [machine] after an extraction. *)
Definition reextracted (machine machine' : ProjectMachine) : Prop :=
  fileName machine' = fileName machine
  ∧ machineIndex machine' = machineIndex machine
  ∧ is_Some (state machine').

(** ** The expressions below a node of the syntax tree *)

Definition nameExpressions (name : PropName) : list Expr :=
  match name with
  | NComputedPropertyName expression => [expression]
  | _ => []
  end.

Definition memberExpressions (member : ObjProp) : list Expr :=
  match member with
  | PropertyAssignment name initializer => nameExpressions name ++ [initializer]
  | ShorthandPropertyAssignment _ => []
  | SpreadAssignment expression => [expression]
  | MethodDeclaration name children
  | GetAccessorDeclaration name children
  | SetAccessorDeclaration name children => nameExpressions name ++ children
  end.

(** The expressions directly below an expression that the visitor of
    [findCreateMachineCalls] goes on to: a type node has none, since the
    visitor returns from it before [forEachChild]. *)
Definition subexpressions (node : Expr) : list Expr :=
  match node with
  | EArrayLiteral elements => elements
  | EObjectLiteral properties => flat_map memberExpressions properties
  | EFunctionExpression _ children | EArrowFunction _ children | EOther children => children
  | ECall expression arguments => expression :: arguments
  | EPropertyAccess expression _ => [expression]
  | _ => []
  end.

Definition statementExpressions (statement : Statement) : list Expr :=
  match statement with
  | ImportDeclaration moduleSpecifier => [moduleSpecifier]
  | ExportDeclaration (Some moduleSpecifier) => [moduleSpecifier]
  | ExportDeclaration None => []
  | OtherStatement children => children
  end.

(** [within e root]: the expression [e] is [root], or lies somewhere below it
    and not below a type node. *)
Inductive within (e : Expr) : Expr → Prop :=
  | within_here : within e e
  | within_below child parent :
      child ∈ subexpressions parent → within e child → within e parent.

(** The fields of a node's data that [applyPatches] writes back, and the
    other fields of a node's data. *)
Definition writtenBack : list string :=
  ["key"; "initial"; "type"; "history"; "description"].

Definition notWrittenBack : list string :=
  ["metaEntries"; "entry"; "exit"; "invoke"; "tags"].

(** The machine [machine'] is the machine [machine] with the digraph of its
    state replaced by the one immer computes for the patches. *)
Definition patchedBy
    (immer : option ExtractorDigraphDef → list Patch → Outcome (option ExtractorDigraphDef))
    (patches : list Patch) (machine machine' : ProjectMachine) : Prop :=
  fileName machine' = fileName machine
  ∧ machineIndex machine' = machineIndex machine
  ∧ ∃ oldState patched,
      state machine = Some oldState
      ∧ immer (pms_digraph oldState) patches = Ok patched
      ∧ state machine' = Some (withDigraph patched oldState).

(** [wrap(x.createMachine({}))]: a call of [createMachine] as a member,
    nested in the arguments of another call. *)
Definition memberCall : Expr :=
  ECall (EPropertyAccess (EIdentifier "x") (MIdentifier "createMachine")) [EObjectLiteral []].

Definition wrappedCallFile : SourceFile :=
  {| statements := [OtherStatement [ECall (EIdentifier "wrap") [memberCall]]] |}.

(** [class M extends createMachine({}) {}]: the class declaration holds its
    name and a heritage clause, whose [ExpressionWithTypeArguments] is a type
    node above the call. *)
Definition extendsFile : SourceFile :=
  {| statements :=
       [OtherStatement
          [EIdentifier "M";
           EOther [ETypeNode [ECall (EIdentifier "createMachine") [EObjectLiteral []]]]]] |}.

(** * Properties *)

(** ** The preferred quote character (C8) *)

(** C8, counterexample: in a file whose first import uses single quotes and
    whose two other module specifiers use double quotes, the scan returns the
    single quote, which is not the quote most specifiers use. *)
Lemma getPreferredQuoteCharCode_not_dominant :
  getPreferredQuoteCharCode mixedQuotesFile = singleQuote
  ∧ dominantQuoteCharCode mixedQuotesFile = doubleQuote
  ∧ getPreferredQuoteCharCode mixedQuotesFile ≠ dominantQuoteCharCode mixedQuotesFile.
Proof. repeat split; vm_compute; congruence. Qed.

(** C8, amended: the preferred quote character of a file is the quote of the
    first import or export declaration whose module specifier is a string
    literal, and the double quote when the file has no such declaration. *)
Theorem getPreferredQuoteCharCode_first_specifier (sourceFile : SourceFile) :
  getPreferredQuoteCharCode sourceFile
  = from_option quoteCharCode doubleQuote
      (head (omap moduleSpecifierQuote (statements sourceFile))).
Proof.
  unfold getPreferredQuoteCharCode.
  induction (statements sourceFile) as [|statement rest IH]; [reflexivity|].
  destruct statement as [spec|[spec|]|children]; simpl; try exact IH;
    destruct spec; simpl; first [exact IH | reflexivity].
Qed.

(** ** Code that throws *)

Lemma findNodeByAstPath_walk_fuel current astPath :
  findNodeByAstPath_walk current astPath ≠ OutOfFuel.
Proof.
  revert current. induction astPath as [|segment rest IH]; intros current; simpl; [done|].
  destruct current as [[]|]; try done.
  destruct (_ !! segment) as [[]|]; done.
Qed.

Lemma findObjectLiteral_fuel call astPath : findObjectLiteral call astPath ≠ OutOfFuel.
Proof.
  unfold findObjectLiteral. destruct astPath as [p|]; [|done].
  unfold findNodeByAstPath.
  pose proof (findNodeByAstPath_walk_fuel (head (call_arguments call)) p) as H.
  destruct (findNodeByAstPath_walk _ p) as [[[]|]| | |]; simpl; done.
Qed.

Lemma findNodeByAstPath_walk_typed current astPath :
  findNodeByAstPath_walk current astPath ≠ IllTyped.
Proof.
  revert current. induction astPath as [|segment rest IH]; intros current; simpl; [done|].
  destruct current as [[]|]; try done.
  destruct (_ !! segment) as [[]|]; done.
Qed.

Lemma findObjectLiteral_typed call astPath : findObjectLiteral call astPath ≠ IllTyped.
Proof.
  unfold findObjectLiteral. destruct astPath as [p|]; [|done].
  unfold findNodeByAstPath.
  pose proof (findNodeByAstPath_walk_typed (head (call_arguments call)) p) as H.
  destruct (findNodeByAstPath_walk _ p) as [[[]|]| | |]; simpl; done.
Qed.

Lemma applyPatchList_not_ok call currentState patches patch :
  patch ∈ patches →
  isOk (applyPatch call currentState patch) = false →
  isOk (applyPatchList call currentState patches) = false.
Proof.
  induction patches as [|p rest IH]; intros Hin Hbad; [by apply elem_of_nil in Hin|].
  apply elem_of_cons in Hin as [->|Hin]; simpl.
  - destruct (applyPatch call currentState p); simpl in *; done.
  - destruct (applyPatch call currentState p); simpl; try done.
    specialize (IH Hin Hbad).
    destruct (applyPatchList call currentState rest); simpl in *; done.
Qed.

Lemma machineApplyPatches_not_ok immer program machine patches patch :
  patch ∈ patches →
  (∀ call currentState, isOk (applyPatch call currentState patch) = false) →
  isOk (machineApplyPatches immer program machine patches) = false.
Proof.
  intros Hin Hbad. unfold machineApplyPatches.
  destruct (findOwnCreateMachineCall program machine) as [[sf call]| | |]; simpl; try done.
  destruct (state machine) as [oldState|]; [|done].
  destruct (immer _ patches) as [patched| | |]; simpl; try done.
  pose proof (applyPatchList_not_ok call (withDigraph patched oldState) patches patch
                Hin (Hbad _ _)) as H.
  destruct (applyPatchList call _ patches); simpl in *; done.
Qed.

Lemma raises_not_ok {A} (m : Outcome A) : raises m → isOk m = false.
Proof. intros [msg ->]. done. Qed.

(** ** Insertion paths of transitions (C6) *)

(** C6: an add-edge patch whose event is of kind [after], [wildcard] or
    [init] makes [getTransitionInsertionPath] and the application of that
    patch raise, and the request returns no edits; for the kinds [named],
    [always], [state.done], [invocation.done] and [invocation.error] the
    function returns the insertion path, the digraph and the source node of
    the edge being present. *)
Theorem getTransitionInsertionPath_kinds
    (immer : option ExtractorDigraphDef → list Patch → Outcome (option ExtractorDigraphDef))
    (project : Project) (file : string) (index : nat) (patches : list Patch)
    (edgeId : string) (edge : Edge.t) (call : CallExpression)
    (pms : ProjectMachineState) (def : ExtractorDigraphDef) (source : Node.t) :
  addEdgePatch edgeId edge ∈ patches →
  pms_digraph pms = Some def →
  nodes (digraph def) !! Edge.source edge = Some source →
  match Edge.eventTypeData (Edge.data edge) with
  | after | wildcard | init =>
      getTransitionInsertionPath edge pms = Throw NotImplemented
      ∧ raises (applyPatch call pms (addEdgePatch edgeId edge))
      ∧ isOk (applyPatches immer project file index patches) = false
  | named eventType =>
      getTransitionInsertionPath edge pms = Ok [SegmentName "on"; SegmentName eventType]
  | always => getTransitionInsertionPath edge pms = Ok [SegmentName "always"]
  | state_done => getTransitionInsertionPath edge pms = Ok [SegmentName "onDone"]
  | invocation_done invocationId =>
      getTransitionInsertionPath edge pms
      = Ok [SegmentName "invoke";
            SegmentIndex (indexOf invocationId (Node.invoke (Node.data source)));
            SegmentName "onDone"]
  | invocation_error invocationId =>
      getTransitionInsertionPath edge pms
      = Ok [SegmentName "invoke";
            SegmentIndex (indexOf invocationId (Node.invoke (Node.data source)));
            SegmentName "onError"]
  end.
Proof.
  intros Hin Hdef Hsource.
  assert (Hraise : ∀ call' st,
            unsupportedForInsertion (Edge.eventTypeData (Edge.data edge)) = true →
            raises (applyPatch call' st (addEdgePatch edgeId edge))).
  { intros call' st Hkind. unfold applyPatch, raises; simpl.
    pose proof (findObjectLiteral_fuel call'
                  (astNodes (pms_astPaths st) !! Edge.source edge)) as Hfuel.
    pose proof (findObjectLiteral_typed call'
                  (astNodes (pms_astPaths st) !! Edge.source edge)) as Htyped.
    destruct (findObjectLiteral call' _) as [[obj props]|msg| |]; simpl; [|by eexists|done..].
    unfold getTransitionInsertionPath.
    destruct (pms_digraph st); [|by eexists].
    destruct (Edge.eventTypeData (Edge.data edge)); simpl in *; try done; by eexists. }
  assert (Hreq : unsupportedForInsertion (Edge.eventTypeData (Edge.data edge)) = true →
                 isOk (applyPatches immer project file index patches) = false).
  { intros Hkind. unfold applyPatches.
    destruct (projectMachines project !! file ≫= _) as [machine|]; [|done].
    pose proof (machineApplyPatches_not_ok immer (currentProgram project) machine patches
                  _ Hin (fun c s => raises_not_ok _ (Hraise c s Hkind))) as H.
    destruct (machineApplyPatches _ _ _ _) as [[]| | |]; simpl in *; done. }
  unfold getTransitionInsertionPath. rewrite Hdef, Hsource.
  destruct (Edge.eventTypeData (Edge.data edge)) eqn:Hkind; try done;
    (split; [done|split; [apply Hraise|apply Hreq]]); done.
Qed.

Lemma getTransitionInsertionPath_kinds_witness :
  let edge := exampleEdge "n1" ["n2"] after in
  getTransitionInsertionPath edge exampleState = Throw NotImplemented
  ∧ raises (applyPatch exampleCall exampleState (addEdgePatch "e0" edge))
  ∧ isOk (applyPatches keepDigraph (createProject ∅) "machine.ts" 0
            [addEdgePatch "e0" edge]) = false.
Proof.
  apply (getTransitionInsertionPath_kinds keepDigraph (createProject ∅) "machine.ts" 0
           [addEdgePatch "e0" (exampleEdge "n1" ["n2"] after)] "e0"
           (exampleEdge "n1" ["n2"] after) exampleCall exampleState
           {| root := "n0"; digraph := exampleDigraph |} (exampleNode "n1" (Some "n0") "a")).
  - apply list_elem_of_singleton. reflexivity.
  - reflexivity.
  - vm_compute. reflexivity.
Defined.

(** ** The transition written for an added edge (C5) *)

Lemma mapOutcome_fmap {A B C} (f : A → Outcome B) (g : B → C) (l : list A) (ys : list B) :
  mapOutcome f l = Ok ys →
  mapOutcome (fun x => y ← f x; Ok (g y)) l = Ok (g <$> ys).
Proof.
  revert ys. induction l as [|x rest IH]; intros ys; simpl.
  - by intros [= <-].
  - destruct (f x) as [y| | |]; simpl; try done.
    destruct (mapOutcome f rest) as [ys'| | |]; simpl; try done.
    intros [= <-]. by rewrite (IH ys' eq_refl).
Qed.

(** C5, at the failing input: an edge from [a] with the two targets [b] and
    [a1] and no other field is written as the bare array [["b", ".a1"]],
    which is neither a descriptor string nor an object literal with
    [target]. Read back by the extraction, [NEXT: ["b", ".a1"]] is two
    transitions of one target each, where [NEXT: { target: ["b", ".a1"] }]
    is one transition of two targets: the edge that was added is not the
    edge that is written. *)
Lemma toTransitionElement_two_targets :
  toTransitionElement (exampleEdge "n1" ["n2"; "n3"] (named "NEXT")) exampleState
  = Ok (c_array [c_string "b" false; c_string ".a1" false])
  ∧ (∀ d m, toTransitionElement (exampleEdge "n1" ["n2"; "n3"] (named "NEXT")) exampleState
            ≠ Ok (c_string d m))
  ∧ (∀ ps, toTransitionElement (exampleEdge "n1" ["n2"; "n3"] (named "NEXT")) exampleState
           ≠ Ok (c_object ps))
  ∧ (∃ pms supply,
       extractProjectMachine (transitionCall bareTargets) 0 = Ok (pms, supply)
       ∧ pms_errors pms = [] ∧ length <$> edgeTargets pms = [1; 1])
  ∧ (∃ pms supply,
       extractProjectMachine
         (transitionCall (EObjectLiteral [PropertyAssignment (NIdentifier "target") bareTargets]))
         0 = Ok (pms, supply)
       ∧ pms_errors pms = [] ∧ length <$> edgeTargets pms = [2]).
Proof.
  assert (H : toTransitionElement (exampleEdge "n1" ["n2"; "n3"] (named "NEXT")) exampleState
              = Ok (c_array [c_string "b" false; c_string ".a1" false]))
    by (vm_compute; reflexivity).
  rewrite H. repeat split; try congruence;
    eexists _, _; (split; [vm_compute; reflexivity|]); split; vm_compute; reflexivity.
Qed.

(** X32. The transition written for an edge is its target element alone
    when the edge has no guard, is internal and has no description; the
    target element is the descriptor string for one target, an array of the
    descriptor strings for several targets and [undefined] for none.
    Otherwise it is an object literal with [target] followed by [guard] (the
    source id of the guard block) when a guard is set, [reenter: true] when
    [internal] is false, and [description] when a description is set. *)
Theorem toTransitionElement_shape (edge : Edge.t) (pms : ProjectMachineState)
    (descriptors : list string) :
  mapOutcome (fun t => getBestTargetDescriptor (Edge.source edge) t pms) (Edge.targets edge)
    = Ok descriptors →
  (is_Some (truthyOpt (Edge.guard (Edge.data edge))) → is_Some (guardSourceId edge pms)) →
  toTransitionElement edge pms
  = Ok (match otherTransitionProperties edge pms with
        | [] => targetElement descriptors
        | others => c_object (c_property "target" (targetElement descriptors) :: others)
        end).
Proof.
  intros Hdesc Hguard. unfold toTransitionElement.
  assert (Htarget : transitionTarget edge pms = Ok (targetElement descriptors)).
  { unfold transitionTarget.
    destruct (Edge.targets edge) as [|t1 [|t2 rest]] eqn:Htargets.
    - simpl in Hdesc. by injection Hdesc as <-.
    - simpl in Hdesc.
      destruct (getBestTargetDescriptor _ t1 pms) as [d| | |]; simpl in *; try done.
      by injection Hdesc as <-.
    - rewrite (mapOutcome_fmap _ (fun d => c_string d false) _ _ Hdesc). simpl.
      simpl in Hdesc.
      destruct (getBestTargetDescriptor _ t1 pms) as [d1| | |]; simpl in *; try done.
      destruct (getBestTargetDescriptor _ t2 pms) as [d2| | |]; simpl in *; try done.
      destruct (mapOutcome _ rest) as [ds| | |]; simpl in *; try done.
      by injection Hdesc as <-. }
  rewrite Htarget. simpl.
  unfold otherTransitionProperties, transitionGuard, guardSourceId in *.
  unfold transitionReenter, transitionDescription.
  destruct (truthyOpt (Edge.guard (Edge.data edge))) as [guardId|]; simpl in *.
  - destruct Hguard as [s Hs]; [by eexists|].
    destruct (pms_digraph pms) as [def|]; simpl in *; [|done].
    destruct (blocks (digraph def) !! guardId) as [block|]; simpl in *; [|done].
    destruct (Edge.internal (Edge.data edge)); simpl;
      destruct (truthyOpt (Edge.description (Edge.data edge))); reflexivity.
  - destruct (Edge.internal (Edge.data edge)); simpl;
      destruct (truthyOpt (Edge.description (Edge.data edge))); reflexivity.
Qed.

Lemma toTransitionElement_shape_witness :
  toTransitionElement (exampleEdge "n1" ["n2"] (named "NEXT")) exampleState
  = Ok (c_string "b" false).
Proof.
  apply (toTransitionElement_shape (exampleEdge "n1" ["n2"] (named "NEXT")) exampleState ["b"]).
  - vm_compute. reflexivity.
  - intros [g Hg]. vm_compute in Hg. discriminate.
Defined.

(** ** Properties found by the reverse scan *)

Lemma findProperty_scan_Some rprops key errs p :
  findProperty_scan rprops key = (errs, Some p) →
  (prop_index p, PropertyAssignment (prop_name p) (prop_initializer p)) ∈ rprops
  ∧ (getPropertyKey (prop_name p)).2 = Some key.
Proof.
  revert errs. induction rprops as [|[i prop] rest IH]; intros errs; simpl; [done|].
  destruct prop as [name initializer| | | | |];
    try (intros H; destruct (IH _ H); split; [by apply elem_of_cons; right|done]).
  destruct (getPropertyKey name) as [errs0 k] eqn:Hkey.
  case_bool_decide as Hk.
  - intros [= <- <-]. simpl. rewrite Hkey. split; [apply elem_of_cons; by left|done].
  - destruct (findProperty_scan rest key) as [errs' r] eqn:Hrest.
    intros [= <- ->]. destruct (IH _ eq_refl). split; [by apply elem_of_cons; right|done].
Qed.

Lemma findProperty_scan_None rprops key errs :
  findProperty_scan rprops key = (errs, None) →
  ∀ i name initializer,
    (i, PropertyAssignment name initializer) ∈ rprops → (getPropertyKey name).2 ≠ Some key.
Proof.
  revert errs. induction rprops as [|[i prop] rest IH]; intros errs; simpl.
  { intros _ ? ? ? Hin. by apply elem_of_nil in Hin. }
  destruct prop as [name initializer| | | | |];
    try (intros H j n e Hin; apply elem_of_cons in Hin as [[= ]|Hin]; by eapply IH).
  destruct (getPropertyKey name) as [errs0 k] eqn:Hkey.
  case_bool_decide as Hk; [done|].
  destruct (findProperty_scan rest key) as [errs' r] eqn:Hrest.
  intros [= <- ->] j n e Hin. apply elem_of_cons in Hin as [[= -> -> ->]|Hin].
  - by rewrite Hkey.
  - by eapply IH.
Qed.

Lemma elem_of_indexed {A} (l : list A) i x : (i, x) ∈ indexed l ↔ l !! i = Some x.
Proof.
  unfold indexed. rewrite list_elem_of_lookup. split.
  - intros [j Hj]. rewrite list_lookup_imap in Hj.
    destruct (l !! j) eqn:E; simpl in Hj; [|done]. by injection Hj as -> ->.
  - intros H. exists i. rewrite list_lookup_imap, H. done.
Qed.

Lemma findProperty_Some props key errs p :
  findProperty props key = (errs, Some p) →
  props !! prop_index p = Some (PropertyAssignment (prop_name p) (prop_initializer p))
  ∧ (getPropertyKey (prop_name p)).2 = Some key.
Proof.
  intros H. apply findProperty_scan_Some in H as [Hin Hk]. split; [|done].
  rewrite elem_of_reverse in Hin. by apply elem_of_indexed in Hin.
Qed.

Lemma findProperty_None props key errs :
  findProperty props key = (errs, None) →
  ∀ i name initializer,
    props !! i = Some (PropertyAssignment name initializer) →
    (getPropertyKey name).2 ≠ Some key.
Proof.
  intros H i name initializer Hi.
  eapply (findProperty_scan_None _ _ _ H i). rewrite elem_of_reverse.
  apply elem_of_indexed. exact Hi.
Qed.

(** ** Default values are never written (C4) *)

(** C4, at the failing inputs: on [createMachine({ type: "final", [k]: 1 })]
    the patch that sets the type of the root to ["normal"] throws a
    TypeError, since [findProperty] is called without a context and the
    scan passes the computed key before it reaches [type]: no property is
    removed. On [createMachine({ type: "final", type: "parallel" })] the same
    patch removes the second [type] alone, and [type: "final"] stays. *)
Lemma default_value_computed_key :
  applyPatch (stateCall computedKeyState) exampleState
    (replaceDataPatch "n0" "type" (ValueString "normal"))
  = Throw TypeError
  ∧ applyPatch (stateCall twiceTypedState) exampleState
      (replaceDataPatch "n0" "type" (ValueString "normal"))
    = Ok [removeProperty []
            {| prop_index := 1; prop_name := NIdentifier "type";
               prop_initializer := EStringLiteral DoubleQuote "parallel" |}].
Proof. split; vm_compute; reflexivity. Qed.

(** X31. A replace patch that sets [type] to ["normal"], or [history] to
    ["shallow"] or to absent, records nothing but the removal of a property.
    When the state literal is found, what the patch does follows the reverse
    scan of [findProperty] for that key: it throws a TypeError when the scan
    has an error to record (there is no context to record it in), it is the
    removal of the property assignment the scan finds otherwise, the last
    one declared under that key, and no change when the scan finds none. *)
Theorem default_value_removes_property (call : CallExpression)
    (currentState : ProjectMachineState) (nodeId field : string) (v : PatchValue) :
  (field, v) ∈ defaultFieldValues →
  (∀ changes, applyPatch call currentState (replaceDataPatch nodeId field v) = Ok changes →
              Forall isRemoval changes)
  ∧ (∀ obj props,
       findObjectLiteral call (astNodes (pms_astPaths currentState) !! nodeId) = Ok (obj, props) →
       match findProperty props field with
       | (_ :: _, _) =>
           applyPatch call currentState (replaceDataPatch nodeId field v) = Throw TypeError
       | ([], Some p) =>
           applyPatch call currentState (replaceDataPatch nodeId field v)
             = Ok [removeProperty obj p]
           ∧ props !! prop_index p
             = Some (PropertyAssignment (prop_name p) (prop_initializer p))
           ∧ (getPropertyKey (prop_name p)).2 = Some field
       | ([], None) =>
           applyPatch call currentState (replaceDataPatch nodeId field v) = Ok []
           ∧ ∀ i name initializer,
               props !! i = Some (PropertyAssignment name initializer) →
               (getPropertyKey name).2 ≠ Some field
       end).
Proof.
  intros Hfield.
  assert (Hshape : applyPatch call currentState (replaceDataPatch nodeId field v)
            = ('(obj, node) ← findObjectLiteral call
                                 (astNodes (pms_astPaths currentState) !! nodeId);
               found ← findPropertyNoCtx node field;
               Ok (removeIfPresent obj found))).
  { unfold defaultFieldValues in Hfield.
    repeat (apply elem_of_cons in Hfield as [[= -> ->]|Hfield]); [..|by apply elem_of_nil in Hfield];
      reflexivity. }
  split.
  - intros changes. rewrite Hshape.
    destruct (findObjectLiteral _ _) as [[obj node]| | |]; simpl; try done.
    destruct (findPropertyNoCtx node field) as [[p|]| | |]; simpl; try done;
      intros [= <-]; repeat constructor.
  - intros obj props Hobj. rewrite Hshape, Hobj. simpl.
    unfold findPropertyNoCtx.
    destruct (findProperty props field) as [[|e errs] [p|]] eqn:Hfound; simpl; try done.
    + split; [done|]. by eapply findProperty_Some.
    + split; [done|]. by eapply findProperty_None.
Qed.

Lemma default_value_removes_property_witness :
  applyPatch {| call_expression := EIdentifier "createMachine"; call_arguments := [typedState] |}
    exampleState (replaceDataPatch "n0" "type" (ValueString "normal"))
  = Ok [removeProperty []
          {| prop_index := 0; prop_name := NIdentifier "type";
             prop_initializer := EStringLiteral DoubleQuote "final" |}].
Proof.
  refine (proj1 (proj2 (default_value_removes_property
    {| call_expression := EIdentifier "createMachine"; call_arguments := [typedState] |}
    exampleState "n0" "type" (ValueString "normal") _)
    [] [PropertyAssignment (NIdentifier "type") (EStringLiteral DoubleQuote "final")] _)).
  - apply elem_of_cons. by left.
  - vm_compute. reflexivity.
Defined.

(** ** Machines of a project (C7) *)

Lemma getDigraphs_states program supply machines machines' supply' results :
  getDigraphs program supply machines = Ok (machines', supply', results) →
  Forall (fun machine => is_Some (state machine)) machines'
  ∧ length machines' = length machines ∧ length results = length machines.
Proof.
  revert supply machines' supply' results.
  induction machines as [|machine rest IH]; intros supply machines' supply' results; simpl.
  - intros [= <- <- <-]. by repeat split.
  - unfold getDigraph.
    destruct (findOwnCreateMachineCall program machine) as [[sf call]| | |]; simpl; try done.
    destruct (extractProjectMachine call supply) as [[newState supply1]| | |]; simpl; try done.
    destruct (getDigraphs program supply1 rest) as [[[rest' supply2] results']| | |] eqn:Hrest;
      simpl; try done.
    intros [= <- <- <-]. destruct (IH _ _ _ _ Hrest) as (Hall & Hlen & Hres).
    repeat split; simpl; [|congruence..]. constructor; [by eexists|done].
Qed.

(** A successful [getMachinesInFile] on a file of the program leaves a
    machine with extracted state for every index it answered for. *)
Lemma getMachinesInFile_establishes project file project' results :
  getMachinesInFile project file = Ok (project', results) →
  is_Some (currentProgram project !! file) ∨ is_Some (projectMachines project !! file) →
  ∃ machines, projectMachines project' !! file = Some machines
    ∧ length machines = length results
    ∧ Forall (fun machine => is_Some (state machine)) machines.
Proof.
  unfold getMachinesInFile. intros H Hfile.
  destruct (projectMachines project !! file) as [existing|] eqn:Hexisting.
  - destruct (getDigraphs _ _ existing) as [[[ms s] rs]| | |] eqn:Hd; simpl in H; try done.
    injection H as <- <-. apply getDigraphs_states in Hd as (Hall & Hlen & Hres).
    exists ms. simpl. rewrite lookup_insert_eq. repeat split; [congruence|done].
  - destruct Hfile as [[sf Hsf]|[? ?]]; [|done]. rewrite Hsf in H.
    destruct (getDigraphs _ _ _) as [[[ms s] rs]| | |] eqn:Hd; simpl in H; try done.
    injection H as <- <-. apply getDigraphs_states in Hd as (Hall & Hlen & Hres).
    exists ms. simpl. rewrite lookup_insert_eq. repeat split; [congruence|done].
Qed.

(** C7, counterexample: after [getMachinesInFile] has established the state
    of machine 0 of the file, and the program has been updated to a version
    of the file without the call, [applyPatches] for that machine raises
    "Machine not found" although its state exists. *)
Lemma applyPatches_machine_not_found_with_state :
  (∃ machine st,
     projectMachines extractedProject !! "machine.ts" ≫= (fun ms => ms !! 0) = Some machine
     ∧ state machine = Some st)
  ∧ applyPatches keepDigraph (updateTsProgram extractedProject programWithoutMachine)
      "machine.ts" 0 []
    = Throw MachineNotFound.
Proof.
  split.
  - eexists _, _. vm_compute. split; reflexivity.
  - vm_compute. reflexivity.
Qed.

(** C7, amended: [applyPatches] raises "Machine not found" when no machine
    was created for the file and index by an earlier [getMachinesInFile].
    When the machine exists, the request goes to it: it raises "File not
    found" or "Machine not found" when the current program no longer has the
    file or the call, and when it has them, the digraph has been patched and
    every patch has been applied, it returns the code changes of the patches
    in order. *)
Theorem applyPatches_machine_lookup
    (immer : option ExtractorDigraphDef → list Patch → Outcome (option ExtractorDigraphDef))
    (project : Project) (file : string) (index : nat) (patches : list Patch) :
  match projectMachines project !! file ≫= (fun machines => machines !! index) with
  | None => applyPatches immer project file index patches = Throw MachineNotFound
  | Some machine =>
      match currentProgram project !! fileName machine with
      | None => applyPatches immer project file index patches = Throw FileNotFound
      | Some sourceFile =>
          match findCreateMachineCalls sourceFile !! machineIndex machine with
          | None => applyPatches immer project file index patches = Throw MachineNotFound
          | Some call =>
              ∀ st patched changes,
                state machine = Some st →
                immer (pms_digraph st) patches = Ok patched →
                applyPatchList call (withDigraph patched st) patches = Ok changes →
                ∃ project',
                  applyPatches immer project file index patches = Ok (project', changes)
          end
      end
  end.
Proof.
  unfold applyPatches, machineApplyPatches, findOwnCreateMachineCall.
  destruct (projectMachines project !! file ≫= _) as [machine|]; [|done].
  destruct (currentProgram project !! fileName machine) as [sourceFile|]; [|done].
  destruct (findCreateMachineCalls sourceFile !! machineIndex machine) as [call|]; [|done].
  intros st patched changes Hst Himmer Hchanges. simpl.
  rewrite Hst, Himmer. simpl. rewrite Hchanges. simpl. by eexists.
Qed.

Lemma applyPatches_machine_lookup_witness :
  ∃ project', applyPatches keepDigraph extractedProject "machine.ts" 0 [] = Ok (project', []).
Proof.
  pose proof (applyPatches_machine_lookup keepDigraph extractedProject "machine.ts" 0 []) as H.
  vm_compute in H. eapply H; reflexivity.
Defined.

(** ** The reference resolver (C3) *)

Lemma childNode_ext ctx1 ctx2 node segment :
  treeNodes ctx1 = treeNodes ctx2 → childNode ctx1 node segment = childNode ctx2 node segment.
Proof. unfold childNode, treeNodeRef. by intros ->. Qed.

Lemma nextMarker_ext ctx1 ctx2 marker segment :
  treeNodes ctx1 = treeNodes ctx2 →
  nextMarker ctx1 marker segment = nextMarker ctx2 marker segment.
Proof.
  intros H. destruct marker; simpl; try done.
  - by rewrite (childNode_ext ctx1 ctx2 _ _ H).
  - rewrite (childNode_ext ctx1 ctx2 _ _ H).
    destruct (childNode ctx2 node "children"); try done.
    by rewrite (childNode_ext ctx1 ctx2 _ _ H).
Qed.

Lemma walkPath_ext ctx1 ctx2 marker segments :
  treeNodes ctx1 = treeNodes ctx2 → walkPath ctx1 marker segments = walkPath ctx2 marker segments.
Proof.
  intros H. revert marker. induction segments as [|segment rest IH]; intros marker; simpl; [done|].
  rewrite (nextMarker_ext ctx1 ctx2 _ _ H).
  destruct (truthy segment); [|done].
  destruct (nextMarker ctx2 marker segment) as [next| | |]; simpl; try done.
  destruct (truthyValue next); [apply IH|done].
Qed.

Lemma markerId_ext ctx1 ctx2 marker :
  treeNodes ctx1 = treeNodes ctx2 → markerId ctx1 marker = markerId ctx2 marker.
Proof. intros H. destruct marker; simpl; try done. by apply childNode_ext. Qed.

Lemma resolvePathOrigin_ext ctx1 ctx2 sourceId origin :
  treeNodes ctx1 = treeNodes ctx2 →
  idToNodeIdMap ctx1 = idToNodeIdMap ctx2 →
  resolvePathOrigin ctx1 sourceId origin = resolvePathOrigin ctx2 sourceId origin.
Proof.
  intros Ht Hi. unfold resolvePathOrigin, treeNodeRef, originKey.
  destruct origin as [[|c rest]|]; rewrite ?Ht, ?Hi; try done.
  destruct (Ascii.eqb c hash); [done|].
  destruct (treeNodes ctx2 !! sourceId) as [source|]; [|done].
  destruct (truthyOpt (TreeNode.parentId source)) as [p|]; [|done].
  destruct (treeNodes ctx2 !! p) as [parent|]; [|done].
  by rewrite (childNode_ext ctx1 ctx2 _ _ Ht).
Qed.

Lemma resolveTarget_ext ctx1 ctx2 sourceId target :
  treeNodes ctx1 = treeNodes ctx2 →
  idToNodeIdMap ctx1 = idToNodeIdMap ctx2 →
  resolveTarget ctx1 sourceId target = resolveTarget ctx2 sourceId target.
Proof.
  intros Ht Hi. unfold resolveTarget.
  rewrite (resolvePathOrigin_ext ctx1 ctx2 _ _ Ht Hi).
  destruct (resolvePathOrigin ctx2 sourceId _) as [origin| | |]; simpl; try done.
  destruct (truthyValue origin); [|done].
  rewrite (walkPath_ext ctx1 ctx2 _ _ Ht).
  destruct (walkPath ctx2 origin _) as [[marker|]| | |]; simpl; try done.
  by rewrite (markerId_ext ctx1 ctx2 _ Ht).
Qed.

Lemma resolvedTargets_ext ctx1 ctx2 sourceId targets :
  treeNodes ctx1 = treeNodes ctx2 →
  idToNodeIdMap ctx1 = idToNodeIdMap ctx2 →
  resolvedTargets ctx1 sourceId targets = resolvedTargets ctx2 sourceId targets
  ∧ flat_map (targetErrors ctx1 sourceId) targets = flat_map (targetErrors ctx2 sourceId) targets.
Proof.
  intros Ht Hi. split.
  - unfold resolvedTargets. apply list_omap_ext, Forall2_same_length_lookup.
    split; [done|]. intros i x y Hx Hy. assert (x = y) as -> by congruence.
    by rewrite (resolveTarget_ext ctx1 ctx2 _ _ Ht Hi).
  - induction targets as [|t rest IH]; simpl; [done|].
    unfold targetErrors at 1 3. by rewrite (resolveTarget_ext ctx1 ctx2 _ _ Ht Hi), IH.
Qed.

Lemma resolveEdgeTargets_spec edgeId targets ctx edge :
  edges (ctx_digraph ctx) !! edgeId = Some edge →
  (∀ t, t ∈ targets → resolvesPlainly ctx (Edge.source edge) t) →
  ∃ ctx',
    resolveEdgeTargets edgeId targets ctx = Ok ctx'
    ∧ edges (ctx_digraph ctx')
      = <[edgeId := setTargets (Edge.targets edge
                                ++ resolvedTargets ctx (Edge.source edge) targets) edge]>
          (edges (ctx_digraph ctx))
    ∧ errors ctx' = errors ctx ++ flat_map (targetErrors ctx (Edge.source edge)) targets
    ∧ treeNodes ctx' = treeNodes ctx
    ∧ idToNodeIdMap ctx' = idToNodeIdMap ctx
    ∧ originalTargets ctx' = originalTargets ctx
    ∧ nodes (ctx_digraph ctx') = nodes (ctx_digraph ctx).
Proof.
  revert ctx edge. induction targets as [|t rest IH]; intros ctx edge Hedge Hok; simpl.
  - exists ctx. unfold resolvedTargets. simpl. rewrite !app_nil_r.
    repeat split; try done. rewrite insert_id; [done|]. rewrite Hedge. by destruct edge.
  - rewrite Hedge. unfold resolveTargetId.
    pose proof (Hok t ltac:(apply elem_of_cons; by left)) as Ht.
    assert (Hrest : ∀ ctx1 : ExtractionContext,
              treeNodes ctx1 = treeNodes ctx → idToNodeIdMap ctx1 = idToNodeIdMap ctx →
              ∀ t', t' ∈ rest → resolvesPlainly ctx1 (Edge.source edge) t').
    { intros ctx1 E1 E2 t' Hin. unfold resolvesPlainly.
      rewrite (resolveTarget_ext ctx1 ctx) by done.
      apply Hok, elem_of_cons. by right. }
    unfold resolvesPlainly in Ht. unfold resolvedTargets, targetErrors; simpl.
    destruct (resolveTarget ctx (Edge.source edge) t) as [[[|id| | |]|]| | |] eqn:Hres;
      simpl in *; try done.
    + set (ctx1 := setErrors _ ctx).
      destruct (IH ctx1 edge) as (ctx' & Hrun & He & Herr & Ht' & Hi' & Ho' & Hn');
        [done|by apply Hrest|].
      destruct (resolvedTargets_ext ctx1 ctx (Edge.source edge) rest) as [E1 E2]; [done..|].
      exists ctx'. rewrite Hrun. simpl in *. rewrite E1 in He. rewrite E2 in Herr.
      repeat split; try done. rewrite Herr. by rewrite <- app_assoc.
    + destruct (truthy id) eqn:Hid; simpl.
      * set (ctx1 := setDigraph _ ctx).
        destruct (IH ctx1 (Edge.pushTarget id edge))
          as (ctx' & Hrun & He & Herr & Ht' & Hi' & Ho' & Hn').
        { subst ctx1. simpl. by rewrite lookup_alter_eq, Hedge. }
        { by apply Hrest. }
        destruct (resolvedTargets_ext ctx1 ctx (Edge.source edge) rest) as [E1 E2]; [done..|].
        exists ctx'. rewrite Hrun. simpl in *. rewrite E1 in He. rewrite E2 in Herr.
        repeat split; try done.
        rewrite He. subst ctx1. simpl.
        rewrite <- app_assoc. simpl.
        apply map_eq. intros k. destruct (decide (k = edgeId)) as [->|Hne].
        -- by rewrite !lookup_insert_eq.
        -- by rewrite !lookup_insert_ne, lookup_alter_ne.
      * set (ctx1 := setErrors _ ctx).
        destruct (IH ctx1 edge) as (ctx' & Hrun & He & Herr & Ht' & Hi' & Ho' & Hn');
          [done|by apply Hrest|].
        destruct (resolvedTargets_ext ctx1 ctx (Edge.source edge) rest) as [E1 E2]; [done..|].
        exists ctx'. rewrite Hrun. simpl in *. rewrite E1 in He. rewrite E2 in Herr.
        repeat split; try done. rewrite Herr. by rewrite <- app_assoc.
    + set (ctx1 := setErrors _ (setErrors _ ctx)).
      destruct (IH ctx1 edge) as (ctx' & Hrun & He & Herr & Ht' & Hi' & Ho' & Hn');
        [done|by apply Hrest|].
      destruct (resolvedTargets_ext ctx1 ctx (Edge.source edge) rest) as [E1 E2]; [done..|].
      exists ctx'. rewrite Hrun. simpl in *. rewrite E1 in He. rewrite E2 in Herr.
      repeat split; try done. rewrite Herr. by rewrite <- !app_assoc.
Qed.

(** C3, at the failing inputs. In [createMachine({ states: { a: { on: { GO:
    'toString' } } } })] the target names no sibling of [a], yet the
    [children] table of the root gives the function it inherits under that
    name: no [transition_target_unresolved] is recorded, and the target is
    dropped with [transition_property_unhandled] alone. With the target
    ['.toString.x'] the walk goes on from that function, whose [children]
    is [undefined], and the extraction as a whole throws a [TypeError]. *)
Lemma resolveTargets_inherited_member :
  (∃ pms supply,
     extractProjectMachine inheritedTargetCall 0 = Ok (pms, supply)
     ∧ pms_errors pms = [transition_property_unhandled]
     ∧ transition_target_unresolved ∉ pms_errors pms)
  ∧ extractProjectMachine inheritedPathCall 0 = Throw TypeError.
Proof.
  split; [|vm_compute; reflexivity].
  eexists _, _. split; [vm_compute; reflexivity|]. split; [reflexivity|].
  intros Hin. apply list_elem_of_singleton in Hin. discriminate.
Qed.

(** X29. The loop of [resolveTargets] over the raw targets of an edge
    resolves each target on its own, against the tree as it is: when no
    resolution throws or ends with a tree node in the place of an id, the
    ids of the targets that resolve are appended to the targets of the edge
    in order, and a target that does not resolve adds its errors and nothing
    else, so that the other targets of the edge are not affected. *)
Theorem resolveEdgeTargets_each_target (ctx : ExtractionContext) (edgeId : string)
    (edge : Edge.t) (targets : list string) :
  edges (ctx_digraph ctx) !! edgeId = Some edge →
  (∀ t, t ∈ targets → resolvesPlainly ctx (Edge.source edge) t) →
  ∃ ctx',
    resolveEdgeTargets edgeId targets ctx = Ok ctx'
    ∧ edges (ctx_digraph ctx')
      = <[edgeId := setTargets (Edge.targets edge
                                ++ resolvedTargets ctx (Edge.source edge) targets) edge]>
          (edges (ctx_digraph ctx))
    ∧ errors ctx' = errors ctx ++ flat_map (targetErrors ctx (Edge.source edge)) targets.
Proof.
  intros Hedge Hok.
  destruct (resolveEdgeTargets_spec edgeId targets ctx edge Hedge Hok)
    as (ctx' & Hrun & He & Herr & _).
  by exists ctx'.
Qed.

Lemma resolveEdgeTargets_each_target_witness :
  ∃ ctx',
    resolveEdgeTargets "e0" ["b"; "missing"] exampleContextWithEdge = Ok ctx'
    ∧ Edge.targets <$> edges (ctx_digraph ctx') !! "e0" = Some ["n2"]
    ∧ errors ctx' = [transition_target_unresolved; transition_property_unhandled].
Proof.
  destruct (resolveEdgeTargets_each_target exampleContextWithEdge "e0"
              (exampleEdge "n1" [] (named "NEXT")) ["b"; "missing"])
    as (ctx' & Hrun & He & Herr).
  - vm_compute. reflexivity.
  - intros t Hin. apply elem_of_cons in Hin as [->|Hin]; [vm_compute; exact I|].
    apply elem_of_cons in Hin as [->|Hin]; [vm_compute; exact I|].
    by apply elem_of_nil in Hin.
  - exists ctx'. split; [exact Hrun|]. rewrite He, Herr. split; vm_compute; reflexivity.
Defined.

(** ** What a step of the extraction leaves unchanged *)

Section Keeps.
Context (R : relation ExtractionContext) `{!Reflexive R, !Transitive R}.

Lemma keeps_ret {A} (a : A) : keeps R (mret a).
Proof. intros ctx. simpl. reflexivity. Qed.

Lemma keeps_bind {A B} (m : Extract A) (k : A → Extract B) :
  keeps R m → (∀ a, keeps R (k a)) → keeps R (m ≫= k).
Proof.
  intros Hm Hk ctx. unfold mbind, Extract_bind.
  specialize (Hm ctx). destruct (m ctx) as [a ctx1]. simpl in Hm.
  etransitivity; [exact Hm|]. apply Hk.
Qed.

End Keeps.

#[global] Instance sameGraph_refl : Reflexive sameGraph.
Proof. by intros ctx. Qed.

#[global] Instance sameGraph_trans : Transitive sameGraph.
Proof.
  intros a b c (? & ? & ? & ?) (? & ? & ? & ?).
  repeat split; [congruence..|by etransitivity].
Qed.

Lemma yields_ret {A} (P : A → Prop) (a : A) : P a → yields P (mret a).
Proof. intros H ctx. exact H. Qed.

Lemma yields_bind {A B} (P : B → Prop) (m : Extract A) (k : A → Extract B) :
  (∀ a, yields P (k a)) → yields P (m ≫= k).
Proof.
  intros Hk ctx. unfold mbind, Extract_bind. destruct (m ctx) as [a ctx1]. apply Hk.
Qed.

Create HintDb keeps discriminated.

(** Steps through binds, returns and case analysis; what is left is closed
    with the lemmas of the hint database. *)
Ltac keeps_step :=
  first
    [ solve [eauto with keeps]
    | apply keeps_ret; [typeclasses eauto..]
    | apply keeps_bind; [typeclasses eauto| |intros ?]
    | match goal with
      | |- keeps _ (match ?x with _ => _ end) => destruct x
      | |- keeps _ (if ?b then _ else _) => destruct b
      end ].

Ltac keeps_auto := repeat keeps_step.

Lemma keeps_pushError e : keeps sameGraph (pushError e).
Proof. by intros ctx. Qed.

Lemma keeps_pushErrors es : keeps sameGraph (pushErrors es).
Proof. by intros ctx. Qed.

Lemma keeps_uniqueId : keeps sameGraph uniqueId.
Proof. by intros ctx. Qed.

Lemma keeps_enterAstPathSegment i : keeps sameGraph (enterAstPathSegment i).
Proof. by intros ctx. Qed.

Lemma keeps_exitAstPathSegment : keeps sameGraph exitAstPathSegment.
Proof. by intros ctx. Qed.

Lemma keeps_modifyDigraph f :
  (∀ d, edges (f d) = edges d ∧ dom (nodes d) ⊆ dom (nodes (f d))) →
  keeps sameGraph (modifyDigraph f).
Proof. intros H ctx. repeat split; simpl; apply H. Qed.

Lemma keeps_modifyNodeData id f : keeps sameGraph (modifyNodeData id f).
Proof. apply keeps_modifyDigraph. intros d. split; [done|]. simpl. by rewrite dom_alter_L. Qed.

Lemma keeps_getNodeData id : keeps sameGraph (getNodeData id).
Proof. by intros ctx. Qed.

#[global] Hint Resolve keeps_pushError keeps_pushErrors keeps_uniqueId
  keeps_enterAstPathSegment keeps_exitAstPathSegment keeps_modifyNodeData
  keeps_getNodeData : keeps.

Lemma keeps_withAstPathSegment {T} i (cb : Extract T) :
  keeps sameGraph cb → keeps sameGraph (withAstPathSegment i cb).
Proof. intros H. unfold withAstPathSegment. keeps_auto. Qed.

Lemma keeps_mapElements {T} (cb : Expr → nat → Extract T) elements i :
  (∀ e j, keeps sameGraph (cb e j)) → keeps sameGraph (mapElements cb elements i).
Proof.
  intros H. revert i. induction elements as [|e rest IH]; intros i; simpl.
  - keeps_auto.
  - apply keeps_bind; [typeclasses eauto|by apply keeps_withAstPathSegment|intros r].
    apply keeps_bind; [typeclasses eauto|apply IH|intros rs]. keeps_auto.
Qed.

Lemma keeps_mapMaybeArrayElements {T} expression (cb : Expr → nat → Extract T) :
  (∀ e j, keeps sameGraph (cb e j)) → keeps sameGraph (mapMaybeArrayElements expression cb).
Proof.
  intros H. unfold mapMaybeArrayElements.
  destruct expression; try (apply keeps_bind; [typeclasses eauto|apply H|intros r; keeps_auto]).
  by apply keeps_mapElements.
Qed.

Lemma keeps_getPropertyKeyCtx name : keeps sameGraph (getPropertyKeyCtx name).
Proof. unfold getPropertyKeyCtx. keeps_auto. Qed.

Lemma keeps_findPropertyCtx obj key : keeps sameGraph (findPropertyCtx obj key).
Proof. unfold findPropertyCtx. keeps_auto. Qed.

Lemma keeps_createActionBlock sourceId parentId :
  keeps sameGraph (createActionBlock sourceId parentId).
Proof. unfold createActionBlock. keeps_auto. Qed.

Lemma keeps_createActorBlock sourceId parentId actorId :
  keeps sameGraph (createActorBlock sourceId parentId actorId).
Proof. unfold createActorBlock. keeps_auto. Qed.

Lemma keeps_createEdge sourceId eventTypeData :
  keeps sameGraph (createEdge sourceId eventTypeData).
Proof. unfold createEdge. keeps_auto. Qed.

Lemma keeps_inlineSourceId : keeps sameGraph inlineSourceId.
Proof. unfold inlineSourceId. keeps_auto. Qed.

#[global] Hint Resolve keeps_getPropertyKeyCtx keeps_findPropertyCtx
  keeps_createActionBlock keeps_createActorBlock keeps_createEdge
  keeps_inlineSourceId : keeps.

Lemma keeps_getObjectTransitionTargets transition :
  keeps sameGraph (getObjectTransitionTargets transition).
Proof.
  unfold getObjectTransitionTargets.
  apply keeps_bind; [typeclasses eauto|eauto with keeps|intros [p|]]; [|keeps_auto].
  destruct (isForbiddenTarget _); [keeps_auto|].
  apply keeps_bind; [typeclasses eauto| |intros ?; keeps_auto].
  apply keeps_mapMaybeArrayElements. intros e j. keeps_auto.
Qed.

Lemma keeps_extractActionBlocks expression parentId :
  keeps sameGraph (extractActionBlocks expression parentId).
Proof.
  unfold extractActionBlocks. apply keeps_mapMaybeArrayElements. intros e j.
  destruct (isUndefined e); [keeps_auto|].
  destruct e; keeps_auto.
Qed.

Lemma keeps_registerActionBlocks blockList container :
  keeps sameGraph (registerActionBlocks blockList container).
Proof.
  revert container. induction blockList as [|block rest IH]; intros container; simpl.
  - keeps_auto.
  - apply keeps_bind; [typeclasses eauto|by apply keeps_modifyDigraph|intros _]. apply IH.
Qed.

#[global] Hint Resolve keeps_getObjectTransitionTargets keeps_extractActionBlocks
  keeps_registerActionBlocks : keeps.

Lemma keeps_extractEdgeProperties rprops seen edge :
  keeps sameGraph (extractEdgeProperties rprops seen edge).
Proof.
  revert seen edge. induction rprops as [|prop rest IH]; intros seen edge; simpl.
  - keeps_auto.
  - destruct prop; keeps_auto.
Qed.

#[global] Hint Resolve keeps_extractEdgeProperties : keeps.

Lemma keeps_extractEdgeElement sourceId eventTypeData element :
  keeps sameGraph (extractEdgeElement sourceId eventTypeData element).
Proof.
  unfold extractEdgeElement. destruct (isForbiddenTarget element); [keeps_auto|].
  destruct element; keeps_auto.
Qed.

(** ** Edge groups register all their edges or none (C10) *)

Lemma withAstPathSegment_fst {T} i (cb : Extract T) ctx :
  (withAstPathSegment i cb ctx).1 = (cb (enterAstPathSegment i ctx).2).1.
Proof.
  unfold withAstPathSegment, mbind, Extract_bind. simpl.
  by destruct (cb _) as [r ctx1].
Qed.

Lemma mapElements_pure {T} (f : Expr → T) elements i ctx :
  (mapElements (fun e _ => mret (f e)) elements i ctx).1 = f <$> elements.
Proof.
  revert i ctx. induction elements as [|e rest IH]; intros i ctx; [done|].
  simpl. unfold mbind, Extract_bind.
  destruct (withAstPathSegment i (mret (f e)) ctx) as [r ctx1] eqn:Hr.
  assert (r = f e) as -> by (change r with (r, ctx1).1; by rewrite <- Hr).
  specialize (IH (S i) ctx1). destruct (mapElements _ rest (S i) ctx1) as [rs ctx2].
  simpl in *. by rewrite IH.
Qed.

Lemma mapMaybeArrayElements_pure {T} (f : Expr → T) expression ctx :
  (mapMaybeArrayElements expression (fun e _ => mret (f e)) ctx).1 = f <$> elementsOf expression.
Proof. destruct expression; try done. apply mapElements_pure. Qed.

Lemma everyDefined_None {T} (arr : list (option T)) :
  None ∈ arr → everyDefined arr = None.
Proof.
  induction arr as [|[x|] rest IH]; intros Hin; simpl; [by apply elem_of_nil in Hin| |done].
  apply elem_of_cons in Hin as [?|Hin]; [done|]. by rewrite IH.
Qed.

Lemma mapElements_undefined {T} (cb : Expr → nat → Extract (option T)) elements i ctx e :
  e ∈ elements →
  (∀ j ctx', (cb e j ctx').1 = None) →
  everyDefined (mapElements cb elements i ctx).1 = None.
Proof.
  intros Hin Hcb. revert i ctx.
  induction elements as [|e' rest IH]; intros i ctx; [by apply elem_of_nil in Hin|].
  simpl. unfold mbind, Extract_bind.
  destruct (withAstPathSegment i (cb e' i) ctx) as [r ctx1] eqn:Hr.
  pose proof (IH' := fun H => IH H (S i) ctx1).
  destruct (mapElements cb rest (S i) ctx1) as [rs ctx2]. simpl in *.
  apply elem_of_cons in Hin as [<-|Hin].
  - assert (r = None) as ->; [|done].
    change r with (r, ctx1).1. rewrite <- Hr, withAstPathSegment_fst. apply Hcb.
  - rewrite (IH' Hin). by destruct r.
Qed.

Lemma mapMaybeArrayElements_undefined {T} (cb : Expr → nat → Extract (option T))
    expression ctx e :
  e ∈ elementsOf expression →
  (∀ j ctx', (cb e j ctx').1 = None) →
  everyDefined (mapMaybeArrayElements expression cb ctx).1 = None.
Proof.
  intros Hin Hcb.
  destruct expression;
    try (simpl in *; apply list_elem_of_singleton in Hin as ->;
         unfold mbind, Extract_bind;
         match goal with |- context [cb ?x 0 ctx] =>
           pose proof (Hcb 0 ctx) as H; destruct (cb x 0 ctx) as [r c] end;
         simpl in *; by subst).
  simpl in *. by eapply mapElements_undefined.
Qed.

Lemma everyDefined_fmap_None {A T} (f : A → option T) (l : list A) :
  existsb (fun e => negb (bool_decide (is_Some (f e)))) l = true →
  everyDefined (f <$> l) = None.
Proof.
  intros H. apply everyDefined_None. apply existsb_exists in H as (e & Hin & He).
  apply negb_true_iff, bool_decide_eq_false in He.
  apply list_elem_of_fmap. exists e. split; [|by apply list_elem_of_In].
  destruct (f e); [|done]. exfalso. apply He. by eexists.
Qed.

Lemma extractEdgeElement_undefined sourceId eventTypeData element ctx :
  failsToProduceEdge element = true →
  (extractEdgeElement sourceId eventTypeData element ctx).1 = None.
Proof.
  unfold failsToProduceEdge, extractEdgeElement.
  destruct (isForbiddenTarget element); [done|].
  destruct element; try done.
  unfold getObjectTransitionTargets, findPropertyCtx, mbind, Extract_bind. simpl.
  destruct (findProperty properties "target") as [errs [p|]]; simpl; [|done].
  destruct (isForbiddenTarget (prop_initializer p)); [done|]. simpl.
  intros H.
  match goal with |- context [mapMaybeArrayElements ?e ?cb ?c] =>
    pose proof (mapMaybeArrayElements_pure isStringLiteralLike e c) as Hpure;
    destruct (mapMaybeArrayElements e cb c) as [targets c1] end.
  simpl in *. subst targets. by rewrite (everyDefined_fmap_None _ _ H).
Qed.

(** C10: when an element of the transitions value of an [on] or [always]
    group fails to produce an edge, no edge of the group is registered (the
    edges and the pending targets of the context are what they were), and the
    last error recorded is [transition_property_unhandled]. *)
Theorem extractEdgeGroup_all_or_nothing (transition element : Expr) (sourceId : string)
    (eventTypeData : EventTypeData) (ctx : ExtractionContext) :
  element ∈ elementsOf transition →
  failsToProduceEdge element = true →
  edges (ctx_digraph (extractEdgeGroup transition sourceId eventTypeData ctx).2)
    = edges (ctx_digraph ctx)
  ∧ originalTargets (extractEdgeGroup transition sourceId eventTypeData ctx).2
    = originalTargets ctx
  ∧ last (errors (extractEdgeGroup transition sourceId eventTypeData ctx).2)
    = Some transition_property_unhandled.
Proof.
  intros Hin Hfails. unfold extractEdgeGroup, mbind, Extract_bind.
  pose proof (mapMaybeArrayElements_undefined
                (fun element _ => extractEdgeElement sourceId eventTypeData element)
                transition ctx element Hin
                (fun _ ctx' => extractEdgeElement_undefined _ _ _ ctx' Hfails)) as Hnone.
  pose proof (keeps_mapMaybeArrayElements transition
                (fun element _ => extractEdgeElement sourceId eventTypeData element)
                (fun e _ => keeps_extractEdgeElement sourceId eventTypeData e) ctx)
    as (_ & Hedges & Htargets & _).
  destruct (mapMaybeArrayElements transition _ ctx) as [mapped ctx1]. simpl in *.
  rewrite Hnone. simpl. repeat split; [done..|]. apply last_snoc.
Qed.

Lemma extractEdgeGroup_all_or_nothing_witness :
  edges (ctx_digraph (extractEdgeGroup brokenGroup "n1" (named "NEXT") exampleContext).2) = ∅
  ∧ originalTargets (extractEdgeGroup brokenGroup "n1" (named "NEXT") exampleContext).2 = []
  ∧ last (errors (extractEdgeGroup brokenGroup "n1" (named "NEXT") exampleContext).2)
    = Some transition_property_unhandled.
Proof.
  apply (extractEdgeGroup_all_or_nothing brokenGroup (ENumericLiteral "1" "1") "n1"
           (named "NEXT") exampleContext).
  - apply elem_of_cons. by left.
  - reflexivity.
Defined.

(** ** Duplicate keys of a state literal (C1) *)

Lemma setErrors_nil ctx : setErrors (errors ctx ++ []) ctx = ctx.
Proof. destruct ctx. unfold setErrors. simpl. by rewrite app_nil_r. Qed.

Lemma seenAfter_mono rprops seen : seen ⊆ seenAfter rprops seen.
Proof.
  revert seen. induction rprops as [|prop rest IH]; intros seen; simpl; [done|].
  destruct prop; try apply IH.
  destruct (truthyOpt _); [|apply IH]. etransitivity; [|apply IH]. set_solver.
Qed.

Lemma seenAfter_key rprops seen name initializer k :
  PropertyAssignment name initializer ∈ rprops →
  (getPropertyKey name).2 = Some k → truthy k = true →
  k ∈ seenAfter rprops seen.
Proof.
  intros Hin Hkey Hk. revert seen.
  induction rprops as [|prop rest IH]; intros seen; [by apply elem_of_nil in Hin|].
  apply elem_of_cons in Hin as [<-|Hin]; simpl.
  - rewrite Hkey. simpl. rewrite Hk. apply seenAfter_mono. set_solver.
  - destruct prop; try by apply IH. destruct (truthyOpt _); by apply IH.
Qed.

Lemma extractStateProperties_app rec nodeId parentId l1 l2 seen ctx :
  extractStateProperties rec nodeId parentId (l1 ++ l2) seen ctx
  = match extractStateProperties rec nodeId parentId l1 seen ctx with
    | (Next, ctx1) => extractStateProperties rec nodeId parentId l2 (seenAfter l1 seen) ctx1
    | r => r
    end.
Proof.
  revert seen ctx. induction l1 as [|prop rest IH]; intros seen ctx; [done|].
  simpl. destruct prop as [name initializer| | | | |];
    try (unfold mbind, Extract_bind; simpl; apply IH).
  unfold mbind, Extract_bind. simpl.
  destruct (truthyOpt (getPropertyKey name).2) as [k|]; [|simpl; apply IH].
  case_bool_decide as Hseen.
  - rewrite IH. by rewrite (subseteq_union_1_L {[k]} seen) by by apply singleton_subseteq_l.
  - destruct (extractStateProperty rec nodeId parentId k initializer _) as [[| |] ctx1];
      [apply IH|done..].
Qed.

Lemma extractStateProperties_duplicate rec nodeId parentId pre post name1 value1
    name2 value2 k ctx :
  getPropertyKey name1 = ([], Some k) → truthy k = true →
  PropertyAssignment name2 value2 ∈ post → (getPropertyKey name2).2 = Some k →
  extractStateProperties rec nodeId parentId
    (reverse (pre ++ PropertyAssignment name1 value1 :: post)) ∅ ctx
  = extractStateProperties rec nodeId parentId (reverse (pre ++ post)) ∅ ctx.
Proof.
  intros Hkey1 Hk Hin Hkey2.
  rewrite !reverse_app, reverse_cons, <- app_assoc, !extractStateProperties_app.
  destruct (extractStateProperties rec nodeId parentId (reverse post) ∅ ctx)
    as [[| |] ctx1]; try done.
  simpl. unfold mbind, Extract_bind. simpl. rewrite Hkey1. simpl. rewrite Hk.
  rewrite setErrors_nil.
  rewrite bool_decide_eq_true_2; [done|].
  eapply seenAfter_key; [|exact Hkey2|exact Hk]. by apply elem_of_reverse.
Qed.

(** C1, counterexample: for the state literal with [initial: "a"] followed by
    [initial: "b"] the node's [initial] is ["b"], the last one declared, not
    the first; no error is recorded. *)
Lemma extractState_first_declared_loses :
  extractedInitial duplicateInitial = Some (Some "b")
  ∧ extractedInitial duplicateInitial ≠ Some (Some "a")
  ∧ errors (extractState 2 (Some duplicateInitial) None (freshContext 0)).2 = [].
Proof. repeat split; vm_compute; congruence. Qed.

(** C1, amended: in a state literal with two property assignments of the same
    key, the later one is the one extracted: the earlier one is ignored
    without an error, the extraction being what it is for the literal without
    it (same result, same nodes, same errors). *)
Theorem extractState_earlier_duplicate_ignored (fuel : nat) (ctx : ExtractionContext)
    (parentId : option string) (pre post : list ObjProp)
    (name1 name2 : PropName) (value1 value2 : Expr) (k : string) :
  getPropertyKey name1 = ([], Some k) →
  truthy k = true →
  PropertyAssignment name2 value2 ∈ post →
  (getPropertyKey name2).2 = Some k →
  extractState fuel
    (Some (EObjectLiteral (pre ++ PropertyAssignment name1 value1 :: post))) parentId ctx
  = extractState fuel (Some (EObjectLiteral (pre ++ post))) parentId ctx.
Proof.
  intros Hkey1 Hk Hin Hkey2. destruct fuel as [|fuel]; [done|].
  simpl. unfold extractState_body, mbind, Extract_bind. simpl.
  by rewrite (extractStateProperties_duplicate _ _ _ pre post name1 value1 name2 value2 k).
Qed.

Lemma extractState_earlier_duplicate_ignored_witness :
  extractState 2 (Some duplicateInitial) None (freshContext 0)
  = extractState 2 (Some (EObjectLiteral [initialB])) None (freshContext 0).
Proof.
  apply (extractState_earlier_duplicate_ignored 2 (freshContext 0) None [] [initialB]
           (NIdentifier "initial") (NIdentifier "initial")
           (EStringLiteral DoubleQuote "a") (EStringLiteral DoubleQuote "b") "initial").
  - reflexivity.
  - reflexivity.
  - apply elem_of_cons. by left.
  - reflexivity.
Defined.

(** ** How the loops of [extractState] end *)




Lemma yields_bind_with {A B} (Q : A → Prop) (P : B → Prop) (m : Extract A)
    (k : A → Extract B) :
  yields Q m → (∀ a, Q a → yields P (k a)) → yields P (m ≫= k).
Proof.
  intros Hm Hk ctx. unfold mbind, Extract_bind. specialize (Hm ctx).
  destruct (m ctx) as [a ctx1]. by apply Hk.
Qed.



Section Flow.
Variable rec : option Expr → option string → Extract (Outcome (option string)).
Variable nodeId : string.




End Flow.






(** ** The extraction never breaks what the resolver relies on *)

Lemma keeps_getJsonValue_chain prop : keeps sameGraph (getJsonValue_chain prop).
Proof.
  induction prop as [elements IH|properties IH|e H1 H2] using json_ind.
  - simpl.
    match goal with |- keeps _ (?loop elements []) =>
      cut (∀ arr, keeps sameGraph (loop elements arr)); [intros H; apply H|] end.
    induction IH as [|elem rest Helem _ IHrest]; intros arr; [keeps_auto|].
    apply keeps_bind; [typeclasses eauto|exact Helem|intros [[v ?]|]];
      [apply IHrest|keeps_auto].
  - simpl.
    match goal with |- keeps _ (?loop properties [] true) =>
      cut (∀ obj accessor, keeps sameGraph (loop properties obj accessor));
        [intros H; apply H|] end.
    induction IH as [|member rest Hmember _ IHrest]; intros obj accessor; [keeps_auto|].
    destruct member as [name initializer| | | | |]; try apply IHrest.
    apply keeps_bind; [typeclasses eauto|eauto with keeps|intros key].
    destruct (truthyOpt key); [|apply IHrest].
    apply keeps_bind; [typeclasses eauto|exact Hmember|intros [[v inherits]|]];
      [|keeps_auto].
    destruct (assignProperty _ v inherits obj accessor). apply IHrest.
  - destruct e; try done; simpl; keeps_auto.
Qed.

Lemma keeps_getJsonValue prop : keeps sameGraph (getJsonValue prop).
Proof.
  unfold getJsonValue. apply keeps_bind; [typeclasses eauto|apply keeps_getJsonValue_chain|].
  intros ?. keeps_auto.
Qed.

#[global] Hint Resolve keeps_getJsonValue : keeps.

Lemma keeps_getJsonObject properties : keeps sameGraph (getJsonObject properties).
Proof. unfold getJsonObject. keeps_auto. Qed.

Lemma keeps_setContext v : keeps sameGraph (modifyDigraph (setContext v)).
Proof. by apply keeps_modifyDigraph. Qed.

#[global] Hint Resolve keeps_getJsonObject keeps_setContext : keeps.

Lemma keeps_extractMeta nodeId metas : keeps sameGraph (extractMeta nodeId metas).
Proof. induction metas as [|member rest IH]; simpl; [keeps_auto|]. destruct member; keeps_auto. Qed.

Lemma keeps_extractActorBlock nodeId element : keeps sameGraph (extractActorBlock nodeId element).
Proof.
  unfold extractActorBlock. destruct (isUndefined element); [keeps_auto|].
  destruct element; keeps_auto.
Qed.

Lemma keeps_registerActorBlocks nodeId blockList :
  keeps sameGraph (registerActorBlocks nodeId blockList).
Proof.
  induction blockList as [|block rest IH]; simpl; [keeps_auto|].
  apply keeps_bind; [typeclasses eauto|eauto with keeps|intros _].
  apply keeps_bind; [typeclasses eauto|by apply keeps_modifyDigraph|intros _]. exact IH.
Qed.

Lemma keeps_extractEntryExit nodeId initializer get set :
  keeps sameGraph (extractEntryExit nodeId initializer get set).
Proof. unfold extractEntryExit. keeps_auto. Qed.

#[global] Hint Resolve keeps_extractMeta keeps_extractActorBlock keeps_registerActorBlocks
  keeps_extractEntryExit keeps_mapMaybeArrayElements : keeps.

#[global] Instance grows_refl o : Reflexive (grows o).
Proof. by intros ctx _. Qed.

#[global] Instance grows_trans o : Transitive (grows o).
Proof.
  intros a b c Hab Hbc Hpre. destruct (Hab Hpre) as (Ht & Hn & Hr).
  destruct Hbc as (Ht' & Hn' & Hr').
  { intros n Hn0. by apply Ht, Hpre. }
  split; [by transitivity (dom (treeNodes b))|].
  split; [by transitivity (dom (nodes (ctx_digraph b)))|]. intros. by apply Hr', Hr.
Qed.





Lemma elem_of_assocSet {V} (k : string) (v : V) l k' v' :
  (k', v') ∈ assocSet k v l → k' = k ∨ (k', v') ∈ l.
Proof.
  induction l as [|[k0 v0] rest IH]; simpl.
  - intros Hin. apply list_elem_of_singleton in Hin. left. congruence.
  - case_bool_decide as Hk; intros Hin; apply elem_of_cons in Hin as [Heq|Hin].
    + left. congruence.
    + right. apply elem_of_cons. by right.
    + right. apply elem_of_cons. by left.
    + destruct (IH Hin); [by left|]. right. apply elem_of_cons. by right.
Qed.



Lemma yields_withAstPathSegment {T} (P : T → Prop) i (cb : Extract T) :
  yields P cb → yields P (withAstPathSegment i cb).
Proof. intros H ctx. rewrite withAstPathSegment_fst. apply H. Qed.

Lemma yields_mapElements {T} (P : T → Prop) (cb : Expr → nat → Extract T) elements i :
  (∀ e j, yields P (cb e j)) → yields (Forall P) (mapElements cb elements i).
Proof.
  intros H. revert i. induction elements as [|e rest IH]; intros i; simpl.
  - by apply yields_ret.
  - eapply yields_bind_with; [apply yields_withAstPathSegment, H|]. intros r Hr.
    eapply yields_bind_with; [apply IH|]. intros rs Hrs. apply yields_ret. by constructor.
Qed.

Lemma yields_mapMaybeArrayElements {T} (P : T → Prop) expression
    (cb : Expr → nat → Extract T) :
  (∀ e j, yields P (cb e j)) → yields (Forall P) (mapMaybeArrayElements expression cb).
Proof.
  intros H. unfold mapMaybeArrayElements.
  destruct expression;
    try (eapply yields_bind_with; [apply H|]; intros r Hr; apply yields_ret; by repeat constructor).
  by apply yields_mapElements.
Qed.

Lemma everyDefined_Forall {T} (Q : T → Prop) (arr : list (option T)) xs :
  Forall (fun r => ∀ x, r = Some x → Q x) arr → everyDefined arr = Some xs → Forall Q xs.
Proof.
  intros H. revert xs. induction H as [|[x|] rest Hx _ IH]; intros xs; simpl; try done.
  - by intros [= <-].
  - destruct (everyDefined rest) as [xs'|]; [|done]. intros [= <-]. constructor; eauto.
Qed.







Section Growth.
Variable rec : option Expr → option string → Extract (Outcome (option string)).
Hypothesis rec_grows : ∀ state parentId, keeps (grows (Some parentId)) (rec state (Some parentId)).






End Growth.



Lemma resolveEdgeTargets_nodes edgeId edgeTargets ctx ctx' :
  resolveEdgeTargets edgeId edgeTargets ctx = Ok ctx' →
  nodes (ctx_digraph ctx') = nodes (ctx_digraph ctx).
Proof.
  revert ctx. induction edgeTargets as [|edgeTarget rest IH]; intros ctx; simpl.
  - by intros [= <-].
  - destruct (edges (ctx_digraph ctx) !! edgeId) as [edge|]; [|done].
    unfold resolveTargetId.
    destruct (resolveTarget ctx (Edge.source edge) edgeTarget) as [[id|]| | |]; simpl; try done.
    + destruct (truthyValue id).
      * destruct id; try done. intros Hrun. by rewrite (IH _ Hrun).
      * intros Hrun. by rewrite (IH _ Hrun).
    + intros Hrun. by rewrite (IH _ Hrun).
Qed.

Lemma resolveTargets_nodes ctx ctx' :
  resolveTargets ctx = Ok ctx' → nodes (ctx_digraph ctx') = nodes (ctx_digraph ctx).
Proof.
  unfold resolveTargets. generalize (originalTargets ctx). intros entries. revert ctx.
  induction entries as [|[edgeId edgeTargets] rest IH]; intros ctx; simpl.
  - by intros [= <-].
  - destruct (resolveEdgeTargets edgeId edgeTargets ctx) as [ctx1| | |] eqn:E; try done.
    simpl. intros Hrun. by rewrite (IH _ Hrun), (resolveEdgeTargets_nodes _ _ _ _ E).
Qed.

(** ** The digraph of a machine (C9) *)




(** ** Splitting and joining descriptors *)

Lemma split_dotfree s : contains dot s = false → split dot s = [s].
Proof.
  induction s as [|a s IH]; [done|]. simpl.
  destruct (Ascii.eqb a dot); [done|]. simpl. intros H. by rewrite (IH H).
Qed.

Lemma split_app_dot s rest :
  contains dot s = false → split dot (s +:+ "." +:+ rest) = s :: split dot rest.
Proof.
  induction s as [|a s IH]; [done|]. simpl.
  destruct (Ascii.eqb a dot); [done|]. simpl. intros H. by rewrite (IH H).
Qed.

Lemma split_join segments :
  segments ≠ [] → Forall (fun s => contains dot s = false) segments →
  split dot (join "." segments) = segments.
Proof.
  intros Hne H. induction H as [|s rest Hs Hrest IH]; [done|].
  destruct rest as [|s' rest']; unfold join in *; simpl.
  - by apply split_dotfree.
  - rewrite split_app_dot by done. f_equal. by apply IH.
Qed.

Lemma join_cons_empty segments :
  segments ≠ [] → "." +:+ join "." segments = join "." ("" :: segments).
Proof. by destruct segments. Qed.

Lemma contains_hash_app i : contains dot ("#" +:+ i) = contains dot i.
Proof. done. Qed.

(** ** Chains of reachable states *)

Section Chains.
Variable ctx : ExtractionContext.
Variable nodeMap : gmap string Node.t.

Lemma pathTo_head id chain :
  pathTo ctx nodeMap id chain →
  ∃ node rest tnode, chain = node :: rest ∧ linked ctx nodeMap id node tnode.
Proof. destruct 1; by eexists _, _, _. Qed.

Lemma pathTo_deterministic id chain1 chain2 :
  pathTo ctx nodeMap id chain1 → pathTo ctx nodeMap id chain2 → chain1 = chain2.
Proof.
  intros H1. revert chain2.
  induction H1 as [id node tnode Hl Hp|id node tnode p ptree k rest Hl Hp Hk Hpt Hc Hrest IH];
    intros chain2 H2; destruct H2 as [id node' tnode' Hl' Hp'|id node' tnode' p' ptree' k' rest' Hl' Hp'];
    pose proof (linked_node _ _ _ _ _ Hl) as E1; pose proof (linked_node _ _ _ _ _ Hl') as E2;
    rewrite E1 in E2; injection E2 as <-; try congruence.
  rewrite Hp in Hp'. injection Hp' as <-. f_equal. by apply IH.
Qed.

Lemma pathTo_suffix id pre node post :
  pathTo ctx nodeMap id (pre ++ node :: post) →
  pathTo ctx nodeMap (Node.uniqueId node) (node :: post).
Proof.
  revert id. induction pre as [|m pre IH]; intros id H; simpl in H.
  - destruct (pathTo_head _ _ H) as (n & r & t & [= <- <-] & Hl).
    by rewrite (linked_id _ _ _ _ _ Hl).
  - inversion H as [|? ? ? ? ? ? ? ? ? ? ? ? Hrest]; subst.
    + by destruct pre.
    + by eapply IH.
Qed.

Lemma pathTo_lookup id chain x :
  pathTo ctx nodeMap id chain → x ∈ nodeIds chain →
  ∃ pre node post, chain = pre ++ node :: post ∧ Node.uniqueId node = x
                   ∧ pathTo ctx nodeMap x (node :: post).
Proof.
  intros H Hin. unfold nodeIds in Hin. apply list_elem_of_fmap in Hin as (node & -> & Hin).
  apply list_elem_of_split in Hin as (pre & post & ->).
  exists pre, node, post. repeat split. by eapply pathTo_suffix.
Qed.

Lemma pathTo_NoDup id chain : pathTo ctx nodeMap id chain → NoDup (nodeIds chain).
Proof.
  induction 1 as [id node tnode Hl Hp|id node tnode p ptree k rest Hl Hp Hk Hpt Hc Hrest IH].
  - apply NoDup_singleton.
  - simpl. apply NoDup_cons. split; [|done]. rewrite (linked_id _ _ _ _ _ Hl).
    intros Hin. destruct (pathTo_lookup _ _ _ Hrest Hin) as (pre & n & post & -> & Hn & Hchain).
    assert (Hfull : pathTo ctx nodeMap id (node :: pre ++ n :: post)) by (by econstructor).
    pose proof (pathTo_deterministic _ _ _ Hchain Hfull) as E.
    apply (f_equal length) in E. simpl in E. rewrite length_app in E. simpl in E. lia.
Qed.

Lemma pathTo_dom id chain :
  pathTo ctx nodeMap id chain → ∀ x, x ∈ nodeIds chain → x ∈ dom nodeMap.
Proof.
  intros H x Hin. destruct (pathTo_lookup _ _ _ H Hin) as (pre & n & post & _ & _ & Hx).
  destruct (pathTo_head _ _ Hx) as (n' & r & t & _ & Hl).
  apply elem_of_dom. rewrite (linked_node _ _ _ _ _ Hl). by eexists.
Qed.

Lemma pathTo_length id chain :
  pathTo ctx nodeMap id chain → (length chain ≤ size nodeMap)%nat.
Proof.
  intros H. rewrite <- (length_fmap Node.uniqueId chain). fold (nodeIds chain).
  rewrite <- size_dom, <- (size_list_to_set (C := gset string) (nodeIds chain))
    by by eapply pathTo_NoDup.
  apply subseteq_size. intros x Hx. apply elem_of_list_to_set in Hx. by eapply pathTo_dom.
Qed.

Lemma getPathNodes_climb_chain fuel id node rest :
  pathTo ctx nodeMap id (node :: rest) →
  (length (node :: rest) ≤ fuel)%nat →
  getPathNodes_climb fuel nodeMap node = Ok (node :: rest).
Proof.
  revert id node rest. induction fuel as [|fuel IH]; intros id node rest H Hlen; [simpl in Hlen; lia|].
  inversion H as [? ? ? Hl Hp|? ? ? p ptree k ? Hl Hp Hk Hpt Hc Hrest]; subst; simpl.
  - by rewrite Hp.
  - rewrite Hp. destruct (pathTo_head _ _ Hrest) as (pnode & prest & pt & -> & Hlp).
    rewrite (linked_node _ _ _ _ _ Hlp). rewrite (IH p pnode prest); [done|done|].
    simpl in *. lia.
Qed.

Lemma getPathNodes_chain id node rest :
  pathTo ctx nodeMap id (node :: rest) → getPathNodes nodeMap node = Ok (node :: rest).
Proof.
  intros H. eapply getPathNodes_climb_chain; [done|].
  pose proof (pathTo_length _ _ H). lia.
Qed.

End Chains.

(** ** Resolving a synthesized descriptor *)

Lemma plainKey_spec k :
  plainKey k = true → truthy k = true ∧ contains dot k = false ∧ startsWithHash k = false.
Proof.
  unfold plainKey. intros H. apply andb_true_iff in H as [H H3].
  apply andb_true_iff in H as [H1 H2].
  by rewrite negb_true_iff in H2, H3.
Qed.

Section Resolution.
Variable ctx : ExtractionContext.
Variable nodeMap : gmap string Node.t.

Lemma nextMarker_child marker k id child :
  TreeNode.children marker !! k = Some id →
  treeNodes ctx !! id = Some child →
  nextMarker ctx (VTreeNode marker) k = Ok (VTreeNode child).
Proof. intros Hk Hid. simpl. unfold childNode, treeNodeRef. by rewrite Hk, Hid. Qed.

Lemma walkPath_app marker l1 l2 next :
  Forall (fun k => truthy k = true) l1 →
  walkPath ctx marker l1 = Ok (Some next) →
  walkPath ctx marker (l1 ++ l2) = walkPath ctx next l2.
Proof.
  intros H. revert marker. induction H as [|k rest Hk _ IH]; intros marker; simpl.
  - by intros [= <-].
  - rewrite Hk. destruct (nextMarker ctx marker k) as [m| | |]; simpl; try done.
    destruct (truthyValue m); [apply IH|done].
Qed.

Lemma pathTo_inner id pre node post n :
  pathTo ctx nodeMap id (pre ++ node :: post) → n ∈ pre →
  is_Some (truthyOpt (Node.parentId n)).
Proof.
  revert id. induction pre as [|m pre IH]; intros id H Hin; [by apply elem_of_nil in Hin|].
  simpl in H. inversion H as [|? ? ? ? ? ? ? ? Hp ? ? ? Hrest]; subst; [by destruct pre|].
  apply elem_of_cons in Hin as [->|Hin]; [by eexists|by eapply IH].
Qed.

Lemma keysDownwards_cons node rest :
  keysDownwards (node :: rest) = keysDownwards rest ++ [keyText node].
Proof. unfold keysDownwards. by rewrite fmap_cons, reverse_cons. Qed.

Lemma keysDownwards_plain id pre node post :
  pathTo ctx nodeMap id (pre ++ node :: post) →
  (∀ n, n ∈ pre ++ node :: post → is_Some (truthyOpt (Node.parentId n)) →
        plainKey (keyText n) = true) →
  Forall (fun k => plainKey k = true) (keysDownwards pre).
Proof.
  intros H Hplain. unfold keysDownwards. apply Forall_reverse, Forall_fmap, Forall_forall.
  intros n Hin. simpl. apply Hplain; [apply elem_of_app; by left|]. by eapply pathTo_inner.
Qed.

(** Walking the keys of the nodes below [node], from the top, arrives at the
    tree node of the first state of the chain. *)
Lemma walk_down id pre node post top :
  pathTo ctx nodeMap id (pre ++ node :: post) →
  treeNodes ctx !! Node.uniqueId node = Some top →
  Forall (fun k => truthy k = true) (keysDownwards pre) →
  ∃ tnode, walkPath ctx (VTreeNode top) (keysDownwards pre) = Ok (Some (VTreeNode tnode))
           ∧ treeNodes ctx !! id = Some tnode ∧ TreeNode.uniqueId tnode = id.
Proof.
  revert id. induction pre as [|m pre IH]; intros id H Htop Hkeys.
  - simpl in *. destruct (pathTo_head _ _ _ _ H) as (n & r & t & [= <- <-] & Hl).
    exists top. rewrite (linked_id _ _ _ _ _ Hl) in Htop.
    rewrite (linked_tree _ _ _ _ _ Hl) in Htop. injection Htop as <-.
    repeat split; [apply Hl..].
  - simpl in H.
    inversion H as [|? ? tnode p ptree k ? Hl Hp Hk Hpt Hc Hrest]; subst; [by destruct pre|].
    rewrite keysDownwards_cons in *. apply Forall_app in Hkeys as [Hkeys Hlast].
    destruct (IH p Hrest Htop Hkeys) as (ptree' & Hwalk & Hptree & _).
    rewrite Hpt in Hptree. injection Hptree as <-.
    rewrite (walkPath_app _ _ _ _ Hkeys Hwalk). simpl.
    pose proof (List.Forall_inv Hlast) as Htruthy. simpl in Htruthy. rewrite Htruthy.
    unfold keyText in *. rewrite Hk in *.
    simpl. unfold childNode, treeNodeRef. rewrite Hc. rewrite (linked_tree _ _ _ _ _ Hl).
    exists tnode. repeat split; apply Hl.
Qed.

Lemma Forall_plain_dotfree ks :
  Forall (fun k => plainKey k = true) ks →
  Forall (fun k => contains dot k = false) ks ∧ Forall (fun k => truthy k = true) ks.
Proof.
  intros H. split; eapply Forall_impl; try exact H; intros k Hk;
    by destruct (plainKey_spec k Hk) as (? & ? & ?).
Qed.

Lemma resolveTarget_descend sourceId source ks tnode :
  treeNodes ctx !! sourceId = Some source →
  ks ≠ [] → Forall (fun k => plainKey k = true) ks →
  walkPath ctx (VTreeNode source) ks = Ok (Some (VTreeNode tnode)) →
  resolveTarget ctx sourceId ("." +:+ join "." ks)
  = Ok (Some (VString (TreeNode.uniqueId tnode))).
Proof.
  intros Hsource Hne Hplain Hwalk. destruct (Forall_plain_dotfree ks Hplain) as [Hdots _].
  unfold resolveTarget. rewrite join_cons_empty by done.
  rewrite split_join; [|done|by constructor]. simpl. unfold treeNodeRef.
  rewrite Hsource. simpl. by rewrite Hwalk.
Qed.

Lemma resolveTarget_sibling sourceId source parentId parent ks tnode :
  treeNodes ctx !! sourceId = Some source →
  truthyOpt (TreeNode.parentId source) = Some parentId →
  treeNodes ctx !! parentId = Some parent →
  ks ≠ [] → Forall (fun k => plainKey k = true) ks →
  walkPath ctx (VTreeNode parent) ks = Ok (Some (VTreeNode tnode)) →
  resolveTarget ctx sourceId (join "." ks) = Ok (Some (VString (TreeNode.uniqueId tnode))).
Proof.
  intros Hsource Hparent Hp Hne Hplain Hwalk.
  destruct (Forall_plain_dotfree ks Hplain) as [Hdots _].
  unfold resolveTarget. rewrite split_join by done.
  destruct ks as [|k ks']; [done|]. apply Forall_cons in Hplain as [Hk _].
  destruct (plainKey_spec k Hk) as (Htruthy & _ & Hhash).
  simpl in *. rewrite Htruthy in Hwalk.
  destruct k as [|c rest]; [done|]. simpl in Hhash. rewrite Hhash, Hsource, Hparent, Hp.
  simpl. destruct (childNode ctx parent (String c rest)) as [|s|next|next|name];
    simpl in *; try done.
  - destruct (truthy s); [|done]. by rewrite Hwalk.
  - by rewrite Hwalk.
  - by rewrite Hwalk.
  - by rewrite Hwalk.
Qed.

Lemma resolveTarget_anchored sourceId declared anchorId anchor ks tnode :
  idToNodeIdMap ctx !! declared = Some anchorId →
  treeNodes ctx !! anchorId = Some anchor →
  contains dot declared = false →
  Forall (fun k => plainKey k = true) ks →
  walkPath ctx (VTreeNode anchor) ks = Ok (Some (VTreeNode tnode)) →
  resolveTarget ctx sourceId (join "." (("#" +:+ declared) :: ks))
  = Ok (Some (VString (TreeNode.uniqueId tnode))).
Proof.
  intros Hid Hanchor Hdot Hplain Hwalk.
  destruct (Forall_plain_dotfree ks Hplain) as [Hdots _].
  unfold resolveTarget. rewrite split_join; [|done|by constructor].
  simpl. change ("" +:+ declared) with declared. unfold treeNodeRef, originKey.
  rewrite Hid, Hanchor. simpl. by rewrite Hwalk.
Qed.

End Resolution.

(** ** Synthesizing a descriptor *)

Lemma invert_lookup (m : gmap string string) nodeId declared :
  invert m !! nodeId = Some declared → m !! declared = Some nodeId.
Proof.
  unfold invert. intros H. apply elem_of_list_to_map_2 in H.
  apply list_elem_of_fmap in H as ([k v] & [= -> ->] & Hin).
  by apply elem_of_map_to_list in Hin.
Qed.

Lemma existsb_sameNode e chain :
  existsb (sameNode e) chain = true ↔ Node.uniqueId e ∈ nodeIds chain.
Proof.
  unfold nodeIds. rewrite existsb_exists, list_elem_of_fmap. split.
  - intros (x & Hin & Hx). apply bool_decide_eq_true in Hx.
    exists x. split; [done|]. by apply list_elem_of_In.
  - intros (x & Hx & Hin). exists x. split; [by apply list_elem_of_In|].
    by apply bool_decide_eq_true.
Qed.

Lemma find_common schain pre c post :
  (∀ e, e ∈ pre → Node.uniqueId e ∉ nodeIds schain) →
  Node.uniqueId c ∈ nodeIds schain →
  List.find (fun a => existsb (sameNode a) schain) (pre ++ c :: post) = Some c.
Proof.
  intros Hpre Hc. induction pre as [|e pre IH]; simpl.
  - by rewrite (proj2 (existsb_sameNode c schain) Hc).
  - destruct (existsb (sameNode e) schain) eqn:He.
    + apply existsb_sameNode in He. exfalso. eapply Hpre; [|done]. apply elem_of_cons. by left.
    + apply IH. intros e' Hin. apply Hpre, elem_of_cons. by right.
Qed.

Lemma find_elem {A} (f : A → bool) l a : List.find f l = Some a → a ∈ l.
Proof. intros H. apply find_some in H as [H _]. by apply list_elem_of_In. Qed.

Lemma sliceBeforeLast_app {A} (pre post : list A) :
  post ≠ [] → sliceBeforeLast (length post) (pre ++ post) = pre.
Proof.
  intros Hne. unfold sliceBeforeLast. destruct (length post) as [|n] eqn:Hn.
  - by destruct post.
  - rewrite <- Hn, length_app.
    replace (length pre + length post - length post) with (length pre) by lia.
    by rewrite take_app_length.
Qed.

Section Synthesis.
Variable ctx : ExtractionContext.
Variable pms : ProjectMachineState.
Variable def : ExtractorDigraphDef.
Hypothesis Hdef : pms_digraph pms = Some def.

#[local] Abbreviation nodeMap := (nodes (digraph def)).

Lemma climbToDeclaredId_spec full pre remaining id :
  full = pre ++ remaining →
  pathTo ctx nodeMap id remaining →
  Exists (fun n => is_Some (declaredId pms (Node.uniqueId n))) remaining →
  ∃ pre' anchor post declared,
    full = pre' ++ anchor :: post
    ∧ declaredId pms (Node.uniqueId anchor) = Some declared
    ∧ climbToDeclaredId pms nodeMap full remaining (length pre) (nodeMap !! id)
      = Ok (join "." (("#" +:+ declared) :: keysDownwards pre')).
Proof.
  intros Hfull Hpath. revert pre Hfull.
  induction Hpath as [id node tnode Hl Hp|id node tnode p ptree k rest Hl Hp Hk Hpt Hc Hrest IH];
    intros pre Hfull Hex; simpl; rewrite (linked_node _ _ _ _ _ Hl).
  - apply Exists_cons in Hex as [[d Hd]|Hex]; [|by apply Exists_nil in Hex].
    exists pre, node, [], d. rewrite Hd, Hfull, take_app_length. by repeat split.
  - destruct (declaredId pms (Node.uniqueId node)) as [d|] eqn:Hd.
    + exists pre, node, rest, d. rewrite Hfull, take_app_length. by repeat split.
    + rewrite Hp. apply Exists_cons in Hex as [[d Hd']|Hex]; [congruence|].
      destruct (IH (pre ++ [node])) as (pre' & a & post & d & E & Ha & Hrun); [|done|].
      { by rewrite <- app_assoc. }
      exists pre', a, post, d. rewrite length_app in Hrun. simpl in Hrun.
      replace (length pre + 1) with (S (length pre)) in Hrun by lia. by repeat split.
Qed.

(** The branches of [getBestTargetDescriptor] for two different states with
    chains, the target having a parent. *)
Lemma getBestTargetDescriptor_chains sourceId targetId source srest target trest p :
  pathTo ctx nodeMap sourceId (source :: srest) →
  pathTo ctx nodeMap targetId (target :: trest) →
  truthyOpt (Node.parentId target) = Some p →
  sourceId ≠ targetId →
  getBestTargetDescriptor sourceId targetId pms
  = let sourcePathNodes := source :: srest in
    let targetPathNodes := target :: trest in
    let commonNode :=
      List.find (fun ancestor => existsb (sameNode ancestor) sourcePathNodes) targetPathNodes in
    if sameNodeOpt commonNode (Some source) then
      Ok ("." +:+ join "." (keysDownwards
            (sliceBeforeLast (length sourcePathNodes) targetPathNodes)))
    else if match truthyOpt (Node.parentId source) with
            | Some parentId => sameNodeOpt commonNode (nodeMap !! parentId)
            | None => false
            end then
      Ok (join "." (keysDownwards
            (sliceBeforeLast (length sourcePathNodes - 1) targetPathNodes)))
    else
      match declaredId pms targetId with
      | Some id => Ok ("#" +:+ id)
      | None =>
          climbToDeclaredId pms nodeMap targetPathNodes targetPathNodes 0 (Some target)
      end.
Proof.
  intros Hs Ht Hp Hne. unfold getBestTargetDescriptor. rewrite Hdef.
  destruct (pathTo_head _ _ _ _ Hs) as (? & ? & st & [= <- <-] & Hls).
  destruct (pathTo_head _ _ _ _ Ht) as (? & ? & tt & [= <- <-] & Hlt).
  rewrite (linked_node _ _ _ _ _ Hlt), Hp, (linked_node _ _ _ _ _ Hls).
  rewrite bool_decide_eq_false_2 by done.
  rewrite (getPathNodes_chain _ _ _ _ _ Ht), (getPathNodes_chain _ _ _ _ _ Hs). done.
Qed.

End Synthesis.

(** ** Resolution inverts synthesis (C2) *)

Section Inverse.
Variable ctx : ExtractionContext.
Variable pms : ProjectMachineState.
Variable def : ExtractorDigraphDef.
Hypothesis Hdef : pms_digraph pms = Some def.
Hypothesis HidMap : idMap pms = invert (idToNodeIdMap ctx).

#[local] Abbreviation nodeMap := (nodes (digraph def)).

Variables targetId : string.
Variables tchain : list Node.t.
Hypothesis Htarget : pathTo ctx nodeMap targetId tchain.
Hypothesis Hplain : ∀ n, n ∈ tchain → is_Some (truthyOpt (Node.parentId n)) →
                         plainKey (keyText n) = true.
Hypothesis Hdeclared : ∀ n i, n ∈ tchain → declaredId pms (Node.uniqueId n) = Some i →
                              contains dot i = false.

Lemma declared_anchor nodeId declared :
  declaredId pms nodeId = Some declared → idToNodeIdMap ctx !! declared = Some nodeId.
Proof.
  unfold declaredId. rewrite HidMap. intros H. apply invert_lookup.
  destruct (invert (idToNodeIdMap ctx) !! nodeId) as [d|]; [|done].
  simpl in H. by destruct (truthy d); simplify_eq.
Qed.

(** A descriptor anchored at a node of the target's chain with a declared id
    resolves to the target. *)
Lemma inverse_anchored sourceId pre anchor post declared :
  tchain = pre ++ anchor :: post →
  declaredId pms (Node.uniqueId anchor) = Some declared →
  resolveTarget ctx sourceId (join "." (("#" +:+ declared) :: keysDownwards pre))
  = Ok (Some (VString targetId)).
Proof.
  intros E Hd. pose proof Htarget as Hpath. rewrite E in Hpath.
  pose proof (pathTo_suffix _ _ _ _ _ _ Hpath) as Hanchor.
  destruct (pathTo_head _ _ _ _ Hanchor) as (? & ? & atree & [= <- <-] & Hla).
  assert (Hkeys : Forall (fun k => plainKey k = true) (keysDownwards pre)).
  { eapply keysDownwards_plain; [exact Hpath|]. intros n Hn. apply Hplain. by rewrite E. }
  destruct (walk_down _ _ _ _ _ _ atree Hpath (linked_tree _ _ _ _ _ Hla))
    as (tnode & Hwalk & Htree & Hid); [by apply Forall_plain_dotfree|].
  rewrite <- Hid.
  eapply resolveTarget_anchored; [by apply declared_anchor|apply Hla| |done|done].
  eapply Hdeclared; [|exact Hd]. rewrite E. apply elem_of_app. right. apply elem_of_cons. by left.
Qed.

Lemma keysDownwards_nonempty pre : pre ≠ [] → keysDownwards pre ≠ [].
Proof.
  unfold keysDownwards. destruct pre as [|n pre]; [done|]. intros _.
  rewrite fmap_cons, reverse_cons. by destruct (reverse (keyText <$> pre)).
Qed.

End Inverse.

Lemma resolveTargetId_resolved ctx sourceId descriptor targetId :
  resolveTarget ctx sourceId descriptor = Ok (Some (VString targetId)) →
  resolveTargetId sourceId descriptor ctx = Ok (VString targetId, ctx).
Proof. intros H. unfold resolveTargetId. by rewrite H. Qed.

(** X30. Resolution inverts synthesis away from the parent of the source.
    For a source and a target reachable in one tree whose nodes carry their
    keys, where the keys of the states on the target's chain are not empty,
    contain no ['.'] and do not begin with [#], the declared ids on the
    target's chain contain no ['.'], the target is not the parent of the
    source unless it is the root, and the target or one of its ancestors
    declares an id unless the target has a parent and lies at or below the
    source or the source's parent: resolving the synthesized descriptor from
    the source yields the target, and records no error. *)
Theorem resolve_synthesize_inverse (ctx : ExtractionContext) (pms : ProjectMachineState)
    (def : ExtractorDigraphDef) (sourceId targetId : string) (schain tchain : list Node.t) :
  pms_digraph pms = Some def →
  idMap pms = invert (idToNodeIdMap ctx) →
  pathTo ctx (nodes (digraph def)) sourceId schain →
  pathTo ctx (nodes (digraph def)) targetId tchain →
  (∀ n, n ∈ tchain → is_Some (truthyOpt (Node.parentId n)) → plainKey (keyText n) = true) →
  (∀ n i, n ∈ tchain → declaredId pms (Node.uniqueId n) = Some i → contains dot i = false) →
  (parentOf (nodes (digraph def)) sourceId = Some targetId →
   parentOf (nodes (digraph def)) targetId = None) →
  (Exists (fun n => is_Some (declaredId pms (Node.uniqueId n))) tchain
   ∨ (is_Some (parentOf (nodes (digraph def)) targetId)
      ∧ (sourceId ∈ nodeIds tchain
         ∨ ∃ p, parentOf (nodes (digraph def)) sourceId = Some p ∧ p ∈ nodeIds tchain))) →
  ∃ descriptor,
    getBestTargetDescriptor sourceId targetId pms = Ok descriptor
    ∧ resolveTargetId sourceId descriptor ctx = Ok (VString targetId, ctx).
Proof.
  intros Hdef HidMap Hs Ht Hplain Hdeclared Hparent Hanchor.
  cut (∃ descriptor, getBestTargetDescriptor sourceId targetId pms = Ok descriptor
                     ∧ resolveTarget ctx sourceId descriptor = Ok (Some (VString targetId))).
  { intros (d & H1 & H2). exists d. split; [done|]. by apply resolveTargetId_resolved. }
  destruct (pathTo_head _ _ _ _ Hs) as (snode & srest & stree & -> & Hls).
  destruct (pathTo_head _ _ _ _ Ht) as (tnode & trest & ttree & -> & Hlt).
  assert (HparentS : parentOf (nodes (digraph def)) sourceId = truthyOpt (Node.parentId snode))
    by (unfold parentOf; by rewrite (linked_node _ _ _ _ _ Hls)).
  assert (HparentT : parentOf (nodes (digraph def)) targetId = truthyOpt (Node.parentId tnode))
    by (unfold parentOf; by rewrite (linked_node _ _ _ _ _ Hlt)).
  rewrite HparentS, HparentT in *.
  assert (Hanchored : ∀ pre anchor post declared,
            tnode :: trest = pre ++ anchor :: post →
            declaredId pms (Node.uniqueId anchor) = Some declared →
            resolveTarget ctx sourceId (join "." (("#" +:+ declared) :: keysDownwards pre))
            = Ok (Some (VString targetId))).
  { intros. by eapply inverse_anchored. }
  destruct (truthyOpt (Node.parentId tnode)) as [p|] eqn:Hp.
  - (* the target has a parent *)
    destruct (decide (sourceId = targetId)) as [->|Hne].
    + (* self-transition: the target's own key, looked up among its siblings *)
      exists (keyText tnode). split.
      { unfold getBestTargetDescriptor.
        rewrite Hdef, (linked_node _ _ _ _ _ Hlt), Hp. by rewrite bool_decide_eq_true_2. }
      inversion Ht as [|? ? tt p' ptree k ? Hl' Hp' Hk Hpt Hc Hrest]; subst; [congruence|].
      rewrite Hp in Hp'. injection Hp' as <-.
      assert (Hkey : plainKey k = true).
      { specialize (Hplain tnode). unfold keyText in Hplain. rewrite Hk in Hplain.
        apply Hplain; [apply elem_of_cons; by left|by eexists]. }
      unfold keyText. rewrite Hk. simpl.
      rewrite <- (linked_tree_id _ _ _ _ _ Hlt) at 2.
      apply (resolveTarget_sibling ctx targetId ttree p ptree [k] ttree);
        [apply Hlt|by rewrite (linked_parent _ _ _ _ _ Hlt)|done|done|by constructor|].
      destruct (plainKey_spec k Hkey) as (Htruthy & _ & _).
      simpl. rewrite Htruthy. unfold childNode, treeNodeRef. rewrite Hc.
      by rewrite (linked_tree _ _ _ _ _ Hlt).
    + rewrite (getBestTargetDescriptor_chains ctx pms def Hdef sourceId targetId
                 snode srest tnode trest p Hs Ht Hp Hne).
      cbn zeta.
      pose proof (pathTo_NoDup _ _ _ _ Ht) as Hnodup.
      (* the branch for a descriptor anchored at a declared id *)
      assert (HC : sourceId ∉ nodeIds (tnode :: trest) →
                (∀ sp, truthyOpt (Node.parentId snode) = Some sp →
                       sp ∉ nodeIds (tnode :: trest)) →
                ∃ descriptor,
                  (if sameNodeOpt
                        (List.find (fun ancestor => existsb (sameNode ancestor) (snode :: srest))
                           (tnode :: trest)) (Some snode)
                   then Ok ("." +:+ join "." (keysDownwards
                              (sliceBeforeLast (length (snode :: srest)) (tnode :: trest))))
                   else if match truthyOpt (Node.parentId snode) with
                           | Some parentId =>
                               sameNodeOpt
                                 (List.find
                                    (fun ancestor => existsb (sameNode ancestor) (snode :: srest))
                                    (tnode :: trest))
                                 (nodes (digraph def) !! parentId)
                           | None => false
                           end
                   then Ok (join "." (keysDownwards
                              (sliceBeforeLast (length (snode :: srest) - 1) (tnode :: trest))))
                   else match declaredId pms targetId with
                        | Some id => Ok ("#" +:+ id)
                        | None =>
                            climbToDeclaredId pms (nodes (digraph def)) (tnode :: trest)
                              (tnode :: trest) 0 (Some tnode)
                        end) = Ok descriptor
                  ∧ resolveTarget ctx sourceId descriptor = Ok (Some (VString targetId))).
      { intros HnotS HnotP.
        assert (Hfound : ∀ a, List.find (fun ancestor =>
                                existsb (sameNode ancestor) (snode :: srest))
                                (tnode :: trest) = Some a →
                              Node.uniqueId a ∈ nodeIds (tnode :: trest)).
        { intros a Ha. apply find_elem in Ha. unfold nodeIds.
          apply list_elem_of_fmap. by exists a. }
        destruct (List.find _ (tnode :: trest)) as [a|] eqn:Hfind.
        - specialize (Hfound a eq_refl).
          assert (sameNodeOpt (Some a) (Some snode) = false) as ->.
          { simpl. apply bool_decide_eq_false. rewrite (linked_id _ _ _ _ _ Hls).
            intros E. by rewrite E in Hfound. }
          assert (match truthyOpt (Node.parentId snode) with
                  | Some parentId => sameNodeOpt (Some a) (nodes (digraph def) !! parentId)
                  | None => false
                  end = false) as ->.
          { destruct (truthyOpt (Node.parentId snode)) as [sp|] eqn:Hsp; [|done].
            inversion Hs as [|? ? ? sp' ? ? ? ? Hsp' ? ? ? Hrest]; subst; [congruence|].
            rewrite Hsp in Hsp'. injection Hsp' as <-.
            destruct (pathTo_head _ _ _ _ Hrest) as (pn & pr & pt & -> & Hlp).
            rewrite (linked_node _ _ _ _ _ Hlp). simpl. apply bool_decide_eq_false.
            rewrite (linked_id _ _ _ _ _ Hlp). intros E. apply (HnotP sp eq_refl).
            by rewrite <- E. }
          destruct Hanchor as [Hex|[_ [Hin|(sp & Hsp & Hin)]]];
            [|done|by destruct (HnotP sp Hsp)].
          destruct (declaredId pms targetId) as [i|] eqn:Hi.
          + exists ("#" +:+ i). split; [done|].
            apply (Hanchored [] tnode trest i); [done|].
            by rewrite (linked_id _ _ _ _ _ Hlt).
          + destruct (climbToDeclaredId_spec ctx pms def (tnode :: trest) [] (tnode :: trest)
                        targetId eq_refl Ht Hex) as (pre' & anchor & post & d & E & Hd & Hrun).
            rewrite (linked_node _ _ _ _ _ Hlt) in Hrun. simpl in Hrun.
            eexists. split; [exact Hrun|]. by eapply Hanchored.
        - change (sameNodeOpt None (Some snode)) with false. cbv iota.
          assert (match truthyOpt (Node.parentId snode) with
                  | Some parentId => sameNodeOpt None (nodes (digraph def) !! parentId)
                  | None => false
                  end = false) as ->.
          { destruct (truthyOpt (Node.parentId snode)) as [sp|] eqn:Hsp; [|done].
            inversion Hs as [|? ? ? sp' ? ? ? ? Hsp' ? ? ? Hrest]; subst; [congruence|].
            rewrite Hsp in Hsp'. injection Hsp' as <-.
            destruct (pathTo_head _ _ _ _ Hrest) as (pn & pr & pt & -> & Hlp).
            by rewrite (linked_node _ _ _ _ _ Hlp). }
          destruct Hanchor as [Hex|[_ [Hin|(sp & Hsp & Hin)]]];
            [|done|by destruct (HnotP sp Hsp)].
          destruct (declaredId pms targetId) as [i|] eqn:Hi.
          + exists ("#" +:+ i). split; [done|].
            apply (Hanchored [] tnode trest i); [done|].
            by rewrite (linked_id _ _ _ _ _ Hlt).
          + destruct (climbToDeclaredId_spec ctx pms def (tnode :: trest) [] (tnode :: trest)
                        targetId eq_refl Ht Hex) as (pre' & anchor & post & d & E & Hd & Hrun).
            rewrite (linked_node _ _ _ _ _ Hlt) in Hrun. simpl in Hrun.
            eexists. split; [exact Hrun|]. by eapply Hanchored. }
      destruct (decide (sourceId ∈ nodeIds (tnode :: trest))) as [HinS|HnotS].
      * (* the source is an ancestor of the target: a descending path *)
        destruct (pathTo_lookup _ _ _ _ _ Ht HinS) as (tpre & n & post & E & Hn & Hsuffix).
        pose proof (pathTo_deterministic _ _ _ _ _ Hsuffix Hs) as [= -> ->].
        assert (Htpre : tpre ≠ []).
        { intros ->. simpl in E. injection E as -> ->.
          apply Hne. by rewrite <- (linked_id _ _ _ _ _ Hls), (linked_id _ _ _ _ _ Hlt). }
        rewrite E in *.
        rewrite find_common; first last.
        { unfold nodeIds. apply list_elem_of_fmap. exists snode. split; [done|].
          apply elem_of_cons. by left. }
        { intros e He. unfold nodeIds in Hnodup. rewrite fmap_app in Hnodup.
          apply NoDup_app in Hnodup as (_ & Hdisj & _). apply Hdisj.
          apply list_elem_of_fmap. by exists e. }
        assert (sameNodeOpt (Some snode) (Some snode) = true) as ->
          by (simpl; by apply bool_decide_eq_true).
        rewrite (sliceBeforeLast_app tpre (snode :: srest)) by done.
        eexists. split; [reflexivity|].
        assert (Hkeys : Forall (fun k => plainKey k = true) (keysDownwards tpre))
          by (by eapply keysDownwards_plain).
        destruct (walk_down ctx _ _ _ _ _ stree Ht) as (tn & Hwalk & Htree & Hid);
          [by rewrite (linked_id _ _ _ _ _ Hls); apply Hls|by apply Forall_plain_dotfree|].
        rewrite <- Hid.
        eapply resolveTarget_descend; [apply Hls|by apply keysDownwards_nonempty|done|done].
      * destruct (truthyOpt (Node.parentId snode)) as [sp|] eqn:Hsp; [|by apply HC].
        destruct (decide (sp ∈ nodeIds (tnode :: trest))) as [HinP|HnotP];
          [|apply HC; [done|by intros ? [= <-]]].
        (* the source's parent is an ancestor of the target: a sibling path *)
        inversion Hs as [|? ? ? sp' sptree ? ? ? Hsp' ? Hspt ? Hrest]; subst; [congruence|].
        rewrite Hsp in Hsp'. injection Hsp' as <-.
        destruct (pathTo_lookup _ _ _ _ _ Ht HinP) as (tpre & n & post & E & Hn & Hsuffix).
        pose proof (pathTo_deterministic _ _ _ _ _ Hsuffix Hrest) as <-.
        assert (Htpre : tpre ≠ []).
        { intros ->. simpl in E. injection E as -> ->.
          rewrite (linked_id _ _ _ _ _ Hlt) in Hn. subst sp.
          by specialize (Hparent eq_refl). }
        rewrite E in *.
        rewrite find_common; first last.
        { unfold nodeIds. apply list_elem_of_fmap. exists n. split; [done|].
          apply elem_of_cons. right. apply elem_of_cons. by left. }
        { intros e He. unfold nodeIds in *. rewrite fmap_app in Hnodup.
          apply NoDup_app in Hnodup as (_ & Hdisj & _).
          rewrite fmap_cons, not_elem_of_cons. split.
          - rewrite (linked_id _ _ _ _ _ Hls). intros Heq. apply HnotS.
            apply list_elem_of_fmap. exists e. split; [done|]. apply elem_of_app. by left.
          - apply Hdisj. apply list_elem_of_fmap. by exists e. }
        assert (sameNodeOpt (Some n) (Some snode) = false) as ->.
        { simpl. apply bool_decide_eq_false. rewrite Hn, (linked_id _ _ _ _ _ Hls).
          intros Heq. apply HnotS. by rewrite <- Heq. }
        destruct (pathTo_head _ _ _ _ Hsuffix) as (? & ? & ntree & [= <- <-] & Hln).
        rewrite (linked_node _ _ _ _ _ Hln).
        assert (sameNodeOpt (Some n) (Some n) = true) as ->
          by (simpl; by apply bool_decide_eq_true).
        replace (length (snode :: n :: post) - 1) with (length (n :: post)) by (simpl; lia).
        rewrite (sliceBeforeLast_app tpre (n :: post)) by done.
        eexists. split; [reflexivity|].
        assert (Hkeys : Forall (fun k => plainKey k = true) (keysDownwards tpre))
          by (by eapply keysDownwards_plain).
        destruct (walk_down ctx _ _ _ _ _ ntree Ht) as (tn & Hwalk & Htree & Hid);
          [by rewrite Hn; apply Hln|by apply Forall_plain_dotfree|].
        rewrite <- Hid.
        eapply (resolveTarget_sibling ctx sourceId stree sp ntree);
          [apply Hls|by rewrite (linked_parent _ _ _ _ _ Hls)|apply Hln
          |by apply keysDownwards_nonempty|done|done].
  - (* the target is the root: its declared id *)
    inversion Ht as [? ? ? Hl' Hp'|? ? ? ? ? ? ? ? Hp']; subst; [|congruence].
    destruct Hanchor as [Hex|[[? ?] _]]; [|done].
    apply Exists_cons in Hex as [[d Hd]|Hex]; [|by apply Exists_nil in Hex].
    rewrite (linked_id _ _ _ _ _ Hlt) in Hd.
    exists ("#" +:+ d). split.
    + unfold getBestTargetDescriptor. by rewrite Hdef, (linked_node _ _ _ _ _ Hlt), Hp, Hd.
    + apply (Hanchored [] tnode [] d); [done|]. by rewrite (linked_id _ _ _ _ _ Hlt).
Qed.

Lemma examplePath_root :
  pathTo exampleContext (nodes exampleDigraph) "n0" [exampleNode "n0" None "(machine)"].
Proof.
  apply (pathTo_root _ _ "n0" _ (exampleTreeNode "n0" None [("a", "n1"); ("b", "n2")]));
    [by constructor|reflexivity].
Qed.

Lemma examplePath_a : pathTo exampleContext (nodes exampleDigraph) "n1" exampleChainA.
Proof.
  apply (pathTo_child _ _ "n1" _ (exampleTreeNode "n1" (Some "n0") [("a1", "n3")]) "n0"
           (exampleTreeNode "n0" None [("a", "n1"); ("b", "n2")]) "a");
    [by constructor|reflexivity..|apply examplePath_root].
Qed.

Lemma examplePath_b : pathTo exampleContext (nodes exampleDigraph) "n2" exampleChainB.
Proof.
  apply (pathTo_child _ _ "n2" _ (exampleTreeNode "n2" (Some "n0") []) "n0"
           (exampleTreeNode "n0" None [("a", "n1"); ("b", "n2")]) "b");
    [by constructor|reflexivity..|apply examplePath_root].
Qed.

Lemma examplePath_a1 : pathTo exampleContext (nodes exampleDigraph) "n3" exampleChainA1.
Proof.
  apply (pathTo_child _ _ "n3" _ (exampleTreeNode "n3" (Some "n1") []) "n1"
           (exampleTreeNode "n1" (Some "n0") [("a1", "n3")]) "a1");
    [by constructor|reflexivity..|apply examplePath_a].
Qed.

(** C2, at the failing input: in the machine
    [{ id: 'm', states: { a: { states: { a1: {} } }, b: {} } }] the descriptor
    synthesized from [a1] for its parent [a] is the empty string: the branch
    for a target on the chain of the source's parent slices the whole chain
    away. The empty string resolves to [a1] itself, not to [a]. *)
Lemma resolve_synthesize_parent_target :
  pathTo exampleContext (nodes exampleDigraph) "n3" exampleChainA1
  ∧ pathTo exampleContext (nodes exampleDigraph) "n1" exampleChainA
  ∧ getBestTargetDescriptor "n3" "n1" exampleState = Ok ""
  ∧ resolveTargetId "n3" "" exampleContext = Ok (VString "n3", exampleContext)
  ∧ resolveTargetId "n3" "" exampleContext ≠ Ok (VString "n1", exampleContext).
Proof.
  split; [apply examplePath_a1|]. split; [apply examplePath_a|].
  assert (H : resolveTargetId "n3" "" exampleContext = Ok (VString "n3", exampleContext))
    by (vm_compute; reflexivity).
  split; [vm_compute; reflexivity|]. split; [exact H|]. rewrite H. discriminate.
Qed.

Lemma resolve_synthesize_inverse_witness :
  ∃ descriptor,
    getBestTargetDescriptor "n1" "n2" exampleState = Ok descriptor
    ∧ resolveTargetId "n1" descriptor exampleContext = Ok (VString "n2", exampleContext).
Proof.
  apply (resolve_synthesize_inverse exampleContext exampleState
           {| root := "n0"; digraph := exampleDigraph |} "n1" "n2"
           exampleChainA exampleChainB).
  - reflexivity.
  - reflexivity.
  - apply examplePath_a.
  - apply examplePath_b.
  - intros n Hn _. apply elem_of_cons in Hn as [->|Hn]; [reflexivity|].
    apply elem_of_cons in Hn as [->|Hn]; [reflexivity|]. by apply elem_of_nil in Hn.
  - intros n i Hn. apply elem_of_cons in Hn as [->|Hn]; [vm_compute; discriminate|].
    apply elem_of_cons in Hn as [->|Hn]; [|by apply elem_of_nil in Hn].
    vm_compute. intros [= <-]. reflexivity.
  - vm_compute. discriminate.
  - right. split; [by eexists|]. right. exists "n0". split; [reflexivity|].
    apply elem_of_cons. right. apply elem_of_cons. by left.
Defined.

(** * Properties of the rest of the code *)


(** ** The utility module *)

Lemma indexed_snoc {A} (l : list A) (x : A) :
  reverse (indexed (l ++ [x])) = (length l, x) :: reverse (indexed l).
Proof.
  unfold indexed. rewrite imap_app, reverse_app. simpl.
  by rewrite Nat.add_0_r.
Qed.

Lemma findProperty_snoc obj prop key :
  (findProperty (obj ++ [prop]) key).2
  = match prop with
    | PropertyAssignment name initializer =>
        if bool_decide ((getPropertyKey name).2 = Some key)
        then Some {| prop_index := length obj; prop_name := name;
                     prop_initializer := initializer |}
        else (findProperty obj key).2
    | _ => (findProperty obj key).2
    end.
Proof.
  unfold findProperty. rewrite indexed_snoc. simpl.
  destruct prop as [name initializer| | | | |]; try done.
  destruct (getPropertyKey name) as [errs k]. simpl.
  case_bool_decide; [done|].
  by destruct (findProperty_scan (reverse (indexed obj)) key).
Qed.

(** X1. [findProperty] returns the last property assignment declared with the
    key: the property it returns sits at the index it reports, has the key,
    and no property assignment after it has the key; it returns nothing only
    when no property assignment has the key. *)
Theorem findProperty_last_declared (obj : list ObjProp) (key : string) :
  match (findProperty obj key).2 with
  | Some p =>
      obj !! prop_index p = Some (PropertyAssignment (prop_name p) (prop_initializer p))
      ∧ (getPropertyKey (prop_name p)).2 = Some key
      ∧ ∀ j name initializer,
          prop_index p < j →
          obj !! j = Some (PropertyAssignment name initializer) →
          (getPropertyKey name).2 ≠ Some key
  | None =>
      ∀ j name initializer,
        obj !! j = Some (PropertyAssignment name initializer) →
        (getPropertyKey name).2 ≠ Some key
  end.
Proof.
  induction obj as [|prop obj IH] using rev_ind; [by intros j ? ? Hj|].
  rewrite findProperty_snoc.
  assert (Hlast : ∀ j name initializer,
            (obj ++ [prop]) !! j = Some (PropertyAssignment name initializer) →
            (length obj ≤ j)%nat → j = length obj ∧ prop = PropertyAssignment name initializer).
  { intros j name initializer Hj Hle.
    rewrite lookup_app_r in Hj by done.
    destruct (j - length obj) as [|n] eqn:E; simpl in Hj; [|done].
    split; [lia|congruence]. }
  assert (Hkeep : ∀ found : option PropertyRef,
            found = (findProperty obj key).2 →
            (∀ name initializer, prop = PropertyAssignment name initializer →
                                 (getPropertyKey name).2 ≠ Some key) →
            match found with
            | Some p =>
                (obj ++ [prop]) !! prop_index p
                  = Some (PropertyAssignment (prop_name p) (prop_initializer p))
                ∧ (getPropertyKey (prop_name p)).2 = Some key
                ∧ ∀ j name initializer,
                    prop_index p < j →
                    (obj ++ [prop]) !! j = Some (PropertyAssignment name initializer) →
                    (getPropertyKey name).2 ≠ Some key
            | None =>
                ∀ j name initializer,
                  (obj ++ [prop]) !! j = Some (PropertyAssignment name initializer) →
                  (getPropertyKey name).2 ≠ Some key
            end).
  { intros found -> Hprop. destruct (findProperty obj key).2 as [p|].
    - destruct IH as (Hp & Hk & Hlater). split; [|split; [done|]].
      + by apply lookup_app_l_Some.
      + intros j name initializer Hlt Hj.
        destruct (decide (j < length obj)) as [Hin|Hout].
        * rewrite lookup_app_l in Hj by done. by eapply Hlater.
        * destruct (Hlast j name initializer Hj) as [_ ->]; [lia|]. by eapply Hprop.
    - intros j name initializer Hj.
      destruct (decide (j < length obj)) as [Hin|Hout].
      + rewrite lookup_app_l in Hj by done. by eapply IH.
      + destruct (Hlast j name initializer Hj) as [_ ->]; [lia|]. by eapply Hprop. }
  destruct prop as [name initializer| | | | |]; try (by apply Hkeep).
  case_bool_decide as Hk; [|apply Hkeep; [done|congruence]].
  simpl. split; [|split; [done|]].
  - rewrite lookup_app_r by done. by rewrite Nat.sub_diag.
  - intros j n e Hlt Hj. destruct (Hlast j n e Hj) as [-> _]; lia.
Qed.

Lemma findNodeByAstPath_walk_app current p q :
  findNodeByAstPath_walk current (p ++ q)
  = node ← findNodeByAstPath_walk current p; findNodeByAstPath_walk node q.
Proof.
  revert current. induction p as [|segment p IH]; intros current; [done|].
  simpl. destruct current as [[]|]; try done.
  destruct (_ !! segment) as [[]|]; auto.
Qed.

(** X2. Locating a node by an AST path composes: the node at [p ++ q] is the
    node at [q] below the node at [p], and a failure on [p] is a failure on
    every path that extends it. *)
Theorem findNodeByAstPath_app (call : CallExpression) (p q : AstPath) :
  findNodeByAstPath call (p ++ q)
  = (node ← findNodeByAstPath call p; findNodeByAstPath_walk node q)
  ∧ (∀ msg, findNodeByAstPath call p = Throw msg →
            findNodeByAstPath call (p ++ q) = Throw msg).
Proof.
  unfold findNodeByAstPath. rewrite findNodeByAstPath_walk_app.
  split; [done|]. by intros msg ->.
Qed.

(** X3. The index [findProperty] reports is a step of an AST path: when the
    node at [astPath] is an object literal in which [findProperty] finds the
    key, the path extended by the index of the property leads to its
    initializer. *)
Theorem findNodeByAstPath_findProperty (call : CallExpression) (astPath : AstPath)
    (properties : list ObjProp) (key : string) (p : PropertyRef) :
  findNodeByAstPath call astPath = Ok (Some (EObjectLiteral properties)) →
  (findProperty properties key).2 = Some p →
  findNodeByAstPath call (astPath ++ [prop_index p]) = Ok (Some (prop_initializer p)).
Proof.
  intros Hnode Hfound. unfold findNodeByAstPath in *.
  rewrite findNodeByAstPath_walk_app, Hnode. simpl.
  destruct (findProperty properties key) as [errs r] eqn:E. simpl in Hfound. subst r.
  apply findProperty_Some in E as [-> _]. done.
Qed.

Lemma findNodeByAstPath_findProperty_witness :
  findNodeByAstPath nestedCall ([1] ++ [1]) = Ok (Some typedState).
Proof.
  apply (findNodeByAstPath_findProperty nestedCall [1]
           [PropertyAssignment (NIdentifier "a") (EObjectLiteral []);
            PropertyAssignment (NIdentifier "b") typedState] "b"
           {| prop_index := 1; prop_name := NIdentifier "b"; prop_initializer := typedState |});
    reflexivity.
Defined.

(** ** Code that only reports errors *)

Lemma setErrors_app ctx es es' :
  setErrors (errors (setErrors (errors ctx ++ es) ctx) ++ es')
    (setErrors (errors ctx ++ es) ctx)
  = setErrors (errors ctx ++ (es ++ es')) ctx.
Proof. unfold setErrors. simpl. by rewrite app_assoc. Qed.

Lemma reportsOnly_ret {A} (a : A) : reportsOnly (mret a).
Proof. exists a, []. intros ctx. by rewrite setErrors_nil. Qed.

Lemma reportsOnly_bind {A B} (m : Extract A) (k : A → Extract B) :
  reportsOnly m → (∀ a, reportsOnly (k a)) → reportsOnly (m ≫= k).
Proof.
  intros (a & es & Hm) Hk. destruct (Hk a) as (b & es' & Hka).
  exists b, (es ++ es'). intros ctx. unfold mbind, Extract_bind.
  by rewrite Hm, Hka, setErrors_app.
Qed.

Lemma reportsOnly_pushErrors es : reportsOnly (pushErrors es).
Proof. by exists tt, es. Qed.

Lemma reportsOnly_getPropertyKeyCtx name : reportsOnly (getPropertyKeyCtx name).
Proof.
  apply reportsOnly_bind; [apply reportsOnly_pushErrors|intros _; apply reportsOnly_ret].
Qed.

Lemma reportsOnly_getJsonValue_chain (prop : Expr) : reportsOnly (getJsonValue_chain prop).
Proof.
  induction prop as [elements IH|properties IH|e H1 H2] using json_ind.
  - simpl.
    match goal with |- reportsOnly (?loop elements []) =>
      cut (∀ arr, reportsOnly (loop elements arr)); [intros H; apply H|] end.
    induction IH as [|elem rest Helem _ IHrest]; intros arr; [apply reportsOnly_ret|].
    apply reportsOnly_bind; [exact Helem|intros [[v ?]|]];
      [apply IHrest|apply reportsOnly_ret].
  - simpl.
    match goal with |- reportsOnly (?loop properties [] true) =>
      cut (∀ obj accessor, reportsOnly (loop properties obj accessor));
        [intros H; apply H|] end.
    induction IH as [|member rest Hmember _ IHrest]; intros obj accessor;
      [apply reportsOnly_ret|].
    destruct member as [name initializer| | | | |]; try apply IHrest.
    apply reportsOnly_bind; [apply reportsOnly_getPropertyKeyCtx|intros key].
    destruct (truthyOpt key); [|apply IHrest].
    apply reportsOnly_bind; [exact Hmember|intros [[v inherits]|]];
      [|apply reportsOnly_ret].
    destruct (assignProperty _ v inherits obj accessor). apply IHrest.
  - destruct e; try done; apply reportsOnly_ret.
Qed.

Lemma reportsOnly_getJsonValue (prop : Expr) : reportsOnly (getJsonValue prop).
Proof.
  apply reportsOnly_bind; [apply reportsOnly_getJsonValue_chain|].
  intros ?. apply reportsOnly_ret.
Qed.

(** X5. [getJsonValue] does nothing to the extraction context but push
    errors, and both the value it reads and the errors it pushes are
    determined by the expression alone. *)
Theorem getJsonValue_reportsOnly (prop : Expr) : reportsOnly (getJsonValue prop).
Proof. apply reportsOnly_getJsonValue. Qed.

(** ** The scan of [forEachStaticProperty] *)

Lemma forEachStaticProperty_scan_app l1 l2 cb seen ctx :
  forEachStaticProperty_scan (l1 ++ l2) cb seen ctx
  = forEachStaticProperty_scan l2 cb (seenAfter l1.*2 seen)
      (forEachStaticProperty_scan l1 cb seen ctx).2.
Proof.
  revert seen ctx. induction l1 as [|[i prop] rest IH]; intros seen ctx; [done|].
  simpl. destruct prop as [name initializer| | | | |];
    try (unfold mbind, Extract_bind; simpl; apply IH).
  unfold mbind, Extract_bind. simpl.
  destruct (truthyOpt (getPropertyKey name).2) as [k|]; [|apply IH].
  case_bool_decide as Hseen.
  - rewrite IH. by rewrite (subseteq_union_1_L {[k]} seen) by by apply singleton_subseteq_l.
  - destruct (withAstPathSegment _ _ _) as [[] ctx1]. simpl. apply IH.
Qed.

Lemma indexed_app {A} (l1 l2 : list A) :
  indexed (l1 ++ l2) = indexed l1 ++ imap (fun i => pair (length l1 + i)) l2.
Proof. unfold indexed. by rewrite imap_app. Qed.

(** X6. [forEachStaticProperty] never looks at the value of a property that a
    later property with the same key overrides: changing the initializer of
    the earlier duplicate changes nothing. *)
Theorem forEachStaticProperty_overridden (cb : PropertyRef → string → Extract unit)
    (pre post : list ObjProp) (name name2 : PropName) (value value' value2 : Expr)
    (k : string) (ctx : ExtractionContext) :
  (getPropertyKey name).2 = Some k →
  truthy k = true →
  PropertyAssignment name2 value2 ∈ post →
  (getPropertyKey name2).2 = Some k →
  forEachStaticProperty (pre ++ PropertyAssignment name value :: post) cb ctx
  = forEachStaticProperty (pre ++ PropertyAssignment name value' :: post) cb ctx.
Proof.
  intros Hkey Hk Hin Hkey2. unfold forEachStaticProperty.
  rewrite !indexed_app. simpl. rewrite !reverse_app, !reverse_cons, <- !app_assoc.
  rewrite !(forEachStaticProperty_scan_app (reverse _)).
  set (later := reverse (imap _ post)).
  assert (Hseen : k ∈ seenAfter later.*2 ∅).
  { eapply seenAfter_key; [|exact Hkey2|exact Hk].
    unfold later. rewrite fmap_reverse, elem_of_reverse.
    rewrite fmap_imap. apply list_elem_of_lookup in Hin as [i Hi].
    apply list_elem_of_lookup. exists i. rewrite list_lookup_imap, Hi. done. }
  simpl. unfold mbind, Extract_bind. simpl. rewrite Hkey. simpl. rewrite Hk.
  by rewrite bool_decide_eq_true_2 by done.
Qed.

Lemma forEachStaticProperty_overridden_witness :
  forEachStaticProperty
    ([] ++ PropertyAssignment (NIdentifier "initial") (EStringLiteral DoubleQuote "a")
        :: [initialB])
    reportNonString (freshContext 0)
  = forEachStaticProperty
      ([] ++ PropertyAssignment (NIdentifier "initial") ENullKeyword :: [initialB])
      reportNonString (freshContext 0).
Proof.
  apply (forEachStaticProperty_overridden _ [] [initialB] (NIdentifier "initial")
           (NIdentifier "initial") _ _ (EStringLiteral DoubleQuote "b") "initial");
    [reflexivity|reflexivity|apply list_elem_of_singleton; reflexivity|reflexivity].
Defined.

(** ** The climb of [getPathNodes] *)

Lemma getPathNodes_climb_Ok fuel nodeMap node chain :
  getPathNodes_climb fuel nodeMap node = Ok chain →
  head chain = Some node
  ∧ (∃ top, last chain = Some top ∧ truthyOpt (Node.parentId top) = None)
  ∧ climbs nodeMap chain
  ∧ (length chain ≤ fuel)%nat.
Proof.
  revert node chain. induction fuel as [|fuel IH]; intros node chain; [done|]. simpl.
  destruct (truthyOpt (Node.parentId node)) as [parentId|] eqn:Hp.
  - destruct (nodeMap !! parentId) as [parent|] eqn:Hparent; [|done].
    destruct (getPathNodes_climb fuel nodeMap parent) as [rest| | |] eqn:Hrest; try done.
    intros [= <-]. destruct (IH _ _ Hrest) as (Hhead & (top & Hlast & Htop) & Hclimbs & Hlen).
    destruct rest as [|parent' rest']; [done|]. injection Hhead as ->.
    split; [done|]. split; [|split].
    + exists top. split; [|done]. by rewrite last_cons, Hlast.
    + split; [by exists parentId|done].
    + simpl in *. lia.
  - intros [= <-]. split; [done|]. split; [by exists node|]. split; [done|simpl; lia].
Qed.

(** X7. The chain [getPathNodes] returns starts at the node it is given,
    climbs from each node to the node registered under its [parentId], and
    ends at a node without a parent; it has at most one node more than the
    digraph. *)
Theorem getPathNodes_climbs_to_root (nodeMap : gmap string Node.t) (node : Node.t)
    (chain : list Node.t) :
  getPathNodes nodeMap node = Ok chain →
  head chain = Some node
  ∧ (∃ top, last chain = Some top ∧ truthyOpt (Node.parentId top) = None)
  ∧ climbs nodeMap chain
  ∧ (length chain ≤ S (size nodeMap))%nat.
Proof. apply getPathNodes_climb_Ok. Qed.

Lemma getPathNodes_climbs_to_root_witness :
  head exampleChainA1 = Some (exampleNode "n3" (Some "n1") "a1")
  ∧ (∃ top, last exampleChainA1 = Some top ∧ truthyOpt (Node.parentId top) = None)
  ∧ climbs (nodes exampleDigraph) exampleChainA1
  ∧ (length exampleChainA1 ≤ S (size (nodes exampleDigraph)))%nat.
Proof.
  apply (getPathNodes_climbs_to_root (nodes exampleDigraph)
           (exampleNode "n3" (Some "n1") "a1") exampleChainA1).
  vm_compute. reflexivity.
Defined.

Lemma getPathNodes_climb_mono fuel fuel' nodeMap node :
  (fuel ≤ fuel')%nat →
  getPathNodes_climb fuel nodeMap node ≠ OutOfFuel →
  getPathNodes_climb fuel' nodeMap node = getPathNodes_climb fuel nodeMap node.
Proof.
  revert fuel' node. induction fuel as [|fuel IH]; intros fuel' node Hle; [done|].
  destruct fuel' as [|fuel'']; [lia|]. simpl.
  destruct (truthyOpt (Node.parentId node)) as [parentId|]; [|done].
  destruct (nodeMap !! parentId) as [parent|]; [|done].
  intros Hrun. rewrite (IH fuel'' parent); [done|lia|].
  by destruct (getPathNodes_climb fuel nodeMap parent).
Qed.

(** A climb that ends with fuel [S fuel] and not with less has passed [fuel]
    registered nodes, none of them twice. *)
Lemma getPathNodes_climb_bound fuel nodeMap node (visited : gset string) :
  getPathNodes_climb (S fuel) nodeMap node ≠ OutOfFuel →
  getPathNodes_climb fuel nodeMap node = OutOfFuel →
  visited ⊆ dom nodeMap →
  (∀ id passed, id ∈ visited → nodeMap !! id = Some passed →
                getPathNodes_climb fuel nodeMap passed = OutOfFuel) →
  (fuel + size visited ≤ size nodeMap)%nat.
Proof.
  revert node visited. induction fuel as [|fuel IH]; intros node visited Hends Hshort Hdom Hpassed.
  { simpl. rewrite <- (size_dom nodeMap). by apply subseteq_size. }
  remember (S fuel) as fuel1 eqn:Hfuel1. simpl in Hends. subst fuel1. simpl in Hshort.
  destruct (truthyOpt (Node.parentId node)) as [parentId|]; [|done].
  destruct (nodeMap !! parentId) as [parent|] eqn:Hparent; [|done].
  assert (Hparent_ends : getPathNodes_climb (S fuel) nodeMap parent ≠ OutOfFuel).
  { intros E. by rewrite E in Hends. }
  assert (Hparent_short : getPathNodes_climb fuel nodeMap parent = OutOfFuel).
  { by destruct (getPathNodes_climb fuel nodeMap parent). }
  assert (Hfresh : parentId ∉ visited).
  { intros Hin. apply Hparent_ends. by eapply Hpassed. }
  specialize (IH parent ({[parentId]} ∪ visited) Hparent_ends Hparent_short).
  rewrite size_union, size_singleton in IH by set_solver.
  enough (fuel + (1 + size visited) ≤ size nodeMap)%nat by lia.
  apply IH.
  - apply union_subseteq. split; [|done]. apply singleton_subseteq_l, elem_of_dom. by eexists.
  - intros id passed [Hid|Hid]%elem_of_union Hlookup.
    + apply elem_of_singleton in Hid as ->. by rewrite Hparent in Hlookup; injection Hlookup as <-.
    + destruct (getPathNodes_climb fuel nodeMap passed) eqn:E; try done;
        rewrite <- (getPathNodes_climb_mono fuel (S fuel)) in E by (lia || congruence);
        by rewrite (Hpassed id passed Hid Hlookup) in E.
Qed.

Lemma getPathNodes_climb_least fuel nodeMap node :
  getPathNodes_climb fuel nodeMap node ≠ OutOfFuel →
  ∃ least, (S least ≤ fuel)%nat
           ∧ getPathNodes_climb (S least) nodeMap node ≠ OutOfFuel
           ∧ getPathNodes_climb least nodeMap node = OutOfFuel.
Proof.
  induction fuel as [|fuel IH]; [done|]. intros Hends.
  destruct (getPathNodes_climb fuel nodeMap node) eqn:E.
  - destruct IH as (least & ? & ? & ?); [done|]. exists least. split; [lia|done].
  - destruct IH as (least & ? & ? & ?); [done|]. exists least. split; [lia|done].
  - exists fuel. by rewrite E.
  - destruct IH as (least & ? & ? & ?); [done|]. exists least. split; [lia|done].
Qed.

Lemma getPathNodes_climb_enough fuel nodeMap node :
  getPathNodes_climb fuel nodeMap node ≠ OutOfFuel →
  getPathNodes nodeMap node = getPathNodes_climb fuel nodeMap node.
Proof.
  intros Hfuel.
  destruct (getPathNodes_climb_least fuel nodeMap node Hfuel) as (least & Hle & Hends & Hshort).
  pose proof (getPathNodes_climb_bound least nodeMap node ∅ Hends Hshort) as Hbound.
  rewrite size_empty in Hbound. unfold getPathNodes.
  transitivity (getPathNodes_climb (S least) nodeMap node).
  - apply getPathNodes_climb_mono; [|done].
    enough (least + 0 ≤ size nodeMap)%nat by lia.
    apply Hbound; [set_solver|]. intros id passed Hid. by apply elem_of_empty in Hid.
  - symmetry. by apply getPathNodes_climb_mono.
Qed.

(** X8. The fuel of [getPathNodes] is enough: whatever a climb with any
    amount of fuel returns, [getPathNodes] returns; it runs out of fuel only
    on a chain of parents on which the loop of the source does not end. *)
Theorem getPathNodes_fuel_enough (nodeMap : gmap string Node.t) (node : Node.t)
    (fuel : nat) :
  getPathNodes_climb fuel nodeMap node = OutOfFuel
  ∨ getPathNodes nodeMap node = getPathNodes_climb fuel nodeMap node.
Proof.
  destruct (getPathNodes_climb fuel nodeMap node) eqn:E; [right|right|by left|right];
    rewrite <- E; apply getPathNodes_climb_enough; by rewrite E.
Qed.

(** ** Descriptors with an empty segment *)

Lemma walkPath_empty_segment ctx marker pre post :
  walkPath ctx marker (pre ++ "" :: post) = walkPath ctx marker pre.
Proof.
  revert marker. induction pre as [|segment pre IH]; intros marker; [done|].
  simpl. destruct (truthy segment); [|done].
  destruct (nextMarker ctx marker segment) as [next| | |]; simpl; try done.
  destruct (truthyValue next); [apply IH|done].
Qed.

(** X9. The walk of [resolveTargetId] along the segments of a descriptor
    stops at the first empty segment: what follows a doubled or trailing dot
    is not looked at. *)
Theorem resolveTarget_empty_segment (ctx : ExtractionContext) (sourceId origin : string)
    (pre post : list string) :
  Forall (fun s => contains dot s = false) (origin :: pre ++ post) →
  resolveTarget ctx sourceId (join "." (origin :: pre ++ "" :: post))
  = resolveTarget ctx sourceId (join "." (origin :: pre)).
Proof.
  intros Hfree. unfold resolveTarget.
  rewrite !split_join; try done.
  - cbn [head tail].
    destruct (resolvePathOrigin ctx sourceId (Some origin)) as [resolved| | |]; try done.
    cbn [mbind Outcome_bind]. by rewrite walkPath_empty_segment.
  - apply Forall_cons in Hfree as [Horigin Hrest]. apply Forall_cons. split; [done|].
    apply Forall_app in Hrest as [Hpre _]. done.
  - apply Forall_cons in Hfree as [Horigin Hrest]. apply Forall_cons. split; [done|].
    apply Forall_app in Hrest as [Hpre Hpost]. apply Forall_app. split; [done|].
    by apply Forall_cons.
Qed.

Lemma resolveTarget_empty_segment_witness :
  resolveTarget exampleContext "n2" (join "." ("a" :: [] ++ "" :: ["missing"]))
  = resolveTarget exampleContext "n2" (join "." ("a" :: [])).
Proof.
  apply (resolveTarget_empty_segment exampleContext "n2" "a" [] ["missing"]).
  repeat constructor.
Defined.

(** ** Patches that leave the source text alone *)

Lemma applyPatchList_app call currentState patches1 patches2 :
  applyPatchList call currentState (patches1 ++ patches2)
  = changes1 ← applyPatchList call currentState patches1;
    changes2 ← applyPatchList call currentState patches2;
    Ok (changes1 ++ changes2).
Proof.
  induction patches1 as [|patch rest IH]; simpl.
  - by destruct (applyPatchList call currentState patches2).
  - destruct (applyPatch call currentState patch) as [changes| | |]; try done. simpl.
    rewrite IH. destruct (applyPatchList call currentState rest) as [more| | |]; try done. simpl.
    destruct (applyPatchList call currentState patches2) as [more2| | |]; try done. simpl.
    by rewrite app_assoc.
Qed.

(** X10. The code changes of a batch of patches are those of its parts, in
    order: the patches are translated one by one against the same machine
    state, and the first one that fails makes the batch fail. *)
Theorem applyPatchList_concat (call : CallExpression) (currentState : ProjectMachineState)
    (patches1 patches2 : list Patch) :
  applyPatchList call currentState (patches1 ++ patches2)
  = (changes1 ← applyPatchList call currentState patches1;
     changes2 ← applyPatchList call currentState patches2;
     Ok (changes1 ++ changes2))
  ∧ (∀ msg, applyPatchList call currentState patches1 = Throw msg →
            applyPatchList call currentState (patches1 ++ patches2) = Throw msg).
Proof.
  rewrite applyPatchList_app. split; [done|]. by intros msg ->.
Qed.

(** X11. Removals, and replacements inside an edge, are never written back:
    a batch of such patches replaces the digraph of the machine by the one
    immer computes and yields no code change. *)
Theorem machineApplyPatches_untranslated
    (immer : option ExtractorDigraphDef → list Patch → Outcome (option ExtractorDigraphDef))
    (program : TsProgram) (machine : ProjectMachine) (patches : list Patch)
    (found : SourceFile * CallExpression) (oldState : ProjectMachineState)
    (patched : option ExtractorDigraphDef) :
  Forall removesOrEditsEdge patches →
  findOwnCreateMachineCall program machine = Ok found →
  state machine = Some oldState →
  immer (pms_digraph oldState) patches = Ok patched →
  machineApplyPatches immer program machine patches
  = Ok ({| fileName := fileName machine; machineIndex := machineIndex machine;
           state := Some (withDigraph patched oldState) |}, []).
Proof.
  intros Hpatches Hfound Hstate Himmer. unfold machineApplyPatches.
  rewrite Hfound. destruct found as [sourceFile call]. simpl.
  rewrite Hstate, Himmer. simpl.
  assert (Hnone : applyPatchList call (withDigraph patched oldState) patches = Ok []).
  { clear Himmer. induction Hpatches as [|patch rest Hpatch _ IH]; [done|]. simpl.
    assert (Hone : applyPatch call (withDigraph patched oldState) patch = Ok []).
    { unfold applyPatch. destruct Hpatch as [->|[-> ->]]; done. }
    by rewrite Hone, IH. }
  by rewrite Hnone.
Qed.

Lemma machineApplyPatches_untranslated_witness :
  machineApplyPatches keepDigraph programWithMachine
    {| fileName := "machine.ts"; machineIndex := 0; state := Some exampleState |}
    [{| op := remove; path := ["nodes"; "n1"]; value := ValueUndefined |};
     {| op := replace; path := ["edges"; "e0"; "data"; "description"];
        value := ValueString "later" |}]
  = Ok ({| fileName := "machine.ts"; machineIndex := 0;
           state := Some (withDigraph (pms_digraph exampleState) exampleState) |}, []).
Proof.
  eapply (machineApplyPatches_untranslated keepDigraph programWithMachine
            {| fileName := "machine.ts"; machineIndex := 0; state := Some exampleState |}).
  - apply Forall_cons; split; [left; reflexivity|].
    apply Forall_cons; split; [right; split; reflexivity|]. constructor.
  - vm_compute. reflexivity.
  - reflexivity.
  - reflexivity.
Defined.

(** ** The calls [findCreateMachineCalls] collects *)

Lemma visitor_callee (node : Expr) :
  Forall (fun call => isCreateMachineCallee (call_expression call) = true) (visitor node)
with visitorProperty_callee (prop : ObjProp) :
  Forall (fun call => isCreateMachineCallee (call_expression call) = true)
    (visitorProperty prop)
with visitorName_callee (name : PropName) :
  Forall (fun call => isCreateMachineCallee (call_expression call) = true)
    (visitorName name).
Proof.
  - assert (Hlist : ∀ l : list Expr,
              Forall (fun e => Forall (fun call =>
                        isCreateMachineCallee (call_expression call) = true) (visitor e)) l →
              Forall (fun call => isCreateMachineCallee (call_expression call) = true)
                (flat_map visitor l)).
    { intros l H. induction H; simpl; [constructor|]. by apply Forall_app. }
    destruct node as [| | | | | | |elements|properties|? children|? children|callee arguments
                      |expression name| |children]; simpl; try constructor.
    + apply Hlist. induction elements; constructor; [apply visitor_callee|done].
    + induction properties as [|prop rest IH]; simpl; [constructor|].
      apply Forall_app. split; [apply visitorProperty_callee|done].
    + apply Hlist. induction children; constructor; [apply visitor_callee|done].
    + apply Hlist. induction children; constructor; [apply visitor_callee|done].
    + apply Forall_app. split.
      * destruct (isCreateMachineCallee callee) eqn:E; repeat constructor. done.
      * apply Forall_app. split; [apply visitor_callee|].
        apply Hlist. induction arguments; constructor; [apply visitor_callee|done].
    + apply visitor_callee.
    + apply Hlist. induction children; constructor; [apply visitor_callee|done].
  - assert (Hlist : ∀ l : list Expr,
              Forall (fun e => Forall (fun call =>
                        isCreateMachineCallee (call_expression call) = true) (visitor e)) l →
              Forall (fun call => isCreateMachineCallee (call_expression call) = true)
                (flat_map visitor l)).
    { intros l H. induction H; simpl; [constructor|]. by apply Forall_app. }
    destruct prop as [name initializer|?|expression|name children|name children|name children];
      simpl; try constructor.
    + apply Forall_app. split; [apply visitorName_callee|apply visitor_callee].
    + apply visitor_callee.
    + apply Forall_app. split; [apply visitorName_callee|].
      apply Hlist. induction children; constructor; [apply visitor_callee|done].
    + apply Forall_app. split; [apply visitorName_callee|].
      apply Hlist. induction children; constructor; [apply visitor_callee|done].
    + apply Forall_app. split; [apply visitorName_callee|].
      apply Hlist. induction children; constructor; [apply visitor_callee|done].
  - destruct name; simpl; try constructor. apply visitor_callee.
Qed.

(** X12. Every call that [findCreateMachineCalls] collects is a call of
    [createMachine], named directly or as a member ([x.createMachine]). *)
Theorem findCreateMachineCalls_callee (sourceFile : SourceFile) :
  Forall (fun call => isCreateMachineCallee (call_expression call) = true)
    (findCreateMachineCalls sourceFile).
Proof.
  unfold findCreateMachineCalls.
  induction (statements sourceFile) as [|statement rest IH]; simpl; [constructor|].
  apply Forall_app. split; [|done].
  destruct statement as [moduleSpecifier|[moduleSpecifier|]|children]; simpl;
    try apply visitor_callee; [constructor|].
  induction children as [|child more IHc]; simpl; [constructor|].
  apply Forall_app. split; [apply visitor_callee|done].
Qed.

(** ** A step of the extraction only adds *)

#[global] Instance accumulates_refl : Reflexive accumulates.
Proof. by intros ctx. Qed.

#[global] Instance accumulates_trans : Transitive accumulates.
Proof.
  intros a b c [? ? ? ? ? ? ? ? ? ? ?] [? ? ? ? ? ? ? ? ? ? ?].
  split; try congruence; by etransitivity.
Qed.

(** A step that changes neither the digraph, nor the tree nodes, nor the id
    map, nor the AST paths, and keeps the errors. *)
Lemma accumulates_quiet ctx ctx' :
  errors ctx `prefix_of` errors ctx' →
  currentAstPath ctx' = currentAstPath ctx →
  astPaths ctx' = astPaths ctx →
  ctx_digraph ctx' = ctx_digraph ctx →
  treeNodes ctx' = treeNodes ctx →
  idToNodeIdMap ctx' = idToNodeIdMap ctx →
  accumulates ctx ctx'.
Proof. intros ? ? ? Hd Ht Hi. split; rewrite ?Hd, ?Ht, ?Hi; done. Qed.

(** A step on the digraph alone. *)
Lemma accumulates_modifyDigraph f :
  (∀ d, dom (nodes d) ⊆ dom (nodes (f d)) ∧ dom (edges d) ⊆ dom (edges (f d))
        ∧ dom (blocks d) ⊆ dom (blocks (f d))
        ∧ actions (implementations d) ⊆ actions (implementations (f d))
        ∧ actors (implementations d) ⊆ actors (implementations (f d))
        ∧ guards (implementations (f d)) = guards (implementations d)) →
  keeps accumulates (modifyDigraph f).
Proof.
  intros H ctx. destruct (H (ctx_digraph ctx)) as (? & ? & ? & ? & ? & ?). by split.
Qed.

Lemma accumulates_pushError e : keeps accumulates (pushError e).
Proof. intros ctx. apply accumulates_quiet; try done. by apply prefix_app_r. Qed.

Lemma accumulates_pushErrors es : keeps accumulates (pushErrors es).
Proof. intros ctx. apply accumulates_quiet; try done. by apply prefix_app_r. Qed.

Lemma accumulates_uniqueId : keeps accumulates uniqueId.
Proof. by intros ctx. Qed.

Lemma accumulates_modifyNodeData id f : keeps accumulates (modifyNodeData id f).
Proof. apply accumulates_modifyDigraph. intros d. simpl. by rewrite dom_alter_L. Qed.

Lemma accumulates_setContext v : keeps accumulates (modifyDigraph (setContext v)).
Proof. by apply accumulates_modifyDigraph. Qed.

Lemma accumulates_getNodeData id : keeps accumulates (getNodeData id).
Proof. by intros ctx. Qed.

Lemma accumulates_modifyTreeNode id f : keeps accumulates (modifyTreeNode id f).
Proof. intros ctx. split; try done. simpl. by rewrite dom_alter_L. Qed.

Lemma registerImplementation_subseteq kind sourceId impls :
  impls ⊆ registerImplementation kind sourceId impls.
Proof.
  unfold registerImplementation. destruct (impls !! sourceId) eqn:E; [done|].
  destruct (inheritedName sourceId); [done|]. by apply insert_subseteq.
Qed.

Lemma accumulates_registerActionBlock block :
  keeps accumulates
    (modifyDigraph (fun d =>
       registerActionImplementation (Block.sourceId block)
         (setBlocks (<[Block.uniqueId block := block]> (blocks d)) d))).
Proof.
  apply accumulates_modifyDigraph. intros d. simpl. repeat split; try done.
  - rewrite dom_insert_L. apply union_subseteq_r.
  - apply registerImplementation_subseteq.
Qed.

Lemma accumulates_registerActorBlock block :
  keeps accumulates
    (modifyDigraph (fun d =>
       registerActorImplementation (Block.sourceId block)
         (setBlocks (<[Block.uniqueId block := block]> (blocks d)) d))).
Proof.
  apply accumulates_modifyDigraph. intros d. simpl. repeat split; try done.
  - rewrite dom_insert_L. apply union_subseteq_r.
  - apply registerImplementation_subseteq.
Qed.

Lemma accumulates_registerEdge edge :
  keeps accumulates
    (modifyDigraph (fun d => setEdges (<[Edge.uniqueId edge := edge]> (edges d)) d)).
Proof.
  apply accumulates_modifyDigraph. intros d. simpl. repeat split; try done.
  rewrite dom_insert_L. apply union_subseteq_r.
Qed.

Lemma accumulates_registerNode node :
  keeps accumulates
    (modifyDigraph (fun d => setNodes (<[Node.uniqueId node := node]> (nodes d)) d)).
Proof.
  apply accumulates_modifyDigraph. intros d. simpl. repeat split; try done.
  rewrite dom_insert_L. apply union_subseteq_r.
Qed.

#[global] Hint Resolve accumulates_pushError accumulates_pushErrors accumulates_uniqueId
  accumulates_modifyNodeData accumulates_setContext accumulates_getNodeData
  accumulates_modifyTreeNode accumulates_registerActionBlock accumulates_registerActorBlock
  accumulates_registerEdge : keeps.

Lemma accumulates_withAstPathSegment {T} i (cb : Extract T) :
  keeps accumulates cb → keeps accumulates (withAstPathSegment i cb).
Proof.
  intros H ctx. unfold withAstPathSegment, mbind, Extract_bind. simpl.
  specialize (H (setCurrentAstPath (currentAstPath ctx ++ [i]) ctx)).
  destruct (cb _) as [r ctx1]. destruct H as [? Hpath ? ? ? ? ? ? ? ? ?]. simpl in *.
  split; try done. simpl. by rewrite Hpath, removelast_last.
Qed.

Lemma accumulates_mapElements {T} (cb : Expr → nat → Extract T) elements i :
  (∀ e j, keeps accumulates (cb e j)) → keeps accumulates (mapElements cb elements i).
Proof.
  intros H. revert i. induction elements as [|e rest IH]; intros i; simpl.
  - keeps_auto.
  - apply keeps_bind; [typeclasses eauto|by apply accumulates_withAstPathSegment|intros r].
    apply keeps_bind; [typeclasses eauto|apply IH|intros rs]. keeps_auto.
Qed.

Lemma accumulates_mapMaybeArrayElements {T} expression (cb : Expr → nat → Extract T) :
  (∀ e j, keeps accumulates (cb e j)) → keeps accumulates (mapMaybeArrayElements expression cb).
Proof.
  intros H. unfold mapMaybeArrayElements.
  destruct expression; try (apply keeps_bind; [typeclasses eauto|apply H|intros r; keeps_auto]).
  by apply accumulates_mapElements.
Qed.

Lemma accumulates_reportsOnly {A} (m : Extract A) : reportsOnly m → keeps accumulates m.
Proof.
  intros (a & es & H) ctx. rewrite H. apply accumulates_quiet; try done.
  by apply prefix_app_r.
Qed.

Lemma accumulates_getPropertyKeyCtx name : keeps accumulates (getPropertyKeyCtx name).
Proof. unfold getPropertyKeyCtx. keeps_auto. Qed.

Lemma accumulates_findPropertyCtx obj key : keeps accumulates (findPropertyCtx obj key).
Proof. unfold findPropertyCtx. keeps_auto. Qed.

Lemma accumulates_getJsonValue prop : keeps accumulates (getJsonValue prop).
Proof. apply accumulates_reportsOnly, reportsOnly_getJsonValue. Qed.

Lemma accumulates_createActionBlock sourceId parentId :
  keeps accumulates (createActionBlock sourceId parentId).
Proof. unfold createActionBlock. keeps_auto. Qed.

Lemma accumulates_createActorBlock sourceId parentId actorId :
  keeps accumulates (createActorBlock sourceId parentId actorId).
Proof. unfold createActorBlock. keeps_auto. Qed.

Lemma accumulates_createEdge sourceId eventTypeData :
  keeps accumulates (createEdge sourceId eventTypeData).
Proof. unfold createEdge. keeps_auto. Qed.

Lemma accumulates_inlineSourceId : keeps accumulates inlineSourceId.
Proof. unfold inlineSourceId. keeps_auto. Qed.

#[global] Hint Resolve accumulates_getPropertyKeyCtx accumulates_findPropertyCtx
  accumulates_getJsonValue accumulates_createActionBlock accumulates_createActorBlock
  accumulates_createEdge accumulates_inlineSourceId : keeps.

Lemma accumulates_getJsonObject properties : keeps accumulates (getJsonObject properties).
Proof. unfold getJsonObject. keeps_auto. Qed.

Lemma accumulates_getObjectTransitionTargets transition :
  keeps accumulates (getObjectTransitionTargets transition).
Proof.
  unfold getObjectTransitionTargets.
  apply keeps_bind; [typeclasses eauto|eauto with keeps|intros [p|]]; [|keeps_auto].
  destruct (isForbiddenTarget _); [keeps_auto|].
  apply keeps_bind; [typeclasses eauto| |intros ?; keeps_auto].
  apply accumulates_mapMaybeArrayElements. intros e j. keeps_auto.
Qed.

Lemma accumulates_extractActionBlocks expression parentId :
  keeps accumulates (extractActionBlocks expression parentId).
Proof.
  unfold extractActionBlocks. apply accumulates_mapMaybeArrayElements. intros e j.
  destruct (isUndefined e); [keeps_auto|].
  destruct e; keeps_auto.
Qed.

Lemma accumulates_registerActionBlocks blockList container :
  keeps accumulates (registerActionBlocks blockList container).
Proof.
  revert container. induction blockList as [|block rest IH]; intros container; simpl.
  - keeps_auto.
  - apply keeps_bind; [typeclasses eauto|eauto with keeps|intros _]. apply IH.
Qed.

#[global] Hint Resolve accumulates_getJsonObject accumulates_getObjectTransitionTargets
  accumulates_extractActionBlocks accumulates_registerActionBlocks : keeps.

Lemma accumulates_extractEdgeProperties rprops seen edge :
  keeps accumulates (extractEdgeProperties rprops seen edge).
Proof.
  revert seen edge. induction rprops as [|prop rest IH]; intros seen edge; simpl.
  - keeps_auto.
  - destruct prop; keeps_auto.
Qed.

#[global] Hint Resolve accumulates_extractEdgeProperties : keeps.

Lemma accumulates_extractEdgeElement sourceId eventTypeData element :
  keeps accumulates (extractEdgeElement sourceId eventTypeData element).
Proof.
  unfold extractEdgeElement. destruct (isForbiddenTarget element); [keeps_auto|].
  destruct element; keeps_auto.
Qed.

Lemma accumulates_registerEdges mapped : keeps accumulates (registerEdges mapped).
Proof.
  induction mapped as [|[edge targets] rest IH]; simpl; [keeps_auto|].
  apply keeps_bind; [typeclasses eauto|eauto with keeps|intros _].
  apply keeps_bind; [typeclasses eauto| |intros _; exact IH].
  destruct targets; [by intros ctx|keeps_auto].
Qed.

Lemma accumulates_extractEdgeGroup transition sourceId eventTypeData :
  keeps accumulates (extractEdgeGroup transition sourceId eventTypeData).
Proof.
  unfold extractEdgeGroup.
  apply keeps_bind; [typeclasses eauto| |intros mapped].
  - apply accumulates_mapMaybeArrayElements. intros e j. apply accumulates_extractEdgeElement.
  - destruct (everyDefined mapped); [apply accumulates_registerEdges|keeps_auto].
Qed.

#[global] Hint Resolve accumulates_extractEdgeGroup : keeps.

Lemma accumulates_extractOn nodeId transitions : keeps accumulates (extractOn nodeId transitions).
Proof.
  induction transitions as [|member rest IH]; simpl; [keeps_auto|].
  destruct member; keeps_auto.
Qed.

Lemma accumulates_extractMeta nodeId metas : keeps accumulates (extractMeta nodeId metas).
Proof. induction metas as [|member rest IH]; simpl; [keeps_auto|]. destruct member; keeps_auto. Qed.

Lemma accumulates_extractActorBlock nodeId element :
  keeps accumulates (extractActorBlock nodeId element).
Proof.
  unfold extractActorBlock. destruct (isUndefined element); [keeps_auto|].
  destruct element; keeps_auto.
Qed.

Lemma accumulates_registerActorBlocks nodeId blockList :
  keeps accumulates (registerActorBlocks nodeId blockList).
Proof. induction blockList as [|block rest IH]; simpl; keeps_auto. Qed.

Lemma accumulates_extractEntryExit nodeId initializer get set :
  keeps accumulates (extractEntryExit nodeId initializer get set).
Proof. unfold extractEntryExit. keeps_auto. Qed.

#[global] Hint Resolve accumulates_extractOn accumulates_extractMeta accumulates_extractActorBlock
  accumulates_registerActorBlocks accumulates_extractEntryExit
  accumulates_mapMaybeArrayElements : keeps.

Section Accumulation.
Variable rec : option Expr → option string → Extract (Outcome (option string)).
Hypothesis rec_accumulates : ∀ state parentId, keeps accumulates (rec state parentId).

Lemma accumulates_extractStates nodeId states :
  keeps accumulates (extractStates rec nodeId states).
Proof.
  induction states as [|member rest IH]; simpl; [keeps_auto|].
  destruct member; keeps_auto.
Qed.

Lemma accumulates_setIdToNodeIdMap (flow : Flow) text nodeId :
  keeps accumulates
    (fun ctx => (flow, setIdToNodeIdMap (declareId text nodeId (idToNodeIdMap ctx)) ctx)).
Proof.
  intros ctx. split; try done. simpl. unfold declareId.
  destruct (_ && _); [done|]. rewrite dom_insert_L. apply union_subseteq_r.
Qed.

Lemma accumulates_extractStateProperty nodeId parentId key initializer :
  keeps accumulates (extractStateProperty rec nodeId parentId key initializer).
Proof.
  unfold extractStateProperty.
  repeat match goal with
  | |- keeps _ (if String.eqb key ?s then _ else _) => destruct (String.eqb key s)
  end;
  try solve [keeps_auto | destruct initializer; keeps_auto
             | destruct (isStringLiteralLike initializer);
               [apply accumulates_setIdToNodeIdMap|keeps_auto]].
  destruct initializer; try solve [keeps_auto]. apply accumulates_extractStates.
Qed.

Lemma accumulates_extractStateProperties nodeId parentId rprops seen :
  keeps accumulates (extractStateProperties rec nodeId parentId rprops seen).
Proof.
  revert seen. induction rprops as [|prop rest IH]; intros seen; simpl; [keeps_auto|].
  pose proof accumulates_extractStateProperty as Hproperty.
  destruct prop; keeps_auto.
Qed.

Lemma accumulates_extractState_body state parentId :
  keeps accumulates (extractState_body rec state parentId).
Proof.
  unfold extractState_body.
  apply keeps_bind; [typeclasses eauto|eauto with keeps|intros nodeId].
  apply keeps_bind; [typeclasses eauto| |intros ?].
  { apply (accumulates_registerNode
             {| Node.uniqueId := nodeId; Node.parentId := parentId;
                Node.data := defaultNodeData |}). }
  apply keeps_bind; [typeclasses eauto| |intros ?].
  { intros ctx. split; try done. simpl. rewrite dom_insert_L. apply union_subseteq_r. }
  destruct state as [[]|]; try solve [keeps_auto].
  apply keeps_bind; [typeclasses eauto|apply accumulates_extractStateProperties|intros flow].
  keeps_auto.
Qed.

End Accumulation.

Lemma accumulates_extractState fuel state parentId :
  keeps accumulates (extractState fuel state parentId).
Proof.
  revert state parentId. induction fuel as [|fuel IH]; intros state parentId; simpl.
  - keeps_auto.
  - apply accumulates_extractState_body. exact IH.
Qed.

(** ** What [resolveTargets] changes *)

#[global] Instance targetsAdded_refl : Reflexive targetsAdded.
Proof. by intros edge. Qed.

#[global] Instance targetsAdded_trans : Transitive targetsAdded.
Proof.
  intros a b c (? & ? & ? & ?) (? & ? & ? & ?).
  repeat split; [congruence..|by etransitivity].
Qed.

#[global] Instance onlyResolves_refl : Reflexive onlyResolves.
Proof.
  intros ctx. split; try done; intros edgeId;
    destruct (edges (ctx_digraph ctx) !! edgeId); by constructor.
Qed.

#[global] Instance onlyResolves_trans : Transitive onlyResolves.
Proof.
  intros a b c [Herrors1 Hedges1 ? ? ? ? ? ? ? ? ? ?] [Herrors2 Hedges2 ? ? ? ? ? ? ? ? ? ?].
  split; try congruence; [by etransitivity|].
  intros edgeId. specialize (Hedges1 edgeId). specialize (Hedges2 edgeId).
  destruct Hedges1 as [e1 e2 H12|]; inversion Hedges2 as [e2' e3 H23|]; subst; constructor.
  by transitivity e2.
Qed.

Lemma onlyResolves_errors ctx es : onlyResolves ctx (setErrors (errors ctx ++ es) ctx).
Proof.
  split; try done; [by apply prefix_app_r|..]; intros edgeId; simpl;
    destruct (edges (ctx_digraph ctx) !! edgeId); by constructor.
Qed.

Lemma onlyResolves_pushTarget ctx edgeId id :
  onlyResolves ctx
    (setDigraph (setEdges (alter (Edge.pushTarget id) edgeId (edges (ctx_digraph ctx)))
                   (ctx_digraph ctx)) ctx).
Proof.
  split; try done. intros edgeId'. simpl.
  destruct (decide (edgeId' = edgeId)) as [->|Hne].
  - rewrite lookup_alter_eq. destruct (edges (ctx_digraph ctx) !! edgeId); constructor.
    repeat split. by apply prefix_app_r.
  - rewrite lookup_alter_ne by done. destruct (edges (ctx_digraph ctx) !! edgeId'); by constructor.
Qed.

Lemma resolveTargetId_onlyResolves sourceId target ctx resolved ctx' :
  resolveTargetId sourceId target ctx = Ok (resolved, ctx') → onlyResolves ctx ctx'.
Proof.
  unfold resolveTargetId. destruct (resolveTarget ctx sourceId target) as [[id|]| | |]; try done.
  - by intros [= <- <-].
  - intros [= <- <-]. apply onlyResolves_errors.
Qed.

Lemma resolveEdgeTargets_onlyResolves edgeId edgeTargets ctx ctx' :
  resolveEdgeTargets edgeId edgeTargets ctx = Ok ctx' → onlyResolves ctx ctx'.
Proof.
  revert ctx. induction edgeTargets as [|edgeTarget rest IH]; intros ctx; simpl.
  { by intros [= <-]. }
  destruct (edges (ctx_digraph ctx) !! edgeId) as [edge|]; [|done].
  destruct (resolveTargetId (Edge.source edge) edgeTarget ctx) as [[resolved ctx1]| | |] eqn:E;
    [|done..].
  apply resolveTargetId_onlyResolves in E. simpl.
  destruct (truthyValue resolved); [destruct resolved as [|id| | |]; try done|];
    intros Hrest; apply IH in Hrest;
    (etransitivity; [exact E|]); (etransitivity; [|exact Hrest]).
  - apply onlyResolves_pushTarget.
  - apply onlyResolves_errors.
Qed.

Lemma resolveTargets_entries_onlyResolves entries ctx ctx' :
  resolveTargets_entries entries ctx = Ok ctx' → onlyResolves ctx ctx'.
Proof.
  revert ctx. induction entries as [|[edgeId edgeTargets] rest IH]; intros ctx; simpl.
  { by intros [= <-]. }
  destruct (resolveEdgeTargets edgeId edgeTargets ctx) as [ctx1| | |] eqn:E; [|done..].
  simpl. intros Hrest. etransitivity; [by eapply resolveEdgeTargets_onlyResolves|by apply IH].
Qed.

(** X13. [resolveTargets] only completes edges and reports errors: every
    edge keeps its id, source, data and the targets it had, with the
    resolved ones after them; no edge is added or lost; the errors recorded
    before stay, in order; nodes, blocks, implementations, tree nodes and
    the id map are what they were. *)
Theorem resolveTargets_onlyResolves (ctx ctx' : ExtractionContext) :
  resolveTargets ctx = Ok ctx' → onlyResolves ctx ctx'.
Proof. apply resolveTargets_entries_onlyResolves. Qed.

Lemma resolveTargets_onlyResolves_witness :
  onlyResolves exampleContextWithEdge resolvedExampleContext.
Proof.
  apply (resolveTargets_onlyResolves exampleContextWithEdge resolvedExampleContext).
  vm_compute. reflexivity.
Defined.

(** ** Steps that leave the digraph alone *)

#[global] Instance sameStore_refl : Reflexive sameStore.
Proof. by intros ctx. Qed.

#[global] Instance sameStore_trans : Transitive sameStore.
Proof. intros a b c (? & ? & ?) (? & ? & ?). repeat split; congruence. Qed.

Lemma sameStore_pushError e : keeps sameStore (pushError e).
Proof. by intros ctx. Qed.

Lemma sameStore_pushErrors es : keeps sameStore (pushErrors es).
Proof. by intros ctx. Qed.

Lemma sameStore_uniqueId : keeps sameStore uniqueId.
Proof. by intros ctx. Qed.

Lemma sameStore_enterAstPathSegment i : keeps sameStore (enterAstPathSegment i).
Proof. by intros ctx. Qed.

Lemma sameStore_exitAstPathSegment : keeps sameStore exitAstPathSegment.
Proof. by intros ctx. Qed.

Lemma sameStore_getNodeData id : keeps sameStore (getNodeData id).
Proof. by intros ctx. Qed.

#[global] Hint Resolve sameStore_pushError sameStore_pushErrors sameStore_uniqueId
  sameStore_enterAstPathSegment sameStore_exitAstPathSegment sameStore_getNodeData : keeps.

Lemma sameStore_withAstPathSegment {T} i (cb : Extract T) :
  keeps sameStore cb → keeps sameStore (withAstPathSegment i cb).
Proof. intros H. unfold withAstPathSegment. keeps_auto. Qed.

Lemma sameStore_mapElements {T} (cb : Expr → nat → Extract T) elements i :
  (∀ e j, keeps sameStore (cb e j)) → keeps sameStore (mapElements cb elements i).
Proof.
  intros H. revert i. induction elements as [|e rest IH]; intros i; simpl.
  - keeps_auto.
  - apply keeps_bind; [typeclasses eauto|by apply sameStore_withAstPathSegment|intros r].
    apply keeps_bind; [typeclasses eauto|apply IH|intros rs]. keeps_auto.
Qed.

Lemma sameStore_mapMaybeArrayElements {T} expression (cb : Expr → nat → Extract T) :
  (∀ e j, keeps sameStore (cb e j)) → keeps sameStore (mapMaybeArrayElements expression cb).
Proof.
  intros H. unfold mapMaybeArrayElements.
  destruct expression; try (apply keeps_bind; [typeclasses eauto|apply H|intros r; keeps_auto]).
  by apply sameStore_mapElements.
Qed.

Lemma sameStore_reportsOnly {A} (m : Extract A) : reportsOnly m → keeps sameStore m.
Proof. intros (a & es & H) ctx. by rewrite H. Qed.

Lemma sameStore_getPropertyKeyCtx name : keeps sameStore (getPropertyKeyCtx name).
Proof. unfold getPropertyKeyCtx. keeps_auto. Qed.

Lemma sameStore_findPropertyCtx obj key : keeps sameStore (findPropertyCtx obj key).
Proof. unfold findPropertyCtx. keeps_auto. Qed.

Lemma sameStore_getJsonValue prop : keeps sameStore (getJsonValue prop).
Proof. apply sameStore_reportsOnly, reportsOnly_getJsonValue. Qed.

Lemma sameStore_createActionBlock sourceId parentId :
  keeps sameStore (createActionBlock sourceId parentId).
Proof. unfold createActionBlock. keeps_auto. Qed.

Lemma sameStore_createActorBlock sourceId parentId actorId :
  keeps sameStore (createActorBlock sourceId parentId actorId).
Proof. unfold createActorBlock. keeps_auto. Qed.

Lemma sameStore_createEdge sourceId eventTypeData :
  keeps sameStore (createEdge sourceId eventTypeData).
Proof. unfold createEdge. keeps_auto. Qed.

Lemma sameStore_inlineSourceId : keeps sameStore inlineSourceId.
Proof. unfold inlineSourceId. keeps_auto. Qed.

#[global] Hint Resolve sameStore_getPropertyKeyCtx sameStore_findPropertyCtx
  sameStore_getJsonValue sameStore_createActionBlock sameStore_createActorBlock
  sameStore_createEdge sameStore_inlineSourceId : keeps.

Lemma sameStore_getJsonObject properties : keeps sameStore (getJsonObject properties).
Proof. unfold getJsonObject. keeps_auto. Qed.

Lemma sameStore_getObjectTransitionTargets transition :
  keeps sameStore (getObjectTransitionTargets transition).
Proof.
  unfold getObjectTransitionTargets.
  apply keeps_bind; [typeclasses eauto|eauto with keeps|intros [p|]]; [|keeps_auto].
  destruct (isForbiddenTarget _); [keeps_auto|].
  apply keeps_bind; [typeclasses eauto| |intros ?; keeps_auto].
  apply sameStore_mapMaybeArrayElements. intros e j. keeps_auto.
Qed.

Lemma sameStore_extractActionBlocks expression parentId :
  keeps sameStore (extractActionBlocks expression parentId).
Proof.
  unfold extractActionBlocks. apply sameStore_mapMaybeArrayElements. intros e j.
  destruct (isUndefined e); [keeps_auto|].
  destruct e; keeps_auto.
Qed.

Lemma sameStore_extractActorBlock nodeId element :
  keeps sameStore (extractActorBlock nodeId element).
Proof.
  unfold extractActorBlock. destruct (isUndefined element); [keeps_auto|].
  destruct element; keeps_auto.
Qed.

#[global] Hint Resolve sameStore_getJsonObject sameStore_getObjectTransitionTargets
  sameStore_extractActionBlocks sameStore_extractActorBlock
  sameStore_mapMaybeArrayElements : keeps.

(** ** Well-formed contexts stay well-formed *)

Lemma wellFormed_sameStore ctx ctx' : sameStore ctx ctx' → wellFormed ctx → wellFormed ctx'.
Proof.
  intros (Hd & Ht & Ho) [H1 H2 H3 H4 H5 H6].
  split; rewrite ?Hd, ?Ht, ?Ho; done.
Qed.

#[global] Instance widens_refl : Reflexive widens.
Proof. by intros ctx. Qed.

#[global] Instance widens_trans : Transitive widens.
Proof. intros a b c [? ?] [? ?]. split; by etransitivity. Qed.

Lemma widens_sameStore ctx ctx' : sameStore ctx ctx' → widens ctx ctx'.
Proof. intros (Hd & _). unfold widens. by rewrite Hd. Qed.

Lemma stable_registered nodeId : stable (registered nodeId).
Proof. intros ctx ctx' [Hnodes _] H. by apply Hnodes. Qed.

Lemma stable_blocksRegistered blockIds : stable (blocksRegistered blockIds).
Proof. intros ctx ctx' [_ Hblocks] H blockId Hin. by apply Hblocks, H. Qed.

Lemma stable_and (P Q : ExtractionContext → Prop) :
  stable P → stable Q → stable (fun ctx => P ctx ∧ Q ctx).
Proof. intros HP HQ ctx ctx' Hw [? ?]. split; [by eapply HP|by eapply HQ]. Qed.

Lemma stable_const (P : Prop) : stable (fun _ => P).
Proof. by intros ctx ctx' _. Qed.

#[global] Hint Resolve stable_registered stable_blocksRegistered stable_and stable_const : keeps.

Lemma establishes_ret {A} (P : ExtractionContext → Prop) (a : A)
    (Q : A → ExtractionContext → Prop) :
  (∀ ctx, wellFormed ctx → P ctx → Q a ctx) → establishes P (mret a) Q.
Proof. intros H ctx Hwf HP. split; [done|]. split; [done|by apply H]. Qed.

Lemma establishes_bind {A B} (P : ExtractionContext → Prop) (m : Extract A)
    (Q : A → ExtractionContext → Prop) (k : A → Extract B)
    (R : B → ExtractionContext → Prop) :
  stable P →
  establishes P m Q →
  (∀ a, establishes (fun ctx => P ctx ∧ Q a ctx) (k a) R) →
  establishes P (m ≫= k) R.
Proof.
  intros HP Hm Hk ctx Hwf Hpre. unfold mbind, Extract_bind.
  destruct (Hm ctx Hwf Hpre) as (Hwf1 & Hw1 & HQ). destruct (m ctx) as [a ctx1]. simpl in *.
  destruct (Hk a ctx1 Hwf1) as (Hwf2 & Hw2 & HR); [split; [by eapply HP|done]|].
  split; [done|]. split; [by etransitivity|done].
Qed.

Lemma establishes_weaken {A} (P P' : ExtractionContext → Prop) (m : Extract A)
    (Q Q' : A → ExtractionContext → Prop) :
  (∀ ctx, wellFormed ctx → P' ctx → P ctx) →
  (∀ a ctx, wellFormed ctx → Q a ctx → Q' a ctx) →
  establishes P m Q → establishes P' m Q'.
Proof.
  intros HP HQ Hm ctx Hwf Hpre. destruct (Hm ctx Hwf) as (Hwf1 & Hw1 & H); [by apply HP|].
  split; [done|]. split; [done|by apply HQ].
Qed.

Lemma establishes_quiet {A} (P : ExtractionContext → Prop) (m : Extract A) (Q : A → Prop) :
  keeps sameStore m → yields Q m → establishes P m (fun a _ => Q a).
Proof.
  intros Hm HQ ctx Hwf _. split; [eapply wellFormed_sameStore; [apply Hm|done]|].
  split; [apply widens_sameStore, Hm|apply HQ].
Qed.

Lemma yields_True {A} (m : Extract A) : yields (fun _ => True) m.
Proof. by intros ctx. Qed.

Lemma establishes_skip {A} (P : ExtractionContext → Prop) (m : Extract A) :
  keeps sameStore m → establishes P m (fun _ _ => True).
Proof. intros Hm. apply (establishes_quiet P m (fun _ => True) Hm), yields_True. Qed.

Lemma establishes_any {A} (P : ExtractionContext → Prop) (m : Extract A)
    (Q : A → ExtractionContext → Prop) :
  establishes (fun _ => True) m Q → establishes P m Q.
Proof. by apply establishes_weaken. Qed.

Lemma establishes_assume {A} (fact : Prop) (P : ExtractionContext → Prop) (m : Extract A)
    (Q : A → ExtractionContext → Prop) :
  (fact → establishes P m Q) → establishes (fun ctx => P ctx ∧ fact) m Q.
Proof. intros H ctx Hwf [HP Hfact]. by apply H. Qed.

(** A step whose result is not looked at, followed by the rest. *)
Lemma establishes_then {A B} (P : ExtractionContext → Prop) (m : Extract A)
    (k : A → Extract B) (R : B → ExtractionContext → Prop) :
  stable P →
  establishes P m (fun _ _ => True) →
  (∀ a, establishes P (k a) R) →
  establishes P (m ≫= k) R.
Proof.
  intros HP Hm Hk. eapply establishes_bind; [done|exact Hm|]. intros a.
  eapply establishes_weaken; [| |apply Hk]; [by intros ctx _ [? _]|done].
Qed.

Lemma establishes_withAstPathSegment {T} (P : ExtractionContext → Prop) i (cb : Extract T)
    (Q : T → ExtractionContext → Prop) :
  stable P → (∀ r, stable (Q r)) →
  establishes P cb Q → establishes P (withAstPathSegment i cb) Q.
Proof.
  intros HP HQ Hcb. unfold withAstPathSegment.
  apply establishes_then; [done|by apply establishes_skip; eauto with keeps|intros ?].
  eapply establishes_bind; [done|exact Hcb|intros r].
  eapply establishes_bind; [eauto with keeps| |].
  - apply (establishes_skip _ exitAstPathSegment). eauto with keeps.
  - intros ?. apply establishes_ret. by intros ctx _ [[_ ?] _].
Qed.

Lemma establishes_mapElements {T} (P : ExtractionContext → Prop)
    (cb : Expr → nat → Extract T) (Q : T → ExtractionContext → Prop) elements i :
  stable P → (∀ r, stable (Q r)) →
  (∀ e j, establishes P (cb e j) Q) →
  establishes P (mapElements cb elements i) (fun rs ctx => Forall (fun r => Q r ctx) rs).
Proof.
  intros HP HQ Hcb. revert i. induction elements as [|e rest IH]; intros i; simpl.
  - apply establishes_ret. by constructor.
  - eapply establishes_bind; [done|by apply establishes_withAstPathSegment|intros r].
    eapply establishes_bind; [eauto with keeps| |].
    + eapply establishes_weaken; [| |apply IH]; [by intros ctx _ [? _]|done].
    + intros rs. apply establishes_ret. intros ctx _ [[_ Hr] Hrs]. by constructor.
Qed.

Lemma establishes_mapMaybeArrayElements {T} (P : ExtractionContext → Prop) expression
    (cb : Expr → nat → Extract T) (Q : T → ExtractionContext → Prop) :
  stable P → (∀ r, stable (Q r)) →
  (∀ e j, establishes P (cb e j) Q) →
  establishes P (mapMaybeArrayElements expression cb)
    (fun rs ctx => Forall (fun r => Q r ctx) rs).
Proof.
  intros HP HQ Hcb. unfold mapMaybeArrayElements.
  destruct expression;
    try (eapply establishes_bind; [done|apply Hcb|intros r];
         apply establishes_ret; intros ctx _ [_ Hr]; by repeat constructor).
  by apply establishes_mapElements.
Qed.

(** ** Registering blocks *)

Lemma dom_registerImplementation kind sourceId impls :
  dom impls ⊆ dom (registerImplementation kind sourceId impls)
  ∧ (sourceId ∈ dom (registerImplementation kind sourceId impls)
     ∨ inheritedName sourceId = true).
Proof.
  unfold registerImplementation. destruct (impls !! sourceId) eqn:E.
  - split; [done|]. left. by apply elem_of_dom_2 in E.
  - destruct (inheritedName sourceId); [by split; [|right]|].
    rewrite dom_insert_L. split; [apply union_subseteq_r|].
    left. apply elem_of_union_l. by apply elem_of_singleton.
Qed.

(** The digraph after a block has been stored and its source implemented. *)
Lemma wellFormed_registerBlock ctx block (d' : Digraph) :
  wellFormed ctx →
  nodes d' = nodes (ctx_digraph ctx) →
  edges d' = edges (ctx_digraph ctx) →
  blocks d' = <[Block.uniqueId block := block]> (blocks (ctx_digraph ctx)) →
  (∀ kind, dom (implementationsOf kind (implementations (ctx_digraph ctx)))
           ⊆ dom (implementationsOf kind (implementations d'))) →
  (Block.sourceId block
     ∈ dom (implementationsOf (Block.blockType block) (implementations d'))
   ∨ inheritedName (Block.sourceId block) = true) →
  wellFormed (setDigraph d' ctx)
  ∧ widens ctx (setDigraph d' ctx)
  ∧ Block.uniqueId block ∈ dom (blocks d').
Proof.
  intros [H1 H2 H3 H4 H5 H6] Hn He Hb Himpls Hsource.
  assert (Hblocks : dom (blocks (ctx_digraph ctx)) ⊆ dom (blocks d')).
  { rewrite Hb, dom_insert_L. apply union_subseteq_r. }
  split; [|split].
  - split; simpl; rewrite ?Hn, ?He; try done.
    + intros id node Hnode. destruct (H3 id node Hnode) as (? & ? & Hrefs).
      split; [done|]. split; [done|]. intros blockId Hin. by apply Hblocks, Hrefs.
    + intros id edge Hedge. destruct (H4 id edge Hedge) as (? & ? & ? & Hrefs).
      repeat split; try done. intros blockId Hin. by apply Hblocks, Hrefs.
    + intros id b. rewrite Hb. destruct (decide (id = Block.uniqueId block)) as [->|Hne].
      * rewrite lookup_insert_eq. by intros [= <-].
      * rewrite lookup_insert_ne by done. intros Hold.
        destruct (H5 id b Hold) as [? [Himpl|Himpl]]; (split; [done|]);
          [left; by apply Himpls|by right].
  - split; simpl; [by rewrite Hn|done].
  - rewrite Hb, dom_insert_L. apply elem_of_union_l. by apply elem_of_singleton.
Qed.

Lemma establishes_registerActionBlocks blockList container :
  Forall (fun block => Block.blockType block = action) blockList →
  establishes (fun _ => True) (registerActionBlocks blockList container)
    (fun result ctx => result = container ++ (Block.uniqueId <$> blockList)
                       ∧ blocksRegistered (Block.uniqueId <$> blockList) ctx).
Proof.
  intros Htypes. revert container.
  induction Htypes as [|block rest Htype _ IH]; intros container; simpl.
  { apply establishes_ret. intros ctx _ _. rewrite app_nil_r. split; [done|].
    intros blockId Hin. by apply elem_of_nil in Hin. }
  intros ctx Hwf _. unfold mbind, Extract_bind. simpl.
  match goal with |- context [setDigraph ?d ctx] => set (d' := d) end.
  destruct (wellFormed_registerBlock ctx block d' Hwf) as (Hwf1 & Hw1 & Hreg); try done.
  { intros []; simpl; [|done]. apply dom_registerImplementation. }
  { rewrite Htype. simpl. apply dom_registerImplementation. }
  destruct (IH (container ++ [Block.uniqueId block]) (setDigraph d' ctx) Hwf1 I)
    as (Hwf2 & Hw2 & -> & Hregs).
  split; [done|]. split; [by etransitivity|]. split; [by rewrite <- app_assoc|].
  intros blockId [->|Hin]%elem_of_cons; [|by apply Hregs].
  by apply Hw2.
Qed.

Lemma yields_extractActionBlocks expression parentId :
  yields (blocksOfType action) (extractActionBlocks expression parentId).
Proof.
  unfold extractActionBlocks. apply yields_mapMaybeArrayElements. intros e j.
  assert (Hcreate : ∀ sourceId,
            yields (fun r => ∀ block, r = Some block → Block.blockType block = action)
              (block ← createActionBlock sourceId parentId; mret (Some block))).
  { intros sourceId ctx. simpl. by intros block [= <-]. }
  assert (Hinline : yields (fun r => ∀ block, r = Some block → Block.blockType block = action)
            (sourceId ← inlineSourceId;
             block ← createActionBlock sourceId parentId; mret (Some block))).
  { apply yields_bind. intros sourceId. apply Hcreate. }
  destruct (isUndefined e); [by apply yields_ret|].
  destruct e; try apply Hinline; try apply Hcreate.
  apply yields_bind. intros [p|]; [|by apply yields_ret].
  destruct (isStringLiteralLike _); [apply Hcreate|].
  apply yields_bind. intros _. apply Hinline.
Qed.

Lemma yields_extractActorBlock nodeId element :
  yields (fun r => ∀ block, r = Some block → Block.blockType block = actor)
    (extractActorBlock nodeId element).
Proof.
  unfold extractActorBlock.
  assert (Hcreate : ∀ sourceId actorId,
            yields (fun r => ∀ block, r = Some block → Block.blockType block = actor)
              (block ← createActorBlock sourceId nodeId actorId; mret (Some block))).
  { intros sourceId actorId ctx. simpl. by intros block [= <-]. }
  destruct (isUndefined element); [by apply yields_ret|].
  destruct element;
    try (apply yields_bind; intros sourceId; apply yields_bind; intros token; apply Hcreate).
  apply yields_bind. intros [src|]; [|by apply yields_ret].
  apply yields_bind. intros idProperty.
  apply yields_bind. intros sourceId. apply yields_bind. intros actorId. apply Hcreate.
Qed.

Lemma everyDefined_blocksOfType kind (blockList : list (option Block.t)) bs :
  blocksOfType kind blockList → everyDefined blockList = Some bs →
  Forall (fun block => Block.blockType block = kind) bs.
Proof. apply everyDefined_Forall. Qed.

(** ** Extracting the edges of a transition *)

Lemma stable_edgeExtracted edge edge' : stable (edgeExtracted edge edge').
Proof.
  intros ctx ctx' Hw (? & ? & ? & Hblocks). repeat split; try done.
  by eapply stable_blocksRegistered.
Qed.

Lemma stable_edgeResultReady sourceId result : stable (edgeResultReady sourceId result).
Proof.
  intros ctx ctx' Hw H et Het. destruct (H et Het) as (? & ? & Hblocks).
  repeat split; try done. by eapply stable_blocksRegistered.
Qed.

#[global] Hint Resolve stable_edgeExtracted stable_edgeResultReady : keeps.

Lemma establishes_extractEdgeProperties rprops seen edge :
  establishes (blocksRegistered (Edge.actions (Edge.data edge)))
    (extractEdgeProperties rprops seen edge) (edgeExtracted edge).
Proof.
  revert seen edge. induction rprops as [|prop rest IH]; intros seen edge; simpl.
  { apply establishes_ret. by intros ctx _ H. }
  assert (Hreport : ∀ seen',
            establishes (blocksRegistered (Edge.actions (Edge.data edge)))
              (_ ← pushError transition_property_unhandled;
               extractEdgeProperties rest seen' edge) (edgeExtracted edge)).
  { intros seen'. apply establishes_then; [eauto with keeps| |intros _; apply IH].
    apply establishes_skip. eauto with keeps. }
  destruct prop as [name initializer| | | | |]; try apply Hreport.
  apply establishes_then; [eauto with keeps| |intros key].
  { apply establishes_skip. eauto with keeps. }
  destruct (truthyOpt key) as [k|]; [|apply Hreport].
  destruct (bool_decide (k ∈ seen)); [apply IH|].
  destruct (String.eqb k "actions").
  - eapply establishes_bind; [eauto with keeps| |intros actionBlocks].
    { apply establishes_quiet; [eauto with keeps|apply yields_extractActionBlocks]. }
    apply (establishes_assume (blocksOfType action actionBlocks)). intros Htypes.
    destruct (everyDefined actionBlocks) as [bs|] eqn:Hbs; [|apply Hreport].
    eapply establishes_bind; [eauto with keeps| |intros container].
    { apply establishes_any, establishes_registerActionBlocks.
      by eapply everyDefined_blocksOfType. }
    eapply establishes_weaken; [| |apply IH].
    + intros ctx _ (Hold & -> & Hnew) blockId. simpl.
      intros [Hin|Hin]%elem_of_app; [by apply Hold|by apply Hnew].
    + by intros e ctx _.
  - destruct (String.eqb k "description"); [|apply IH].
    eapply establishes_weaken; [| |apply IH]; [done|]. by intros e ctx _.
Qed.

Lemma yields_createEdge_fresh sourceId eventTypeData :
  yields (fun edge => Edge.source edge = sourceId ∧ Edge.targets edge = []
                      ∧ Edge.actions (Edge.data edge) = [])
    (createEdge sourceId eventTypeData).
Proof. by intros ctx. Qed.

Lemma blocksRegistered_nil ctx : blocksRegistered [] ctx.
Proof. intros blockId Hin. by apply elem_of_nil in Hin. Qed.

Lemma establishes_extractEdgeElement sourceId eventTypeData element :
  establishes (fun _ => True) (extractEdgeElement sourceId eventTypeData element)
    (edgeResultReady sourceId).
Proof.
  unfold extractEdgeElement.
  assert (Hplain : ∀ ts, establishes (fun _ => True)
            (edge ← createEdge sourceId eventTypeData; mret (Some (edge, ts)))
            (edgeResultReady sourceId)).
  { intros ts. eapply establishes_bind; [eauto with keeps| |intros edge].
    - apply establishes_quiet; [eauto with keeps|apply yields_createEdge_fresh].
    - apply establishes_ret. intros ctx _ [_ (Hs & Ht & Ha)] et [= <-]. simpl.
      split; [done|]. split; [done|]. rewrite Ha. apply blocksRegistered_nil. }
  assert (Hscan : ∀ properties ts, establishes (fun _ => True)
            (edge ← createEdge sourceId eventTypeData;
             edge' ← extractEdgeProperties (reverse properties) ∅ edge;
             mret (Some (edge', ts)))
            (edgeResultReady sourceId)).
  { intros properties ts. eapply establishes_bind; [eauto with keeps| |intros edge].
    - apply establishes_quiet; [eauto with keeps|apply yields_createEdge_fresh].
    - apply (establishes_assume (Edge.source edge = sourceId ∧ Edge.targets edge = []
                                 ∧ Edge.actions (Edge.data edge) = [])).
      intros (Hs & Ht & Ha).
      eapply establishes_bind; [eauto with keeps| |intros edge'].
      + eapply establishes_weaken; [| |apply establishes_extractEdgeProperties].
        * intros ctx _ _. rewrite Ha. apply blocksRegistered_nil.
        * intros e ctx _ H. exact H.
      + apply establishes_ret. intros ctx _ [_ (Hid & Hs' & Ht' & Hblocks)] et [= <-]. simpl.
        split; [congruence|]. split; [congruence|done]. }
  destruct (isForbiddenTarget element); [apply Hplain|].
  destruct element; try (apply establishes_ret; by intros ctx _ _ et); try apply Hplain.
  eapply establishes_bind; [eauto with keeps| |intros [ts|]];
    [|simpl|apply establishes_any, Hscan].
  { apply establishes_skip. eauto with keeps. }
  destruct (everyDefined ts); [apply establishes_any, Hscan|].
  apply establishes_then; [eauto with keeps|apply establishes_skip; eauto with keeps|intros _].
  apply establishes_ret. by intros ctx _ _ et.
Qed.

Lemma wellFormed_registerEdge ctx sourceId edge (pending : list (string * list string)) :
  wellFormed ctx → registered sourceId ctx → edgeReady sourceId edge ctx →
  (∀ edgeId ts, (edgeId, ts) ∈ pending →
                edgeId = Edge.uniqueId edge ∨ (edgeId, ts) ∈ originalTargets ctx) →
  wellFormed
    (setOriginalTargets pending
       (setDigraph (setEdges (<[Edge.uniqueId edge := edge]> (edges (ctx_digraph ctx)))
                      (ctx_digraph ctx)) ctx)).
Proof.
  intros [H1 H2 H3 H4 H5 H6] Hsource (Hs & Ht & Ha) Hpending. split; simpl; try done.
  - intros id e. destruct (decide (id = Edge.uniqueId edge)) as [->|Hne].
    + rewrite lookup_insert_eq. intros [= <-]. rewrite Hs, Ht. repeat split; try done.
      intros target Hin. by apply elem_of_nil in Hin.
    + rewrite lookup_insert_ne by done. apply H4.
  - intros edgeId ts Hin. rewrite dom_insert_L.
    destruct (Hpending edgeId ts Hin) as [->|Hold].
    + apply elem_of_union_l. by apply elem_of_singleton.
    + apply elem_of_union_r. by eapply H6.
Qed.

Lemma establishes_registerEdges sourceId mapped :
  establishes
    (fun ctx => registered sourceId ctx ∧ Forall (fun et => edgeReady sourceId et.1 ctx) mapped)
    (registerEdges mapped) (fun _ _ => True).
Proof.
  induction mapped as [|[edge targets] rest IH]; simpl.
  { by apply establishes_ret. }
  intros ctx Hwf [Hsource Hready]. unfold mbind, Extract_bind. simpl.
  apply Forall_cons in Hready as [Hedge Hrest]. simpl in Hedge.
  destruct targets as [ts|]; simpl.
  - match goal with |- context [registerEdges rest ?c] => set (ctx1 := c) end.
    assert (Hwf1 : wellFormed ctx1).
    { apply (wellFormed_registerEdge ctx sourceId); try done.
      intros edgeId ts' Hin. apply elem_of_assocSet in Hin as [->|Hin]; [by left|by right]. }
    destruct (IH ctx1 Hwf1) as (Hwf2 & Hw2 & _); [by split|].
    split; [done|]. split; [|done]. by transitivity ctx1.
  - match goal with |- context [registerEdges rest ?c] => set (ctx1 := c) end.
    assert (Hwf1 : wellFormed ctx1).
    { apply (wellFormed_registerEdge ctx sourceId edge (originalTargets ctx)); try done.
      intros edgeId ts' Hin. by right. }
    destruct (IH ctx1 Hwf1) as (Hwf2 & Hw2 & _); [by split|].
    split; [done|]. split; [|done]. by transitivity ctx1.
Qed.

Lemma everyDefined_ready sourceId (mapped : list (option (Edge.t * option (list string))))
    defined ctx :
  Forall (fun r => edgeResultReady sourceId r ctx) mapped →
  everyDefined mapped = Some defined →
  Forall (fun et => edgeReady sourceId et.1 ctx) defined.
Proof. apply (everyDefined_Forall (fun et => edgeReady sourceId et.1 ctx)). Qed.

Lemma establishes_extractEdgeGroup transition sourceId eventTypeData :
  establishes (registered sourceId) (extractEdgeGroup transition sourceId eventTypeData)
    (fun _ _ => True).
Proof.
  unfold extractEdgeGroup.
  eapply establishes_bind; [eauto with keeps| |intros mapped].
  { apply (establishes_mapMaybeArrayElements _ _ _ (edgeResultReady sourceId));
      [eauto with keeps..|].
    intros e j. apply establishes_any, establishes_extractEdgeElement. }
  destruct (everyDefined mapped) as [defined|] eqn:Hdefined.
  - eapply establishes_weaken; [| |apply (establishes_registerEdges sourceId)]; [|done].
    intros ctx _ [Hsource Hready]. split; [done|]. by eapply everyDefined_ready.
  - apply establishes_skip. eauto with keeps.
Qed.

Lemma establishes_extractOn nodeId transitions :
  establishes (registered nodeId) (extractOn nodeId transitions) (fun _ _ => True).
Proof.
  induction transitions as [|member rest IH]; simpl.
  { by apply establishes_ret. }
  assert (Hgiveup : establishes (registered nodeId)
            (_ ← pushError transition_property_unhandled; mret Return) (fun _ _ => True)).
  { apply establishes_skip. keeps_auto. }
  destruct member as [name initializer| | | | |]; try apply Hgiveup.
  apply establishes_then; [eauto with keeps|apply establishes_skip; eauto with keeps|intros event].
  destruct (truthyOpt event); [|apply Hgiveup].
  apply establishes_then; [eauto with keeps|apply establishes_extractEdgeGroup|intros _; exact IH].
Qed.

(** ** Working on the data of a node *)

Lemma wellFormed_modifyNodeData ctx id f :
  wellFormed ctx →
  (∀ node, nodes (ctx_digraph ctx) !! id = Some node →
           blocksRegistered (nodeBlocks (Node.withData f node)) ctx) →
  wellFormed (modifyNodeData id f ctx).2.
Proof.
  intros [H1 H2 H3 H4 H5 H6] Hblocks. split; simpl; rewrite ?dom_alter_L; try done.
  intros id' node Hnode.
  apply lookup_alter_Some in Hnode as [(-> & old & Hold & ->)|[_ Hold]]; [|by apply H3].
  destruct (H3 _ old Hold) as (Hid & Hparent & _). simpl.
  split; [done|]. split; [done|]. by apply Hblocks.
Qed.

Lemma establishes_modifyNodeData id f :
  (∀ data, Node.entry (f data) = Node.entry data ∧ Node.exit (f data) = Node.exit data
           ∧ Node.invoke (f data) = Node.invoke data) →
  establishes (fun _ => True) (modifyNodeData id f) (fun _ _ => True).
Proof.
  intros Hf ctx Hwf _. split; [|split; [|done]].
  - apply wellFormed_modifyNodeData; [done|]. intros node Hnode blockId.
    unfold nodeBlocks. simpl. destruct (Hf (Node.data node)) as (-> & -> & ->).
    destruct Hwf as [_ _ H3 _ _ _]. by apply (H3 id node Hnode).
  - split; simpl; [by rewrite dom_alter_L|done].
Qed.

Lemma establishes_setContext v :
  establishes (fun _ => True) (modifyDigraph (setContext v)) (fun _ _ => True).
Proof. intros ctx [H1 H2 H3 H4 H5 H6] _. split; [by split|done]. Qed.

Lemma establishes_setIdToNodeIdMap (flow : Flow) text nodeId :
  establishes (fun _ => True)
    (fun ctx => (flow, setIdToNodeIdMap (declareId text nodeId (idToNodeIdMap ctx)) ctx))
    (fun _ _ => True).
Proof. apply establishes_skip. by intros ctx. Qed.

Lemma establishes_modifyTreeNode id k child :
  establishes (fun _ => True) (modifyTreeNode id (TreeNode.setChild k child)) (fun _ _ => True).
Proof.
  intros ctx [H1 H2 H3 H4 H5 H6] _. split; [|done].
  split; simpl; rewrite ?dom_alter_L; try done.
  intros id' tnode Htnode.
  apply lookup_alter_Some in Htnode as [(-> & old & Hold & ->)|[_ Hold]];
    destruct (H2 _ _ Hold) as [Hid Hparent]; (split; [done|]);
    intros parentId Hp; by apply Hparent.
Qed.

Lemma establishes_extractMeta nodeId metas :
  establishes (fun _ => True) (extractMeta nodeId metas) (fun _ _ => True).
Proof.
  induction metas as [|member rest IH]; simpl; [by apply establishes_ret|].
  destruct member as [name initializer| | | | |]; try exact IH.
  apply establishes_then; [eauto with keeps|apply establishes_skip; eauto with keeps|intros key].
  destruct (truthyOpt key); [|exact IH].
  apply establishes_then; [eauto with keeps|apply establishes_skip; eauto with keeps|intros value].
  apply establishes_then; [eauto with keeps|by apply establishes_modifyNodeData|intros _].
  exact IH.
Qed.

Lemma establishes_getNodeData id (get : Node.Data → list string) :
  (∀ node blockId, blockId ∈ get (Node.data node) → blockId ∈ nodeBlocks node) →
  establishes (fun _ => True) (getNodeData id)
    (fun data ctx => blocksRegistered (from_option get [] data) ctx).
Proof.
  intros Hget ctx Hwf _. split; [done|]. split; [done|]. simpl.
  destruct (nodes (ctx_digraph ctx) !! id) as [node|] eqn:Hnode; simpl.
  - intros blockId Hin. destruct Hwf as [_ _ H3 _ _ _].
    by apply (H3 id node Hnode), Hget.
  - apply blocksRegistered_nil.
Qed.

Lemma establishes_extractEntryExit nodeId initializer get set :
  (∀ node blockId, blockId ∈ get (Node.data node) → blockId ∈ nodeBlocks node) →
  (∀ container node blockId,
     blockId ∈ nodeBlocks (Node.withData (set container) node) →
     blockId ∈ container ∨ blockId ∈ nodeBlocks node) →
  establishes (fun _ => True) (extractEntryExit nodeId initializer get set) (fun _ _ => True).
Proof.
  intros Hget Hset. unfold extractEntryExit.
  eapply establishes_bind; [eauto with keeps| |intros actionBlocks].
  { apply establishes_quiet; [eauto with keeps|apply yields_extractActionBlocks]. }
  apply (establishes_assume (blocksOfType action actionBlocks)). intros Htypes.
  destruct (everyDefined actionBlocks) as [bs|] eqn:Hbs;
    [|apply establishes_skip; eauto with keeps].
  eapply establishes_bind; [eauto with keeps|by apply establishes_getNodeData|intros data].
  eapply establishes_bind; [eauto with keeps| |intros container].
  { apply establishes_any, establishes_registerActionBlocks.
    by eapply everyDefined_blocksOfType. }
  intros ctx Hwf [[_ Hold] [-> Hnew]]. split; [|split; [|done]].
  - apply wellFormed_modifyNodeData; [done|]. intros node Hnode blockId Hin.
    apply Hset in Hin as [Hin|Hin].
    + apply elem_of_app in Hin as [Hin|Hin]; [by apply Hold|by apply Hnew].
    + destruct Hwf as [_ _ H3 _ _ _]. by apply (H3 nodeId node Hnode).
  - split; simpl; [by rewrite dom_alter_L|done].
Qed.

Lemma establishes_registerActorBlocks nodeId blockList :
  Forall (fun block => Block.blockType block = actor) blockList →
  establishes (fun _ => True) (registerActorBlocks nodeId blockList) (fun _ _ => True).
Proof.
  induction 1 as [|block rest Htype _ IH]; simpl; [by apply establishes_ret|].
  intros ctx Hwf _. unfold mbind, Extract_bind. simpl.
  match goal with |- context [registerActorBlocks nodeId rest ?c] => set (ctx1 := c) end.
  assert (Hblocks : dom (blocks (ctx_digraph ctx)) ⊆ dom (blocks (ctx_digraph ctx1))).
  { subst ctx1. simpl. rewrite dom_insert_L. apply union_subseteq_r. }
  assert (Hwf1 : wellFormed ctx1).
  { destruct Hwf as [H1 H2 H3 H4 H5 H6]. split; simpl; rewrite ?dom_alter_L; try done.
    - intros id node Hnode.
      apply lookup_alter_Some in Hnode as [(-> & old & Hold & ->)|[_ Hold]].
      + destruct (H3 _ old Hold) as (Hid & Hparent & Hrefs).
        split; [done|]. split; [done|]. intros blockId. unfold nodeBlocks. simpl.
        rewrite !elem_of_app. intros [Hin|[Hin|[Hin|Hin]]].
        * apply Hblocks, Hrefs. unfold nodeBlocks. rewrite !elem_of_app. by left.
        * apply Hblocks, Hrefs. unfold nodeBlocks. rewrite !elem_of_app. right. by left.
        * apply Hblocks, Hrefs. unfold nodeBlocks. rewrite !elem_of_app. right. by right.
        * apply list_elem_of_singleton in Hin as ->. rewrite dom_insert_L.
          apply elem_of_union_l. by apply elem_of_singleton.
      + destruct (H3 id node Hold) as (Hid & Hparent & Hrefs).
        split; [done|]. split; [done|]. intros blockId Hin. by apply Hblocks, Hrefs.
    - intros id edge Hedge. destruct (H4 id edge Hedge) as (? & ? & ? & Hrefs).
      repeat split; try done. intros blockId Hin. by apply Hblocks, Hrefs.
    - intros id b. destruct (decide (id = Block.uniqueId block)) as [->|Hne].
      + rewrite lookup_insert_eq. intros [= <-]. split; [done|]. rewrite Htype. simpl.
        apply dom_registerImplementation.
      + rewrite lookup_insert_ne by done. intros Hold.
        destruct (H5 id b Hold) as [? [Himpl|Himpl]]; (split; [done|]); [|by right].
        left. destruct (Block.blockType b); simpl in *; [done|].
        by apply dom_registerImplementation. }
  destruct (IH ctx1 Hwf1 I) as (Hwf2 & Hw2 & _).
  split; [done|]. split; [|done]. transitivity ctx1; [|done].
  split; [|done]. subst ctx1. simpl. by rewrite dom_alter_L.
Qed.

(** ** Extracting a state *)

Create HintDb establishes discriminated.

#[global] Hint Resolve establishes_extractEdgeGroup establishes_extractOn
  establishes_extractMeta establishes_setContext establishes_setIdToNodeIdMap
  establishes_modifyTreeNode : establishes.

(** Steps through binds whose results are not looked at, returns and case
    analysis. *)
Ltac establishes_step :=
  first
    [ apply establishes_ret; done
    | apply establishes_skip; solve [keeps_auto]
    | solve [eauto with establishes]
    | apply establishes_any; solve [eauto with establishes]
    | match goal with
      | |- establishes _ (modifyNodeData _ _) _ =>
          apply establishes_any, establishes_modifyNodeData; done
      end
    | apply establishes_then; [solve [eauto with keeps]| |intros ?]
    | match goal with
      | |- establishes _ (match ?x with _ => _ end) _ => destruct x
      | |- establishes _ (if ?b then _ else _) _ => destruct b
      end ].

Ltac establishes_auto := repeat establishes_step.

Lemma stable_parentRegistered parentId : stable (parentRegistered parentId).
Proof. intros ctx ctx' Hw H p Hp. eapply stable_registered; [done|by apply H]. Qed.

Lemma stable_resultRegistered result : stable (resultRegistered result).
Proof. intros ctx ctx' Hw H id Hid. eapply stable_registered; [done|by apply H]. Qed.

#[global] Hint Resolve stable_parentRegistered stable_resultRegistered : keeps.

Lemma nodeBlocks_entry node blockId :
  blockId ∈ Node.entry (Node.data node) → blockId ∈ nodeBlocks node.
Proof. intros H. unfold nodeBlocks. rewrite !elem_of_app. by left. Qed.

Lemma nodeBlocks_exit node blockId :
  blockId ∈ Node.exit (Node.data node) → blockId ∈ nodeBlocks node.
Proof. intros H. unfold nodeBlocks. rewrite !elem_of_app. right. by left. Qed.

Lemma nodeBlocks_setEntry container node blockId :
  blockId ∈ nodeBlocks (Node.withData (Node.setEntry container) node) →
  blockId ∈ container ∨ blockId ∈ nodeBlocks node.
Proof. unfold nodeBlocks. simpl. rewrite !elem_of_app. tauto. Qed.

Lemma nodeBlocks_setExit container node blockId :
  blockId ∈ nodeBlocks (Node.withData (Node.setExit container) node) →
  blockId ∈ container ∨ blockId ∈ nodeBlocks node.
Proof. unfold nodeBlocks. simpl. rewrite !elem_of_app. tauto. Qed.

Lemma establishes_extractInvoke nodeId initializer :
  establishes (fun _ => True)
    (actorBlocks ← mapMaybeArrayElements initializer
                     (fun element _ => extractActorBlock nodeId element);
     match everyDefined actorBlocks with
     | None => _ ← pushError state_property_unhandled; mret Next
     | Some bs => _ ← registerActorBlocks nodeId bs; mret Next
     end)
    (fun _ _ => True).
Proof.
  eapply establishes_bind; [eauto with keeps| |intros actorBlocks].
  { apply establishes_quiet; [solve [eauto with keeps]|].
    apply (yields_mapMaybeArrayElements
             (fun r => ∀ block, r = Some block → Block.blockType block = actor)).
    intros e j. apply yields_extractActorBlock. }
  apply (establishes_assume (blocksOfType actor actorBlocks)). intros Htypes.
  destruct (everyDefined actorBlocks) as [bs|] eqn:Hbs; [|establishes_auto].
  apply establishes_then; [eauto with keeps| |intros ?; establishes_auto].
  apply establishes_registerActorBlocks. by eapply everyDefined_blocksOfType.
Qed.

Section WellFormedness.
Variable rec : option Expr → option string → Extract (Outcome (option string)).
Hypothesis rec_establishes : ∀ state parentId,
  establishes (registered parentId) (rec state (Some parentId)) resultRegistered.

Lemma establishes_extractStates nodeId states :
  establishes (registered nodeId) (extractStates rec nodeId states) (fun _ _ => True).
Proof.
  induction states as [|member rest IH]; simpl; [establishes_auto|].
  destruct member as [name initializer| | | | |]; try solve [establishes_auto].
  apply establishes_then; [eauto with keeps|establishes_auto|intros key].
  destruct (truthyOpt key); [|exact IH].
  apply establishes_then; [eauto with keeps| |intros [[child|]| | |]]; try exact IH.
  - eapply establishes_weaken; [| |apply rec_establishes]; done.
  - establishes_auto.
  - establishes_auto.
Qed.

Lemma establishes_extractStateProperty nodeId parentId key initializer :
  establishes (registered nodeId) (extractStateProperty rec nodeId parentId key initializer)
    (fun _ _ => True).
Proof.
  pose proof establishes_extractStates as Hstates.
  unfold extractStateProperty.
  repeat match goal with
  | |- establishes _ (if String.eqb key ?s then _ else _) _ => destruct (String.eqb key s)
  end;
  try solve [establishes_auto | destruct initializer; establishes_auto].
  - apply establishes_then; [eauto with keeps| |intros ?; establishes_auto].
    apply establishes_any, establishes_extractEntryExit;
      [apply nodeBlocks_entry|apply nodeBlocks_setEntry].
  - apply establishes_then; [eauto with keeps| |intros ?; establishes_auto].
    apply establishes_any, establishes_extractEntryExit;
      [apply nodeBlocks_exit|apply nodeBlocks_setExit].
  - apply establishes_any, establishes_extractInvoke.
Qed.

Lemma establishes_extractStateProperties nodeId parentId rprops seen :
  establishes (registered nodeId) (extractStateProperties rec nodeId parentId rprops seen)
    (fun _ _ => True).
Proof.
  revert seen. induction rprops as [|prop rest IH]; intros seen; simpl; [establishes_auto|].
  pose proof establishes_extractStateProperty as Hproperty.
  destruct prop; establishes_auto.
Qed.

(** Registering the node and the tree node of a state below its parent. *)
Lemma wellFormed_registerNode ctx nodeId parentId :
  wellFormed ctx → parentRegistered parentId ctx →
  wellFormed
    (setTreeNodes
       (<[nodeId := {| TreeNode.uniqueId := nodeId; TreeNode.parentId := parentId;
                       TreeNode.children := ∅ |}]> (treeNodes ctx))
       (setDigraph
          (setNodes (<[nodeId := {| Node.uniqueId := nodeId; Node.parentId := parentId;
                                    Node.data := defaultNodeData |}]>
                       (nodes (ctx_digraph ctx))) (ctx_digraph ctx)) ctx)).
Proof.
  intros [H1 H2 H3 H4 H5 H6] Hparent. split; simpl; try done.
  - by rewrite !dom_insert_L, H1.
  - intros id tnode. rewrite dom_insert_L.
    destruct (decide (id = nodeId)) as [->|Hne].
    + rewrite lookup_insert_eq. intros [= <-]. simpl. split; [done|].
      intros p Hp. apply elem_of_union_r. rewrite H1. by apply Hparent.
    + rewrite lookup_insert_ne by done. intros Hold. destruct (H2 id tnode Hold) as [? Hp].
      split; [done|]. intros p Hp'. apply elem_of_union_r. by apply Hp.
  - intros id node. rewrite dom_insert_L.
    destruct (decide (id = nodeId)) as [->|Hne].
    + rewrite lookup_insert_eq. intros [= <-]. simpl. split; [done|]. split.
      * intros p Hp. apply elem_of_union_r. by apply Hparent.
      * intros blockId Hin. by apply elem_of_nil in Hin.
    + rewrite lookup_insert_ne by done. intros Hold.
      destruct (H3 id node Hold) as (? & Hp & ?). split; [done|]. split; [|done].
      intros p Hp'. apply elem_of_union_r. by apply Hp.
  - intros id edge Hedge. rewrite dom_insert_L.
    destruct (H4 id edge Hedge) as (? & ? & Htargets & ?).
    split; [done|]. split; [by apply elem_of_union_r|]. split; [|done].
    intros target Hin. apply elem_of_union_r. by apply Htargets.
Qed.

Lemma establishes_extractState_body state parentId :
  establishes (parentRegistered parentId) (extractState_body rec state parentId)
    resultRegistered.
Proof.
  intros ctx Hwf Hparent. unfold extractState_body, mbind, Extract_bind. simpl.
  set (nodeId := pretty (idSupply ctx)).
  match goal with |- context [setTreeNodes ?t (setDigraph ?d ?c)] =>
    set (ctx0 := setTreeNodes t (setDigraph d c)) end.
  assert (Hwf0 : wellFormed ctx0).
  { eapply wellFormed_sameStore; [|apply (wellFormed_registerNode ctx nodeId parentId Hwf Hparent)].
    done. }
  assert (Hw0 : widens ctx ctx0).
  { split; [|done]. subst ctx0. simpl. rewrite dom_insert_L. apply union_subseteq_r. }
  assert (Hreg0 : registered nodeId ctx0).
  { unfold registered. subst ctx0. simpl. rewrite dom_insert_L.
    apply elem_of_union_l. by apply elem_of_singleton. }
  assert (Hdone : ∀ ctx1, wellFormed ctx1 → widens ctx0 ctx1 →
            wellFormed ctx1 ∧ widens ctx ctx1 ∧ resultRegistered (Ok (Some nodeId)) ctx1).
  { intros ctx1 Hwf1 Hw1. split; [done|]. split; [by transitivity ctx0|].
    intros id [= <-]. by eapply stable_registered. }
  destruct state as [e|]; [|by apply Hdone].
  destruct e;
    try (apply Hdone; [eapply wellFormed_sameStore; [|exact Hwf0]; done|done]).
  match goal with |- context [extractStateProperties rec nodeId parentId ?ps ∅ ctx0] =>
    destruct (establishes_extractStateProperties nodeId parentId ps ∅ ctx0 Hwf0 Hreg0)
      as (Hwf1 & Hw1 & _);
    destruct (extractStateProperties rec nodeId parentId ps ∅ ctx0) as [flow ctx1]
  end.
  simpl in *. destruct (Hdone ctx1 Hwf1 Hw1) as (? & ? & ?).
  split; [done|]. split; [done|]. by destruct flow.
Qed.

End WellFormedness.

Lemma establishes_extractState fuel state parentId :
  establishes (parentRegistered parentId) (extractState fuel state parentId) resultRegistered.
Proof.
  revert state parentId. induction fuel as [|fuel IH]; intros state parentId; simpl.
  - by apply establishes_ret.
  - apply establishes_extractState_body. intros st p.
    eapply establishes_weaken; [| |apply IH]; [|done].
    intros ctx _ Hp q [= <-]. exact Hp.
Qed.

(** ** Resolved targets are registered nodes *)

Lemma storedValue_treeNodeRef ctx id : storedValue ctx (treeNodeRef ctx id).
Proof. unfold treeNodeRef. destruct (treeNodes ctx !! id) eqn:E; simpl; [by exists id|done]. Qed.

Lemma storedValue_inheritedMember ctx key : storedValue ctx (inheritedMember key).
Proof. unfold inheritedMember. by destruct (inheritedName key). Qed.

Lemma storedValue_treeNodeField ctx node key :
  stored ctx node → storedValue ctx (treeNodeField node key).
Proof.
  intros Hnode. unfold treeNodeField.
  destruct (String.eqb key "uniqueId"); [done|].
  destruct (String.eqb key "parentId"); [by destruct (TreeNode.parentId node)|].
  destruct (String.eqb key "children"); [done|]. apply storedValue_inheritedMember.
Qed.

Lemma childNode_stored ctx node segment : storedValue ctx (childNode ctx node segment).
Proof.
  unfold childNode. destruct (TreeNode.children node !! segment) as [id|];
    [apply storedValue_treeNodeRef|].
  destruct (TreeNode.children node !! "__proto__") as [id|]; simpl;
    [|apply storedValue_inheritedMember].
  destruct (treeNodes ctx !! id) as [prototype|] eqn:E; [|apply storedValue_inheritedMember].
  apply storedValue_treeNodeField. by exists id.
Qed.

Lemma nextMarker_stored ctx marker segment next :
  storedValue ctx marker → nextMarker ctx marker segment = Ok next → storedValue ctx next.
Proof.
  destruct marker as [|s|node|node|name]; simpl; try done.
  - intros _ [= <-]. apply childNode_stored.
  - intros _. pose proof (childNode_stored ctx node "children") as Hc.
    destruct (childNode ctx node "children") as [|s|child|prototype|name]; try done.
    + intros [= <-]. by apply storedValue_treeNodeField.
    + intros [= <-]. apply childNode_stored.
Qed.

Lemma walkPath_stored ctx marker segments last :
  storedValue ctx marker → walkPath ctx marker segments = Ok (Some last) →
  storedValue ctx last.
Proof.
  revert marker. induction segments as [|segment rest IH]; intros marker Hmarker; simpl.
  { by intros [= <-]. }
  destruct (truthy segment); [|by intros [= <-]].
  destruct (nextMarker ctx marker segment) as [next| | |] eqn:Hnext; simpl; try done.
  destruct (truthyValue next); [|done].
  apply IH. by eapply nextMarker_stored.
Qed.

Lemma resolvePathOrigin_stored ctx sourceId origin resolved :
  resolvePathOrigin ctx sourceId origin = Ok resolved → storedValue ctx resolved.
Proof.
  unfold resolvePathOrigin. destruct origin as [[|c rest]|]; [| |by intros [= <-]].
  - intros [= <-]. apply storedValue_treeNodeRef.
  - destruct (Ascii.eqb c hash); [intros [= <-]; apply storedValue_treeNodeRef|].
    destruct (treeNodes ctx !! sourceId) as [source|]; [|done].
    destruct (truthyOpt (TreeNode.parentId source)) as [parentId|]; [|by intros [= <-]].
    destruct (treeNodes ctx !! parentId) as [parent|]; [|done].
    intros [= <-]. apply childNode_stored.
Qed.

(** A node id that [resolveTargetId] returns is the id of a tree node of the
    store. *)
Lemma resolveTarget_registered ctx sourceId target id :
  wellFormed ctx → resolveTarget ctx sourceId target = Ok (Some (VString id)) →
  registered id ctx.
Proof.
  intros Hwf. unfold resolveTarget.
  destruct (resolvePathOrigin ctx sourceId (head (split dot target)))
    as [origin| | |] eqn:Horigin; try done.
  simpl. destruct (truthyValue origin); [|done].
  destruct (walkPath ctx origin (tail (split dot target))) as [[marker|]| | |] eqn:Hwalk;
    try done.
  simpl. intros [= Hid].
  apply resolvePathOrigin_stored in Horigin.
  pose proof (walkPath_stored _ _ _ _ Horigin Hwalk) as Hmarker.
  assert (Hstored : ∀ tnode, stored ctx tnode → registered (TreeNode.uniqueId tnode) ctx).
  { intros tnode [key Hkey]. destruct Hwf as [H1 H2 _ _ _ _].
    destruct (H2 key tnode Hkey) as [-> _].
    unfold registered. rewrite <- H1. apply elem_of_dom. by eexists. }
  destruct marker as [|s|node|node|name]; simpl in *; try done.
  - injection Hid as <-. by apply Hstored.
  - unfold childNode in Hid.
    destruct (TreeNode.children node !! "uniqueId") as [cid|].
    { unfold treeNodeRef in Hid. by destruct (treeNodes ctx !! cid). }
    destruct (TreeNode.children node !! "__proto__") as [pid|]; simpl in Hid; [|done].
    destruct (treeNodes ctx !! pid) as [prototype|] eqn:E; [|done].
    injection Hid as <-. apply Hstored. by exists pid.
Qed.

Lemma wellFormed_pushTarget ctx edgeId id :
  wellFormed ctx → registered id ctx →
  wellFormed
    (setDigraph (setEdges (alter (Edge.pushTarget id) edgeId (edges (ctx_digraph ctx)))
                   (ctx_digraph ctx)) ctx).
Proof.
  intros [H1 H2 H3 H4 H5 H6] Hid. split; simpl; rewrite ?dom_alter_L; try done.
  intros id' edge Hedge.
  apply lookup_alter_Some in Hedge as [(-> & old & Hold & ->)|[_ Hold]]; [|by apply H4].
  destruct (H4 _ old Hold) as (? & ? & Htargets & ?). simpl.
  repeat split; try done. intros target [Hin|Hin]%elem_of_app; [by apply Htargets|].
  by apply list_elem_of_singleton in Hin as ->.
Qed.

Lemma resolveEdgeTargets_wellFormed edgeId edgeTargets ctx ctx' :
  wellFormed ctx → resolveEdgeTargets edgeId edgeTargets ctx = Ok ctx' → wellFormed ctx'.
Proof.
  revert ctx. induction edgeTargets as [|edgeTarget rest IH]; intros ctx Hwf; simpl.
  { by intros [= <-]. }
  destruct (edges (ctx_digraph ctx) !! edgeId) as [edge|]; [|done].
  unfold resolveTargetId.
  destruct (resolveTarget ctx (Edge.source edge) edgeTarget) as [[resolved|]| | |] eqn:E;
    try done; simpl.
  - destruct (truthyValue resolved).
    + destruct resolved as [|id| | |]; try done. apply IH.
      apply wellFormed_pushTarget; [done|]. by eapply resolveTarget_registered.
    + apply IH. eapply wellFormed_sameStore; [|exact Hwf]. done.
  - apply IH. eapply wellFormed_sameStore; [|exact Hwf]. done.
Qed.

Lemma resolveTargets_wellFormed ctx ctx' :
  wellFormed ctx → resolveTargets ctx = Ok ctx' → wellFormed ctx'.
Proof.
  unfold resolveTargets. generalize (originalTargets ctx) as entries. intros entries.
  revert ctx. induction entries as [|[edgeId edgeTargets] rest IH]; intros ctx Hwf; simpl.
  { by intros [= <-]. }
  destruct (resolveEdgeTargets edgeId edgeTargets ctx) as [ctx1| | |] eqn:E; [|done..].
  simpl. apply IH. by eapply resolveEdgeTargets_wellFormed.
Qed.

Lemma wellFormed_fresh supply : wellFormed (freshContext supply).
Proof.
  split; simpl; try done.
  intros edgeId targets Hin. by apply elem_of_nil in Hin.
Qed.

(** When the extraction of a machine from a well-formed context returns, the
    context is well-formed. *)
Lemma extractMachineConfig_wellFormed call ctx def errs ctx' :
  wellFormed ctx →
  extractMachineConfig call ctx = Ok (def, errs, ctx') →
  wellFormed ctx'
  ∧ errs = errors ctx'
  ∧ ∀ d, def = Some d → digraph d = ctx_digraph ctx' ∧ registered (root d) ctx'.
Proof.
  intros Hwf. unfold extractMachineConfig.
  set (rootState := head (call_arguments call)).
  destruct (establishes_extractState (S (stateDepth rootState)) rootState None ctx Hwf)
    as (Hwf1 & Hw1 & Hroot); [done|].
  destruct (extractState (S (stateDepth rootState)) rootState None ctx)
    as [[[rootNode|]| | |] ctx1]; simpl in *; try done.
  - destruct (resolveTargets ctx1) as [ctx2| | |] eqn:Hrun; simpl; try done.
    intros [= <- <- <-]. split; [by eapply resolveTargets_wellFormed|]. split; [done|].
    intros d [= <-]. simpl. split; [done|]. unfold registered.
    rewrite (resolveTargets_nodes _ _ Hrun). by apply Hroot.
  - intros [= <- <- <-]. split; [done|]. split; [done|]. by intros d.
Qed.

(** ** The digraph of an extracted machine *)

(** X14. Extracting a state only adds to the context. The errors recorded
    before are still there afterwards, in order, before the new ones; the
    AST path is restored and the recorded AST paths are untouched; no node,
    edge, block, tree node or declared id is removed; and an implementation
    that was registered is still there unchanged, since a source that is
    implemented is not implemented again. *)
Theorem extractState_accumulates (fuel : nat) (state : option Expr)
    (parentId : option string) (ctx : ExtractionContext) :
  accumulates ctx (extractState fuel state parentId ctx).2.
Proof. apply accumulates_extractState. Qed.

Lemma extractProjectMachine_wellFormed call supply pms supply' :
  extractProjectMachine call supply = Ok (pms, supply') →
  ∃ ctx',
    wellFormed ctx'
    ∧ ∀ def, pms_digraph pms = Some def →
             digraph def = ctx_digraph ctx' ∧ registered (root def) ctx'.
Proof.
  unfold extractProjectMachine.
  destruct (extractMachineConfig call (freshContext supply)) as [[[def errs] ctx']| | |] eqn:E;
    simpl; try done.
  intros [= <- <-].
  destruct (extractMachineConfig_wellFormed call (freshContext supply) def errs ctx'
              (wellFormed_fresh supply) E) as (Hwf & _ & Hdef).
  by exists ctx'.
Qed.

(** X16. The nodes of an extracted digraph are closed under parents: the
    root is a node of the digraph, every node is registered under its own
    id, and the parent a node names is a node of the digraph. *)
Theorem extractProjectMachine_nodes (call : CallExpression) (supply : nat)
    (pms : ProjectMachineState) (supply' : nat) :
  extractProjectMachine call supply = Ok (pms, supply') →
  ∀ def, pms_digraph pms = Some def →
    root def ∈ dom (nodes (digraph def))
    ∧ ∀ id node, nodes (digraph def) !! id = Some node →
        Node.uniqueId node = id
        ∧ ∀ parentId, Node.parentId node = Some parentId →
                      parentId ∈ dom (nodes (digraph def)).
Proof.
  intros Hrun def Hpms.
  destruct (extractProjectMachine_wellFormed call supply pms supply' Hrun)
    as (ctx' & Hwf & Hdef).
  destruct (Hdef def Hpms) as [-> Hroot]. split; [done|].
  intros id node Hnode. destruct Hwf as [_ _ H3 _ _ _].
  destruct (H3 id node Hnode) as (? & ? & _). by split.
Qed.

Lemma extractProjectMachine_nodes_witness :
  ∃ pms supply',
    extractProjectMachine nestedCall 0 = Ok (pms, supply')
    ∧ ∀ def, pms_digraph pms = Some def →
        root def ∈ dom (nodes (digraph def))
        ∧ ∀ id node, nodes (digraph def) !! id = Some node →
            Node.uniqueId node = id
            ∧ ∀ parentId, Node.parentId node = Some parentId →
                          parentId ∈ dom (nodes (digraph def)).
Proof.
  eexists _, _. split; [vm_compute; reflexivity|].
  eapply (extractProjectMachine_nodes nestedCall 0); vm_compute; reflexivity.
Defined.



(** X18. The blocks of an extracted digraph are all there: the block ids in
    the [entry], [exit] and [invoke] lists of a node and in the [actions] of
    an edge are registered blocks, and every block is registered under its
    own id. The source of a block has an implementation in the table of its
    type (actions or actors), unless it is the name of a member that the
    table inherits from [Object.prototype], such as [constructor]: for such
    a name [??=] assigns nothing. *)
Theorem extractProjectMachine_blocks (call : CallExpression) (supply : nat)
    (pms : ProjectMachineState) (supply' : nat) :
  extractProjectMachine call supply = Ok (pms, supply') →
  ∀ def, pms_digraph pms = Some def →
    (∀ id node blockId, nodes (digraph def) !! id = Some node →
       blockId ∈ Node.entry (Node.data node) ++ Node.exit (Node.data node)
                 ++ Node.invoke (Node.data node) →
       blockId ∈ dom (blocks (digraph def)))
    ∧ (∀ id edge blockId, edges (digraph def) !! id = Some edge →
         blockId ∈ Edge.actions (Edge.data edge) →
         blockId ∈ dom (blocks (digraph def)))
    ∧ (∀ id block, blocks (digraph def) !! id = Some block →
         Block.uniqueId block = id
         ∧ (Block.sourceId block
            ∈ dom (implementationsOf (Block.blockType block)
                     (implementations (digraph def)))
            ∨ Block.sourceId block ∈ objectPrototypeNames)).
Proof.
  intros Hrun def Hpms.
  destruct (extractProjectMachine_wellFormed call supply pms supply' Hrun)
    as (ctx' & Hwf & Hdef).
  destruct (Hdef def Hpms) as [-> _]. destruct Hwf as [_ _ H3 H4 H5 _].
  split; [|split].
  - intros id node blockId Hnode Hin. destruct (H3 id node Hnode) as (_ & _ & Hrefs).
    by apply Hrefs.
  - intros id edge blockId Hedge Hin. destruct (H4 id edge Hedge) as (_ & _ & _ & Hrefs).
    by apply Hrefs.
  - intros id block Hblock. destruct (H5 id block Hblock) as [? [Himpl|Himpl]].
    + split; [done|by left].
    + split; [done|]. right. unfold inheritedName in Himpl.
      by apply bool_decide_eq_true in Himpl.
Qed.

Lemma extractProjectMachine_blocks_witness :
  ∃ pms supply',
    extractProjectMachine (entryCall "constructor") 0 = Ok (pms, supply')
    ∧ ∀ def, pms_digraph pms = Some def →
        (∀ id node blockId, nodes (digraph def) !! id = Some node →
           blockId ∈ Node.entry (Node.data node) ++ Node.exit (Node.data node)
                     ++ Node.invoke (Node.data node) →
           blockId ∈ dom (blocks (digraph def)))
        ∧ (∀ id edge blockId, edges (digraph def) !! id = Some edge →
             blockId ∈ Edge.actions (Edge.data edge) →
             blockId ∈ dom (blocks (digraph def)))
        ∧ (∀ id block, blocks (digraph def) !! id = Some block →
             Block.uniqueId block = id
             ∧ (Block.sourceId block
                ∈ dom (implementationsOf (Block.blockType block)
                         (implementations (digraph def)))
                ∨ Block.sourceId block ∈ objectPrototypeNames)).
Proof.
  eexists _, _. split; [vm_compute; reflexivity|].
  eapply (extractProjectMachine_blocks (entryCall "constructor") 0); vm_compute; reflexivity.
Defined.

(** ** The machines of a file *)

Lemma getDigraphs_reextracted program supply machines machines' supply' results :
  getDigraphs program supply machines = Ok (machines', supply', results) →
  Forall2 reextracted machines machines'.
Proof.
  revert supply machines' supply' results.
  induction machines as [|machine rest IH]; intros supply machines' supply' results; simpl.
  { intros [= <- <- <-]. constructor. }
  unfold getDigraph.
  destruct (findOwnCreateMachineCall program machine) as [[sf call]| | |]; simpl; try done.
  destruct (extractProjectMachine call supply) as [[newState supply1]| | |]; simpl; try done.
  destruct (getDigraphs program supply1 rest) as [[[rest' supply2] results']| | |] eqn:Hrest;
    simpl; try done.
  intros [= <- <- <-]. constructor; [|by eapply IH]. by repeat split.
Qed.

Lemma getMachinesInFile_created (project project' : Project) (file : string)
    (sourceFile : SourceFile)
    (results : list (option ExtractorDigraphDef * list ExtractionError)) :
  projectMachines project !! file = None →
  currentProgram project !! file = Some sourceFile →
  getMachinesInFile project file = Ok (project', results) →
  length results = length (findCreateMachineCalls sourceFile)
  ∧ ∃ machines,
      projectMachines project' !! file = Some machines
      ∧ Forall2 reextracted (machinesFor file (findCreateMachineCalls sourceFile)) machines.
Proof.
  intros Hnone Hfile. unfold getMachinesInFile. rewrite Hnone, Hfile.
  fold (machinesFor file (findCreateMachineCalls sourceFile)).
  destruct (getDigraphs (currentProgram project) (randomSupply project)
              (machinesFor file (findCreateMachineCalls sourceFile)))
    as [[[machines supply'] results']| | |] eqn:Hrun; simpl; try done.
  intros [= <- <-].
  destruct (getDigraphs_states _ _ _ _ _ _ Hrun) as (_ & _ & Hlen).
  split.
  - rewrite Hlen. unfold machinesFor. by rewrite length_imap.
  - exists machines. simpl. rewrite lookup_insert_eq. split; [done|].
    by eapply getDigraphs_reextracted.
Qed.

(** X19. The first request for the machines of a file of the program, when
    it returns, is answered with one entry per [createMachine] call that
    [findCreateMachineCalls] finds in the file, and leaves one machine per
    call, numbered in the order of the calls, each with an extracted state. *)
Theorem getMachinesInFile_first (project project' : Project) (file : string)
    (sourceFile : SourceFile)
    (results : list (option ExtractorDigraphDef * list ExtractionError)) :
  projectMachines project !! file = None →
  currentProgram project !! file = Some sourceFile →
  getMachinesInFile project file = Ok (project', results) →
  length results = length (findCreateMachineCalls sourceFile)
  ∧ ∃ machines,
      projectMachines project' !! file = Some machines
      ∧ Forall2 reextracted (machinesFor file (findCreateMachineCalls sourceFile)) machines.
Proof. apply getMachinesInFile_created. Qed.

Lemma getMachinesInFile_first_witness :
  ∃ (project' : Project)
    (results : list (option ExtractorDigraphDef * list ExtractionError)),
    length results
    = length (findCreateMachineCalls
                {| statements := [OtherStatement [ECall (EIdentifier "createMachine")
                                                    [EObjectLiteral []]]] |})
    ∧ ∃ machines,
        projectMachines project' !! "machine.ts" = Some machines
        ∧ Forall2 reextracted
            (machinesFor "machine.ts"
               (findCreateMachineCalls
                  {| statements := [OtherStatement [ECall (EIdentifier "createMachine")
                                                      [EObjectLiteral []]]] |}))
            machines.
Proof.
  eexists _, _.
  apply (getMachinesInFile_first (createProject programWithMachine) _ "machine.ts");
    vm_compute; reflexivity.
Defined.

(** X20. Once the machines of a file have been created, later requests
    answer for exactly those machines: the number of entries is the number
    of machines created at the first request, whatever calls the current
    program has in the file, and the machines keep their file and index. *)
Theorem getMachinesInFile_cached (project project' : Project) (file : string)
    (existing : list ProjectMachine)
    (results : list (option ExtractorDigraphDef * list ExtractionError)) :
  projectMachines project !! file = Some existing →
  getMachinesInFile project file = Ok (project', results) →
  length results = length existing
  ∧ ∃ machines, projectMachines project' !! file = Some machines
                ∧ Forall2 reextracted existing machines.
Proof.
  intros Hexisting. unfold getMachinesInFile. rewrite Hexisting.
  destruct (getDigraphs _ _ existing) as [[[machines supply'] results']| | |] eqn:Hrun;
    simpl; try done.
  intros [= <- <-]. destruct (getDigraphs_states _ _ _ _ _ _ Hrun) as (_ & _ & Hlen).
  split; [done|]. exists machines. simpl. rewrite lookup_insert_eq.
  split; [done|]. by eapply getDigraphs_reextracted.
Qed.



Lemma getMachinesInFile_cached_witness :
  ∃ (existing : list ProjectMachine) (project' : Project)
    (results : list (option ExtractorDigraphDef * list ExtractionError)),
    length results = length existing
    ∧ ∃ machines, projectMachines project' !! "machine.ts" = Some machines
                  ∧ Forall2 reextracted existing machines.
Proof.
  eexists _, _, _.
  eapply (getMachinesInFile_cached extractedProject _ "machine.ts"); vm_compute; reflexivity.
Defined.

(** X22. When the machines of a file of the program can be extracted, a
    request for the machine at an index is answered for the indexes of the
    [createMachine] calls of the file; for an index past the last call it
    throws a [TypeError] instead of answering that there is no such
    machine. *)
Theorem getMachineAtIndex_bounds (project project' : Project) (file : string)
    (sourceFile : SourceFile) (index : nat)
    (results : list (option ExtractorDigraphDef * list ExtractionError)) :
  projectMachines project !! file = None →
  currentProgram project !! file = Some sourceFile →
  getMachinesInFile project file = Ok (project', results) →
  (index < length (findCreateMachineCalls sourceFile) →
   ∃ digraph, getMachineAtIndex project file index = Ok (project', digraph))
  ∧ (length (findCreateMachineCalls sourceFile) ≤ index →
     getMachineAtIndex project file index = Throw TypeError)%nat.
Proof.
  intros Hnone Hfile Hrun.
  destruct (getMachinesInFile_created project project' file sourceFile results Hnone Hfile Hrun)
    as (Hlen & _).
  unfold getMachineAtIndex. rewrite Hrun. simpl. split.
  - intros Hindex. destruct (lookup_lt_is_Some_2 results index) as [[digraph errs] ->]; [lia|].
    by eexists.
  - intros Hindex. rewrite lookup_ge_None_2; [done|lia].
Qed.

Lemma getMachineAtIndex_bounds_witness :
  ∃ project' : Project,
    (0 < length (findCreateMachineCalls
                   {| statements := [OtherStatement [ECall (EIdentifier "createMachine")
                                                       [EObjectLiteral []]]] |}) →
     ∃ digraph,
       getMachineAtIndex (createProject programWithMachine) "machine.ts" 0
       = Ok (project', digraph))
    ∧ (length (findCreateMachineCalls
                 {| statements := [OtherStatement [ECall (EIdentifier "createMachine")
                                                     [EObjectLiteral []]]] |}) ≤ 0 →
       getMachineAtIndex (createProject programWithMachine) "machine.ts" 0
       = Throw TypeError)%nat.
Proof.
  eexists.
  eapply (getMachineAtIndex_bounds (createProject programWithMachine) _ "machine.ts");
    vm_compute; reflexivity.
Defined.

(** ** Well-formed contexts and the resolver *)



(** ** The synthesizer ends *)

Lemma climbToDeclaredId_returns pms nodeMap fuel current chain full i :
  getPathNodes_climb fuel nodeMap current = Ok chain →
  ∃ descriptor,
    climbToDeclaredId pms nodeMap full chain i (Some current) = Ok descriptor.
Proof.
  revert current chain i. induction fuel as [|fuel IH]; intros current chain i; [done|]. simpl.
  destruct (truthyOpt (Node.parentId current)) as [parentId|] eqn:Hp.
  - destruct (nodeMap !! parentId) as [parent|] eqn:Hparent; [|done].
    destruct (getPathNodes_climb fuel nodeMap parent) as [rest| | |] eqn:Hrest; try done.
    intros [= <-]. simpl. rewrite Hp.
    destruct (declaredId pms (Node.uniqueId current)); [by eexists|].
    rewrite Hparent. by eapply IH.
  - intros [= <-]. simpl. rewrite Hp. destruct (declaredId pms (Node.uniqueId current)); by eexists.
Qed.

(** X24. [getBestTargetDescriptor] returns a descriptor for every two nodes
    of the digraph from which [getPathNodes] reaches a root: it neither
    throws nor falls out of its final loop. *)
Theorem getBestTargetDescriptor_returns (pms : ProjectMachineState)
    (def : ExtractorDigraphDef) (sourceId targetId : string) (source target : Node.t)
    (sourcePathNodes targetPathNodes : list Node.t) :
  pms_digraph pms = Some def →
  nodes (digraph def) !! sourceId = Some source →
  nodes (digraph def) !! targetId = Some target →
  getPathNodes (nodes (digraph def)) source = Ok sourcePathNodes →
  getPathNodes (nodes (digraph def)) target = Ok targetPathNodes →
  ∃ descriptor, getBestTargetDescriptor sourceId targetId pms = Ok descriptor.
Proof.
  intros Hdef Hsource Htarget Hspath Htpath. unfold getBestTargetDescriptor.
  rewrite Hdef, Htarget. destruct (truthyOpt (Node.parentId target)); [|by eexists].
  case_bool_decide; [by eexists|]. rewrite Htpath. simpl. rewrite Hsource, Hspath. simpl.
  destruct (sameNodeOpt _ (Some source)); [by eexists|].
  destruct (match truthyOpt (Node.parentId source) with
            | Some parentId => sameNodeOpt _ (nodes (digraph def) !! parentId)
            | None => false
            end); [by eexists|].
  destruct (declaredId pms targetId); [by eexists|].
  by eapply climbToDeclaredId_returns.
Qed.

Lemma getBestTargetDescriptor_returns_witness :
  ∃ descriptor, getBestTargetDescriptor "n2" "n3" exampleState = Ok descriptor.
Proof.
  eapply (getBestTargetDescriptor_returns exampleState _ "n2" "n3");
    vm_compute; reflexivity.
Defined.

(** ** Calls outside type nodes are found *)

Lemma visitorName_expressions name call :
  call ∈ flat_map visitor (nameExpressions name) → call ∈ visitorName name.
Proof. destruct name; simpl; rewrite ?app_nil_r; try done. Qed.

Lemma visitorProperty_expressions member call :
  call ∈ flat_map visitor (memberExpressions member) → call ∈ visitorProperty member.
Proof.
  destruct member as [name initializer|?|expression|name children|name children|name children];
    simpl; rewrite ?app_nil_r, ?flat_map_app; simpl; rewrite ?app_nil_r; try done;
    rewrite !elem_of_app;
    (intros [H|H]; [left; by apply visitorName_expressions|by right]).
Qed.

Lemma visitor_subexpressions node call :
  call ∈ flat_map visitor (subexpressions node) → call ∈ visitor node.
Proof.
  destruct node as [| | | | | | |elements|properties|? children|? children|callee arguments
                    |expression name| |children]; simpl; rewrite ?app_nil_r; try done.
  - induction properties as [|member rest IH]; simpl; [done|].
    rewrite flat_map_app, !elem_of_app. intros [H|H]; [left|right; by apply IH].
    by apply visitorProperty_expressions.
  - rewrite !elem_of_app. intros [H|H]; right; [by left|by right].
Qed.

Lemma visitor_within e root call :
  within e root → call ∈ visitor e → call ∈ visitor root.
Proof.
  induction 1 as [|child parent Hchild _ IH]; [done|]. intros Hcall.
  apply visitor_subexpressions. apply list_elem_of_In, in_flat_map.
  exists child. split; apply list_elem_of_In; [done|by apply IH].
Qed.

(** X25. Outside type nodes [findCreateMachineCalls] misses no call: every
    call of [createMachine], named directly or as a member, that lies in a
    statement of the file and not below a type node is collected, calls
    nested in the arguments of another call included. What lies below a type
    node (the expression of a class's [extends] clause is one) is not
    visited: see [findCreateMachineCalls_extends]. *)
Theorem findCreateMachineCalls_complete (sourceFile : SourceFile) (statement : Statement)
    (top callee : Expr) (arguments : list Expr) :
  statement ∈ statements sourceFile →
  top ∈ statementExpressions statement →
  within (ECall callee arguments) top →
  isCreateMachineCallee callee = true →
  {| call_expression := callee; call_arguments := arguments |}
    ∈ findCreateMachineCalls sourceFile.
Proof.
  intros Hstatement Htop Hwithin Hcallee. unfold findCreateMachineCalls.
  apply list_elem_of_In, in_flat_map. exists statement.
  split; [by apply list_elem_of_In|]. apply list_elem_of_In.
  assert (Hfound : {| call_expression := callee; call_arguments := arguments |} ∈ visitor top).
  { eapply visitor_within; [exact Hwithin|]. simpl. rewrite Hcallee.
    apply elem_of_cons. by left. }
  destruct statement as [moduleSpecifier|[moduleSpecifier|]|children]; simpl in *.
  - by apply list_elem_of_singleton in Htop as ->.
  - by apply list_elem_of_singleton in Htop as ->.
  - by apply elem_of_nil in Htop.
  - apply list_elem_of_In, in_flat_map. exists top. split; by apply list_elem_of_In.
Qed.

Lemma findCreateMachineCalls_complete_witness :
  {| call_expression := EPropertyAccess (EIdentifier "x") (MIdentifier "createMachine");
     call_arguments := [EObjectLiteral []] |}
    ∈ findCreateMachineCalls wrappedCallFile.
Proof.
  apply (findCreateMachineCalls_complete wrappedCallFile
           (OtherStatement [ECall (EIdentifier "wrap") [memberCall]])
           (ECall (EIdentifier "wrap") [memberCall])).
  - apply list_elem_of_singleton. reflexivity.
  - apply list_elem_of_singleton. reflexivity.
  - apply (within_below _ memberCall); [|apply within_here].
    simpl. apply elem_of_cons. right. apply list_elem_of_singleton. reflexivity.
  - reflexivity.
Defined.

(** A call of [createMachine] that a class extends lies below a type node
    and is not collected. *)
Lemma findCreateMachineCalls_extends : findCreateMachineCalls extendsFile = [].
Proof. reflexivity. Qed.

(** ** What [applyPatches] leaves alone *)

(** X26. A successful [applyPatches] changes one machine of the project and
    nothing else: the program, the machines of the other files and the
    other machines of the file are what they were, and the machine patched
    keeps its file and index, its state being the old one with the digraph
    that immer computed. *)
Theorem applyPatches_frame
    (immer : option ExtractorDigraphDef → list Patch → Outcome (option ExtractorDigraphDef))
    (project project' : Project) (file : string) (index : nat) (patches : list Patch)
    (changes : list CodeChange) :
  applyPatches immer project file index patches = Ok (project', changes) →
  currentProgram project' = currentProgram project
  ∧ (∀ other, other ≠ file →
              projectMachines project' !! other = projectMachines project !! other)
  ∧ ∃ machines machine machine',
      projectMachines project !! file = Some machines
      ∧ machines !! index = Some machine
      ∧ projectMachines project' !! file = Some (<[index := machine']> machines)
      ∧ patchedBy immer patches machine machine'.
Proof.
  unfold applyPatches.
  destruct (projectMachines project !! file) as [machines|] eqn:Hmachines; [|done]. simpl.
  destruct (machines !! index) as [machine|] eqn:Hmachine; [|done].
  unfold machineApplyPatches.
  destruct (findOwnCreateMachineCall (currentProgram project) machine) as [[sf call]| | |];
    try done. simpl.
  destruct (state machine) as [oldState|] eqn:Hstate; [|done].
  destruct (immer (pms_digraph oldState) patches) as [patched| | |] eqn:Himmer; try done. simpl.
  destruct (applyPatchList call (withDigraph patched oldState) patches) as [cs| | |]; try done.
  simpl. intros [= <- <-]. simpl. split; [done|]. split.
  - intros other Hother. by rewrite lookup_alter_ne.
  - eexists machines, machine, _. split; [done|]. split; [done|].
    rewrite lookup_alter_eq, Hmachines. split; [done|].
    split; [done|]. split; [done|]. by exists oldState, patched.
Qed.

Lemma applyPatches_frame_witness :
  ∃ project',
    currentProgram project' = currentProgram extractedProject
    ∧ (∀ other, other ≠ "machine.ts" →
                projectMachines project' !! other = projectMachines extractedProject !! other)
    ∧ ∃ machines machine machine',
        projectMachines extractedProject !! "machine.ts" = Some machines
        ∧ machines !! 0 = Some machine
        ∧ projectMachines project' !! "machine.ts" = Some (<[0 := machine']> machines)
        ∧ patchedBy keepDigraph [] machine machine'.
Proof.
  eexists.
  eapply (applyPatches_frame keepDigraph extractedProject _ "machine.ts" 0 [] []).
  vm_compute. reflexivity.
Defined.

(** X27. Of the data of a node, [applyPatches] writes back the key, the
    initial state, the type, the history and the description. A patch that
    replaces one of these for a node without a recorded place in the source
    throws a [TypeError]; a patch that replaces one of the other fields
    (meta entries, entry, exit, invoke, tags) is not written back and yields
    no code change. *)
Theorem applyPatch_node_data (call : CallExpression) (currentState : ProjectMachineState)
    (nodeId field : string) (v : PatchValue) :
  (field ∈ writtenBack →
   astNodes (pms_astPaths currentState) !! nodeId = None →
   applyPatch call currentState (replaceDataPatch nodeId field v) = Throw TypeError)
  ∧ (field ∈ notWrittenBack →
     applyPatch call currentState (replaceDataPatch nodeId field v) = Ok []).
Proof.
  unfold applyPatch, applyReplaceNode, replaceDataPatch, writtenBack, notWrittenBack. split.
  - intros Hfield Hpath. unfold AstPath in *.
    repeat (apply elem_of_cons in Hfield as [->|Hfield]; [simpl; rewrite Hpath; reflexivity|]).
    by apply elem_of_nil in Hfield.
  - intros Hfield.
    repeat (apply elem_of_cons in Hfield as [->|Hfield]; [done|]).
    by apply elem_of_nil in Hfield.
Qed.
